(** * pingpongpro: the scoring engine of [apps/pingpongpro/pingpongpro.cpp]

    A shallow embedding of the four stages of the program

      countReadsInBamFile -> mapHeightsToScores -> countStacksByGroup -> collapseBins

    and the properties of these stages, followed by the code around them:
    the sums of [plotHistograms], [parseCommandLine], [stopwatch] and [main].

    Numbers are modelled as the program has them:
    - [float] is IEEE 754 binary32 and [double] binary64, both through the
      executable specification [SpecFloat] of the standard library
      (round to nearest, ties to even; expressions are evaluated in the type
      C++ gives them, i.e. FLT_EVAL_METHOD = 0);
    - [unsigned int] keys wrap modulo 2^32, [size_t] modulo 2^64;
    - [std::map<unsigned int, V>] is an association list in ascending key
      order ([begin()] is its head);
    - [std::vector] is a list; [CharString] and [std::string] are strings.
    An operation whose behaviour C++ leaves undefined (a float-to-integer
    conversion out of range, an index outside a string or vector) yields
    [None]. *)

From Stdlib Require Import ZArith NArith List Bool Lia Ascii QArith.
From Stdlib Require Import Floats.SpecFloat.
From Stdlib Require String.
Import ListNotations.
Import String.StringSyntax.
Delimit Scope string_scope with string.

Local Open Scope Z_scope.

(* ================================================================== *)
(** * Floating point *)
(* ================================================================== *)

Definition float := spec_float.   (* C++ float: binary32 *)
Definition double := spec_float.  (* C++ double: binary64 *)

Module F32.
Definition prec : Z := 24.
Definition emax : Z := 128.
Definition add : float -> float -> float := SFadd prec emax.
Definition sub : float -> float -> float := SFsub prec emax.
Definition mul : float -> float -> float := SFmul prec emax.
Definition div : float -> float -> float := SFdiv prec emax.
Definition ltb : float -> float -> bool := SFltb.
Definition leb : float -> float -> bool := SFleb.
Definition valid : float -> bool := valid_binary prec emax.
(** integer to float conversion *)
Definition of_Z (z : Z) : float := binary_normalize prec emax z 0 false.
Definition of_N (n : N) : float := of_Z (Z.of_N n).
Definition zero : float := S754_zero false.
Definition one : float := Eval cbv in of_Z 1.
End F32.

Module F64.
Definition prec : Z := 53.
Definition emax : Z := 1024.
Definition add : double -> double -> double := SFadd prec emax.
Definition sub : double -> double -> double := SFsub prec emax.
Definition mul : double -> double -> double := SFmul prec emax.
Definition div : double -> double -> double := SFdiv prec emax.
Definition ltb : double -> double -> bool := SFltb.
Definition of_Z (z : Z) : double := binary_normalize prec emax z 0 false.
Definition of_N (n : N) : double := of_Z (Z.of_N n).
Definition one : double := Eval cbv in of_Z 1.
(** the literals of the program *)
Definition lit_0_5 : double := Eval cbv in div (of_Z 1) (of_Z 2).
Definition lit_0_2 : double := Eval cbv in div (of_Z 2) (of_Z 10).
Definition lit_0_25 : double := Eval cbv in div (of_Z 25) (of_Z 100).
End F64.

(** float -> double (exact) and double -> float (rounds) *)
Definition double_of_float (x : float) : double :=
  match x with
  | S754_finite s m e => binary_round F64.prec F64.emax s m e
  | _ => x
  end.

Definition float_of_double (x : double) : float :=
  match x with
  | S754_finite s m e => binary_round F32.prec F32.emax s m e
  | _ => x
  end.

(** The integer part of a finite value, truncated towards zero. *)
Definition truncate (x : spec_float) : option Z :=
  match x with
  | S754_zero _ => Some 0
  | S754_finite s m e =>
      let a := match e with
               | Zneg p => Z.shiftr (Zpos m) (Zpos p)
               | _ => Z.shiftl (Zpos m) e
               end in
      Some (if s then - a else a)
  | _ => None
  end.

(** Floating-integral conversions: the value is truncated; the behaviour is
    undefined when the truncated value does not fit the destination type. *)
Definition to_unsigned_int (x : spec_float) : option N :=
  match truncate x with
  | Some z => if (0 <=? z) && (z <? 2 ^ 32) then Some (Z.to_N z) else None
  | None => None
  end.

Definition to_int (x : spec_float) : option Z :=
  match truncate x with
  | Some z => if (- 2 ^ 31 <=? z) && (z <? 2 ^ 31) then Some z else None
  | None => None
  end.

(** int -> unsigned int *)
Definition unsigned_of_int (z : Z) : N := Z.to_N (z mod 2 ^ 32).

(** The exact value of a finite float, as a rational. *)
Definition SF2Q (x : spec_float) : Q :=
  match x with
  | S754_finite s m e =>
      let v := match e with
               | Zneg p => Zpos m # (2 ^ p)
               | _ => inject_Z (Zpos m * 2 ^ e)
               end in
      if s then Qopp v else v
  | _ => 0%Q
  end.

Definition is_finite (x : spec_float) : bool :=
  match x with
  | S754_zero _ | S754_finite _ _ _ => true
  | _ => false
  end.

(** sign bit clear and not a NaN: +0, a positive finite value or +infinity *)
Definition nonneg (x : spec_float) : bool :=
  match x with
  | S754_zero false | S754_finite false _ _ | S754_infinity false => true
  | _ => false
  end.

(* ================================================================== *)
(** * std::map<unsigned int, V> *)
(* ================================================================== *)

Definition smap (V : Type) := list (N * V).

Fixpoint smap_find {V} (k : N) (m : smap V) : option V :=
  match m with
  | [] => None
  | (k', v) :: m' =>
      match N.compare k k' with
      | Eq => Some v
      | Lt => None
      | Gt => smap_find k m'
      end
  end.

(** [m[k] = f (m[k])], where [m[k]] value-initialises a missing entry to [d]
    ([operator[]] followed by an update through the reference it returns). *)
Fixpoint smap_modify {V} (d : V) (f : V -> V) (k : N) (m : smap V) : smap V :=
  match m with
  | [] => [(k, f d)]
  | (k', v) :: m' =>
      match N.compare k k' with
      | Eq => (k, f v) :: m'
      | Lt => (k, f d) :: m
      | Gt => (k', v) :: smap_modify d f k m'
      end
  end.

(** [operator[]] used as an rvalue: the entry is created when missing. *)
Definition smap_index {V} (d : V) (k : N) (m : smap V) : smap V * V :=
  (smap_modify d (fun v => v) k m,
   match smap_find k m with Some v => v | None => d end).

Definition smap_values {V} (m : smap V) : list V := map snd m.

Definition uint32 (z : Z) : N := Z.to_N (z mod 2 ^ 32).

(* ================================================================== *)
(** * Types of the program *)
(* ================================================================== *)

Inductive TCountMultiHits := multiHitsWeighted | multiHitsDiscard | multiHitsUnique.

Record TCountsPosition := mkPosition {
  reads : float;
  UAt5PrimeEnd : bool
}.

(** the default constructor *)
Definition TCountsPosition0 : TCountsPosition := mkPosition F32.zero false.

Definition TCountsContig := smap TCountsPosition.
Definition TCountsStrand := smap TCountsContig.

(** [TCountsStrand TCountsGenome[2]], indexed by STRAND_PLUS = 0 and
    STRAND_MINUS = 1 *)
Record TCountsGenome := mkGenome {
  strandPlus : TCountsStrand;
  strandMinus : TCountsStrand
}.

Definition PING_PONG_OVERLAP : nat := 10.
Definition MIN_ARBITRARY_OVERLAP : nat := 0.
Definition MAX_ARBITRARY_OVERLAP : nat := 20.
Definition HEIGHT_SCORE_BINS : nat := 1000.
Definition IS_URIDINE : nat := 0.
Definition IS_NOT_URIDINE : nat := 1.
Definition IS_ABOVE_COVERAGE : nat := 0.
Definition IS_BELOW_COVERAGE : nat := 1.
Definition URIDINE_PROBABILITY : double := F64.lit_0_25.

Definition THeightScoreMap := smap float.

(** one height-score bin: [uridine +][uridine -][local height] *)
Definition TBin := list (list (list float)).
(** [height-score bin][uridine +][uridine -][local height] *)
Definition TGroupedStackCounts := list TBin.
(** [overlap][height-score bin][uridine +][uridine -][local height] *)
Definition TGroupedStackCountsByOverlap := list TGroupedStackCounts.

(* ================================================================== *)
(** * Stack Accumulator: [countReadsInBamFile] *)
(* ================================================================== *)

(** Modelled from the spec: the alignment record of SeqAn
    ([BamAlignmentRecord], [CigarElement], [BamTagsDict]; not under src/),
    "a sequence of already-decoded alignment records" with the fields the
    function reads.  [tagNH] is the value [extractTagValue] delivers for the
    tag "NH" when [findTagKey] finds it. *)
Record CigarElement := mkCigar {
  operation : ascii;
  count : N                         (* an unsigned 32-bit length *)
}.

Record BamAlignmentRecord := mkRecord {
  flag : N;
  rID : Z;                          (* __int32 *)
  beginPos : Z;                     (* __int32 *)
  cigar : list CigarElement;
  seq : list ascii;
  tagNH : option N
}.

(** Modelled from the spec: SeqAn's [BamAlignmentRecord::INVALID_POS] and
    [hasFlagRC] (flag bit 0x10), which are not under src/. *)
Definition INVALID_POS : Z := -1.
Definition hasFlagRC (record : BamAlignmentRecord) : bool := N.testbit (flag record) 4.

Definition size_t (z : Z) : Z := z mod 2 ^ 64.

Definition ascii_eqb (a b : ascii) : bool := Ascii.eqb a b.

(** the guard of line 260-261: mapped, and of a length within the range *)
Definition passesFilters (record : BamAlignmentRecord) (minReadLength maxReadLength : N) : bool :=
  negb (beginPos record =? INVALID_POS) && negb (beginPos record =? -1)
  && (minReadLength <=? N.of_nat (length (seq record)))%N
  && (N.of_nat (length (seq record)) <=? maxReadLength)%N.

(** lines 265-291 *)
Definition readWeight (countMultiHits : TCountMultiHits) (record : BamAlignmentRecord) : float :=
  match countMultiHits with
  | multiHitsUnique => F32.of_Z 1
  | _ =>
      let multiHits : N := match tagNH record with Some n => n | None => 1%N end in
      match countMultiHits with
      | multiHitsWeighted => float_of_double (F64.div F64.one (F64.of_N multiHits))
      | _ => if (multiHits =? 1)%N then F32.of_Z 1 else F32.of_Z 0
      end
  end.

Definition isAlignedOperation (c : ascii) : bool :=
  ascii_eqb c "M"%char || ascii_eqb c "N"%char || ascii_eqb c "D"%char || ascii_eqb c "="%char || ascii_eqb c "X"%char.

(** lines 299-304 *)
Definition alignmentLength (cig : list CigarElement) : Z :=
  fold_left (fun len c => if isAlignedOperation (operation c)
                          then size_t (len + Z.of_N (count c)) else len) cig 0.

(** lines 310-312 *)
Definition clippedBasesAt5PrimeEndMinus (cig : list CigarElement) : Z :=
  match last (map Some cig) None with
  | Some c => if (1 <? length cig)%nat && ascii_eqb (operation c) "S"%char
              then Z.of_N (count c) else 0
  | None => 0
  end.

(** [record.seq[i]] for a [size_t] index *)
Definition seqAt (s : list ascii) (i : Z) : option ascii :=
  if (0 <=? i) && (i <? Z.of_nat (length s)) then nth_error s (Z.to_nat i) else None.

Definition isAdenine (c : ascii) : bool := ascii_eqb c "A"%char || ascii_eqb c "a"%char.
Definition isThymine (c : ascii) : bool := ascii_eqb c "T"%char || ascii_eqb c "t"%char.

(** [position = &(readCounts[strand][rID][pos])], the flag set through the
    pointer when [uridine], then [position->reads += readWeight] *)
Definition bumpPosition (w : float) (uridine : bool) (p : TCountsPosition) : TCountsPosition :=
  mkPosition (F32.add (reads p) w) (if uridine then true else UAt5PrimeEnd p).

Definition bumpStrand (w : float) (uridine : bool) (contig pos : N) (s : TCountsStrand) : TCountsStrand :=
  smap_modify [] (smap_modify TCountsPosition0 (bumpPosition w uridine) pos) contig s.

(** the body of the loop for a record that was read (lines 260-331) *)
Definition countRead (minReadLength maxReadLength : N) (countMultiHits : TCountMultiHits)
    (record : BamAlignmentRecord) (readCounts : TCountsGenome) : option TCountsGenome :=
  if passesFilters record minReadLength maxReadLength then
    let w := readWeight countMultiHits record in
    if F32.leb w (F32.of_Z 0) then Some readCounts
    else if hasFlagRC record then
      let pos := uint32 (size_t (beginPos record) + alignmentLength (cigar record)) in
      let clipped := clippedBasesAt5PrimeEndMinus (cigar record) in
      match seqAt (seq record) (size_t (Z.of_nat (length (seq record)) - clipped - 1)) with
      | Some base =>
          Some (mkGenome (strandPlus readCounts)
                  (bumpStrand w (isAdenine base) (uint32 (rID record)) pos (strandMinus readCounts)))
      | None => None
      end
    else
      let pos := uint32 (beginPos record) in
      match cigar record with
      | c0 :: _ =>
          let clipped := if ascii_eqb (operation c0) "S"%char then Z.of_N (count c0) else 0 in
          match seqAt (seq record) clipped with
          | Some base =>
              Some (mkGenome (bumpStrand w (isThymine base) (uint32 (rID record)) pos (strandPlus readCounts))
                      (strandMinus readCounts))
          | None => None
          end
      | [] => None
      end
  else Some readCounts.

(** The stream of the file: [None] is a record that [readRecord] fails on.
    The result is the return value of the function and the counts it leaves. *)
Fixpoint countReadsInBamFile (bamFile : list (option BamAlignmentRecord))
    (readCounts : TCountsGenome) (minReadLength maxReadLength : N)
    (countMultiHits : TCountMultiHits) : option (Z * TCountsGenome) :=
  match bamFile with
  | [] => Some (0, readCounts)
  | None :: _ => Some (1, readCounts)
  | Some record :: rest =>
      match countRead minReadLength maxReadLength countMultiHits record readCounts with
      | Some readCounts' =>
          countReadsInBamFile rest readCounts' minReadLength maxReadLength countMultiHits
      | None => None
      end
  end.

(* ================================================================== *)
(** * Height-Score Mapper: [mapHeightsToScores] *)
(* ================================================================== *)

(** the key of line 377: [position->second.reads + 0.5], a double, converted
    to [unsigned int] *)
Definition roundedHeight (p : TCountsPosition) : option N :=
  to_unsigned_int (F64.add (double_of_float (reads p)) F64.lit_0_5).

(** [heightScoreMap[key] += 1] *)
Definition increment (v : float) : float := F32.add v (F32.of_Z 1).

Definition bumpHeight (acc : option THeightScoreMap) (p : TCountsPosition) : option THeightScoreMap :=
  match acc with
  | Some heightScoreMap =>
      match roundedHeight p with
      | Some h => Some (smap_modify F32.zero increment h heightScoreMap)
      | None => None
      end
  | None => None
  end.

Definition mapHeightsOfContig (acc : option THeightScoreMap) (contig : TCountsContig) :=
  fold_left bumpHeight (smap_values contig) acc.

Definition mapHeightsOfStrand (acc : option THeightScoreMap) (strand : TCountsStrand) :=
  fold_left mapHeightsOfContig (smap_values strand) acc.

Definition mapHeightsToScores (readCounts : TCountsGenome) (heightScoreMap : THeightScoreMap)
    : option THeightScoreMap :=
  fold_left mapHeightsOfStrand [strandPlus readCounts; strandMinus readCounts] (Some heightScoreMap).

(* ================================================================== *)
(** * Overlap Grouper: [countStacksByGroup] *)
(* ================================================================== *)

(** [v[n] = f (v[n])]; an index outside the vector is undefined behaviour *)
Fixpoint updateAt {A} (n : nat) (f : A -> option A) (v : list A) : option (list A) :=
  match v, n with
  | [], _ => None
  | a :: v', O => option_map (fun a' => a' :: v') (f a)
  | a :: v', S n' => option_map (cons a) (updateAt n' f v')
  end.

(** [counts[overlap][bin][i][j][k] = f (counts[overlap][bin][i][j][k])] *)
Definition updateCell (overlap bin i j k : nat) (f : float -> float)
    (counts : TGroupedStackCountsByOverlap) : option TGroupedStackCountsByOverlap :=
  updateAt overlap (updateAt bin (updateAt i (updateAt j (updateAt k (fun x => Some (f x)))))) counts.

Definition cellAt (overlap bin i j k : nat) (counts : TGroupedStackCountsByOverlap) : option float :=
  match nth_error counts overlap with
  | Some a => match nth_error a bin with
    | Some b => match nth_error b i with
      | Some c => match nth_error c j with
        | Some d => nth_error d k
        | None => None end
      | None => None end
    | None => None end
  | None => None
  end.

(** lines 390-404: the array of 21 x 1000 x 2 x 2 x 2 zeros that the resize
    loops build from the empty vector [main] passes *)
Definition emptyBin : TBin := repeat (repeat (repeat F32.zero 2) 2) 2.
Definition emptyCounts (bins : nat) : TGroupedStackCountsByOverlap :=
  repeat (repeat emptyBin bins) (MAX_ARBITRARY_OVERLAP - MIN_ARBITRARY_OVERLAP + 1).

(** [x += c] for a float [x] and a double [c]: the sum is a double and is
    converted back *)
Definition addDouble (c : double) (x : float) : float :=
  float_of_double (F64.add (double_of_float x) c).

(** the four fractions of lines 471-474, as the doubles C++ computes *)
Definition fractionUU : double := Eval cbv in F64.mul URIDINE_PROBABILITY URIDINE_PROBABILITY.
Definition fractionNU : double :=
  Eval cbv in F64.mul (F64.sub (F64.of_Z 1) URIDINE_PROBABILITY) URIDINE_PROBABILITY.
Definition fractionUN : double :=
  Eval cbv in F64.mul URIDINE_PROBABILITY (F64.sub (F64.of_Z 1) URIDINE_PROBABILITY).
Definition fractionNN : double :=
  Eval cbv in F64.mul (F64.sub (F64.of_Z 1) URIDINE_PROBABILITY)
                      (F64.sub (F64.of_Z 1) URIDINE_PROBABILITY).

Definition uridineFraction (i j : nat) : double :=
  match i, j with
  | O, O => fractionUU
  | S _, O => fractionNU
  | O, S _ => fractionUN
  | S _, S _ => fractionNN
  end.

(** lines 471-474 *)
Definition addBackground (overlap bin localBin : nat)
    (counts : TGroupedStackCountsByOverlap) : option TGroupedStackCountsByOverlap :=
  match updateCell overlap bin IS_URIDINE IS_URIDINE localBin (addDouble fractionUU) counts with
  | Some c1 =>
    match updateCell overlap bin IS_NOT_URIDINE IS_URIDINE localBin (addDouble fractionNU) c1 with
    | Some c2 =>
      match updateCell overlap bin IS_URIDINE IS_NOT_URIDINE localBin (addDouble fractionUN) c2 with
      | Some c3 =>
          updateCell overlap bin IS_NOT_URIDINE IS_NOT_URIDINE localBin (addDouble fractionNN) c3
      | None => None end
    | None => None end
  | None => None
  end.

(** lines 461-465 *)
Definition addPingPong (overlap bin : nat) (uPlus uMinus : bool) (localBin : nat)
    (counts : TGroupedStackCountsByOverlap) : option TGroupedStackCountsByOverlap :=
  updateCell overlap bin (if uPlus then IS_URIDINE else IS_NOT_URIDINE)
    (if uMinus then IS_URIDINE else IS_NOT_URIDINE) localBin
    (fun x => F32.add x (F32.of_Z 1)) counts.

(** The state of the scan: the height-score map and the counts.  [None] for
    the counts is an execution that ran into undefined behaviour (the map
    is then the one it had reached). *)
Definition GroupState := (THeightScoreMap * option TGroupedStackCountsByOverlap)%type.

(** lines 420-434: the stacks on the minus strand in the vicinity of [p],
    their sum and their maximum *)
Definition scanVicinity (contigMinus : TCountsContig) (p : N)
    : list (option TCountsPosition) * float * float :=
  fold_left
    (fun '(stacks, mean, maxHeight) overlap =>
       match smap_find (uint32 (Z.of_N p + Z.of_nat overlap)) contigMinus with
       | Some s => (stacks ++ [Some s], F32.add mean (reads s),
                    if F32.ltb maxHeight (reads s) then reads s else maxHeight)
       | None => (stacks ++ [None], mean, maxHeight)
       end)
    (List.seq MIN_ARBITRARY_OVERLAP (MAX_ARBITRARY_OVERLAP - MIN_ARBITRARY_OVERLAP + 1))
    ([], F32.zero, F32.zero).

Definition vicinitySize : float :=
  F32.of_Z (Z.of_nat (MAX_ARBITRARY_OVERLAP - MIN_ARBITRARY_OVERLAP + 1)).

(** line 454 *)
Definition localHeightScore (height meanStackHeightInVicinity maxStackHeightInVicinity : float) : float :=
  F32.div (F32.sub height (F32.sub meanStackHeightInVicinity (F32.div height vicinitySize)))
          maxStackHeightInVicinity.

(** line 456 *)
Definition localHeightScoreBin (score : float) : nat :=
  if F64.ltb (double_of_float score) F64.lit_0_2 then IS_BELOW_COVERAGE else IS_ABOVE_COVERAGE.

Section Grouper.

(** [std::log10] on floats, the C library's function *)
Variable log10f : float -> float.

(** line 407; [begin()] of an empty map may not be dereferenced *)
Definition maxHeightScoreOf (heightScoreMap : THeightScoreMap) : option float :=
  match heightScoreMap with
  | (_, f0) :: _ => Some (log10f (F32.mul f0 f0))
  | [] => None
  end.

(** lines 448-451: the double [0.5 + log10(heightScore) / maxHeightScore *
    (size - 1)] is cast to int and stored in an unsigned int *)
Definition heightScoreBinOf (maxHeightScore heightScore : float) (bins : nat) : option nat :=
  match to_int (F64.add F64.lit_0_5
                  (double_of_float
                     (F32.mul (F32.div (log10f heightScore) maxHeightScore)
                              (F32.of_Z (size_t (Z.of_nat bins - 1)))))) with
  | Some z => Some (N.to_nat (unsigned_of_int z))
  | None => None
  end.

(** lines 442-476, for one overlap *)
Definition countOverlap (maxHeightScore meanHeight maxHeight heightScorePlus : float)
    (plus : TCountsPosition) (st : GroupState)
    (hit : nat * option TCountsPosition) : GroupState :=
  match st, hit with
  | (heightScoreMap, Some counts), (overlap, Some minus) =>
      match to_unsigned_int (reads minus) with
      | Some key =>
          let (heightScoreMap', scoreMinus) := smap_index F32.zero key heightScoreMap in
          let heightScore := F32.mul heightScorePlus scoreMinus in
          match heightScoreBinOf maxHeightScore heightScore
                  (length (nth overlap counts [])) with
          | Some bin =>
              let localBin :=
                localHeightScoreBin (localHeightScore (reads minus) meanHeight maxHeight) in
              (heightScoreMap',
               if (overlap =? PING_PONG_OVERLAP)%nat
               then addPingPong overlap bin (UAt5PrimeEnd plus) (UAt5PrimeEnd minus) localBin counts
               else addBackground overlap bin localBin counts)
          | None => (heightScoreMap', None)
          end
      | None => (heightScoreMap, None)
      end
  | _, _ => st
  end.

(** lines 417-478, for one position of the plus strand *)
Definition countPosition (maxHeightScore : float) (contigMinus : TCountsContig)
    (st : GroupState) (position : N * TCountsPosition) : GroupState :=
  match st with
  | (heightScoreMap, Some counts) =>
      let '(stacks, sumHeight, maxHeight) := scanVicinity contigMinus (fst position) in
      let meanHeight := F32.div sumHeight vicinitySize in
      if F32.ltb F32.zero maxHeight then
        match to_unsigned_int (reads (snd position)) with
        | Some key =>
            let (heightScoreMap', heightScorePlus) := smap_index F32.zero key heightScoreMap in
            fold_left (countOverlap maxHeightScore meanHeight maxHeight heightScorePlus (snd position))
              (combine (List.seq 0 (length stacks)) stacks)
              (heightScoreMap', Some counts)
        | None => (heightScoreMap, None)
        end
      else st
  | _ => st
  end.

(** lines 410-481 *)
Definition countContig (maxHeightScore : float) (readCounts : TCountsGenome)
    (st : GroupState) (contigPlus : N * TCountsContig) : GroupState :=
  match smap_find (fst contigPlus) (strandMinus readCounts) with
  | Some contigMinus => fold_left (countPosition maxHeightScore contigMinus) (snd contigPlus) st
  | None => st
  end.

Definition countStacksByGroup (readCounts : TCountsGenome) (heightScoreMap : THeightScoreMap)
    : GroupState :=
  match maxHeightScoreOf heightScoreMap with
  | Some maxHeightScore =>
      fold_left (countContig maxHeightScore readCounts) (strandPlus readCounts)
        (heightScoreMap, Some (emptyCounts HEIGHT_SCORE_BINS))
  | None => (heightScoreMap, None)
  end.

End Grouper.

(* ================================================================== *)
(** * Bin Collapser: [collapseBins] *)
(* ================================================================== *)

(** [v[n] = a]; writing outside the vector is undefined behaviour in C++,
    the list is left as it is (the properties below are about rectangular
    histograms, where the loops stay inside) *)
Fixpoint setAt {A} (n : nat) (a : A) (v : list A) : list A :=
  match v, n with
  | [], _ => []
  | _ :: v', O => a :: v'
  | x :: v', S n' => x :: setAt n' a v'
  end.

(** lines 495-499: every cell of the bin is set to 0 *)
Definition zeroBin (b : TBin) : TBin := map (map (map (fun _ => F32.zero))) b.

(** lines 509-516, the loop over [k]: the cells of [src] are added to those of
    [acc]; with [check] (the overlap is not the ping-pong overlap) the cells
    that are still [<= 0] after the addition are counted *)
Fixpoint absorbCells (check : bool) (acc src : list float) : list float * nat :=
  match acc, src with
  | a :: acc', s :: src' =>
      let a' := F32.add a s in
      let (r, n) := absorbCells check acc' src' in
      (a' :: r, if check && F32.leb a' (F32.of_Z 0) then S n else n)
  | _, _ => (acc, O)
  end.

(** the loops over [j] and [i] *)
Fixpoint absorbRows (check : bool) (acc src : list (list float)) : list (list float) * nat :=
  match acc, src with
  | a :: acc', s :: src' =>
      let (a', n1) := absorbCells check a s in
      let (r, n2) := absorbRows check acc' src' in
      (a' :: r, (n1 + n2)%nat)
  | _, _ => (acc, O)
  end.

Fixpoint absorbBin (check : bool) (acc src : TBin) : TBin * nat :=
  match acc, src with
  | a :: acc', s :: src' =>
      let (a', n1) := absorbRows check a s in
      let (r, n2) := absorbBin check acc' src' in
      (a' :: r, (n1 + n2)%nat)
  | _, _ => (acc, O)
  end.

(** lines 506-516: [collapsed[overlap][collapsedBin] += counts[overlap][bin]]
    for every overlap from [overlap] on, and the number of empty cells *)
Fixpoint absorbOverlaps (overlap collapsedBin bin : nat)
    (collapsed counts : TGroupedStackCountsByOverlap) : TGroupedStackCountsByOverlap * nat :=
  match collapsed, counts with
  | c :: collapsed', g :: counts' =>
      let (c', n1) :=
        match nth_error c collapsedBin, nth_error g bin with
        | Some acc, Some src =>
            let (acc', n) := absorbBin (negb (overlap =? PING_PONG_OVERLAP)%nat) acc src in
            (setAt collapsedBin acc' c, n)
        | _, _ => (c, O)
        end in
      let (r, n2) := absorbOverlaps (S overlap) collapsedBin bin collapsed' counts' in
      (c' :: r, (n1 + n2)%nat)
  | _, _ => (collapsed, O)
  end.

(** lines 502-520: the do-while loop; [fuel] bounds the number of iterations
    (the number of bins left is enough) *)
Fixpoint absorbWhileEmpty (fuel : nat) (counts : TGroupedStackCountsByOverlap)
    (collapsedBin : nat) (collapsed : TGroupedStackCountsByOverlap) (bin : nat)
    : TGroupedStackCountsByOverlap * nat :=
  let (collapsed', emptyBins) := absorbOverlaps 0 collapsedBin bin collapsed counts in
  let bin' := S bin in
  match fuel with
  | S fuel' =>
      if (0 <? emptyBins)%nat && (bin' <? length (nth 0 counts []))%nat
      then absorbWhileEmpty fuel' counts collapsedBin collapsed' bin'
      else (collapsed', bin')
  | O => (collapsed', bin')
  end.

(** lines 495-499 for every overlap *)
Definition zeroCollapsedBin (collapsedBin : nat) (collapsed : TGroupedStackCountsByOverlap)
    : TGroupedStackCountsByOverlap :=
  map (fun c => match nth_error c collapsedBin with
                | Some b => setAt collapsedBin (zeroBin b) c
                | None => c
                end) collapsed.

(** lines 492-523: the while loop *)
Fixpoint collapseLoop (fuel : nat) (counts : TGroupedStackCountsByOverlap)
    (collapsed : TGroupedStackCountsByOverlap) (collapsedBin bin : nat)
    : TGroupedStackCountsByOverlap * nat :=
  match fuel with
  | S fuel' =>
      if (bin <? length (nth 0 counts []))%nat then
        let (collapsed', bin') :=
          absorbWhileEmpty (length (nth 0 counts []) - bin) counts collapsedBin
            (zeroCollapsedBin collapsedBin collapsed) bin in
        collapseLoop fuel' counts collapsed' (S collapsedBin) bin'
      else (collapsed, collapsedBin)
  | O => (collapsed, collapsedBin)
  end.

(** [resize] to a size that is not larger *)
Definition shrink {A} (n : nat) (v : list A) : list A := firstn n v.

Definition collapseBins (groupedStackCountsByOverlap : TGroupedStackCountsByOverlap)
    : TGroupedStackCountsByOverlap :=
  let (collapsed, collapsedBin) :=
    collapseLoop (length (nth 0 groupedStackCountsByOverlap []))
      groupedStackCountsByOverlap groupedStackCountsByOverlap 0 0 in
  map (shrink collapsedBin) collapsed.

(** The histograms the properties are about: 21 overlaps, [bins] height-score
    bins in each, 2 x 2 x 2 cells per bin, as [countStacksByGroup] builds
    them. *)
Definition binShape (b : TBin) : Prop :=
  length b = 2%nat /\ Forall (fun r => length r = 2%nat /\ Forall (fun c => length c = 2%nat) r) b.

Definition rectangular (bins : nat) (counts : TGroupedStackCountsByOverlap) : Prop :=
  length counts = 21%nat /\
  Forall (fun g => length g = bins /\ Forall binShape g) counts.

Definition cell (counts : TGroupedStackCountsByOverlap) (overlap bin i j k : nat) : float :=
  nth k (nth j (nth i (nth bin (nth overlap counts []) []) []) []) F32.zero.

Definition binCount (counts : TGroupedStackCountsByOverlap) : nat := length (nth 0 counts []).

(* ================================================================== *)
(** * Auxiliary notions used to state the properties *)
(* ================================================================== *)

(** the multiplicity of a record: its NH annotation, 1 when absent *)
Definition multiplicity (record : BamAlignmentRecord) : N :=
  match tagNH record with Some n => n | None => 1%N end.

(** the sum of the lengths of the CIGAR operations M, N, D, = and X *)
Definition alignedSum (cig : list CigarElement) : Z :=
  fold_right (fun c acc => if isAlignedOperation (operation c) then Z.of_N (count c) + acc else acc)
    0 cig.

(** the length of a soft-clip that ends the CIGAR string *)
Definition trailingSoftClip (cig : list CigarElement) : Z :=
  match last (map Some cig) None with
  | Some c => if ascii_eqb (operation c) "S"%char then Z.of_N (count c) else 0
  | None => 0
  end.

(** the last base of the stored sequence that is not in a trailing soft-clip *)
Definition lastUnclippedBase (record : BamAlignmentRecord) : option ascii :=
  seqAt (seq record) (Z.of_nat (length (seq record)) - trailingSoftClip (cigar record) - 1).

(** the record at [pos] of contig [contig] on a strand; the default record
    when there is none *)
Definition positionAt (s : TCountsStrand) (contig pos : N) : TCountsPosition :=
  match smap_find contig s with
  | Some c => match smap_find pos c with Some p => p | None => TCountsPosition0 end
  | None => TCountsPosition0
  end.

Definition emptyGenome : TCountsGenome := mkGenome [] [].

(** a read on the minus strand whose three bases are all soft-clipped *)
Definition clippedRecord : BamAlignmentRecord :=
  mkRecord 16 0 100 [mkCigar "S"%char 3] ["C"; "C"; "A"]%char None.

(** a read on the minus strand, CIGAR 2M1S, stored sequence CAG *)
Definition minusRecord : BamAlignmentRecord :=
  mkRecord 16 0 100 [mkCigar "M"%char 2; mkCigar "S"%char 1] ["C"; "A"; "G"]%char None.

(** a read that maps to three places *)
Definition multiRecord : BamAlignmentRecord :=
  mkRecord 0 0 100 [mkCigar "M"%char 3] ["T"; "A"; "C"]%char (Some 3%N).

(** ** The logarithm of the C library

    [std::log10] is not part of the program.  The properties that depend on
    it are stated for every function that takes floats to floats, has the
    special values that Annex F of the C standard fixes, log10(1) = +0 and
    log10(+-0) = -infinity, and is monotone from 1 on. *)
Record Log10Spec (log10f : float -> float) : Prop := {
  log10_one : log10f F32.one = F32.zero;
  log10_zero : forall s, log10f (S754_zero s) = S754_infinity true;
  log10_valid : forall x, F32.valid x = true -> F32.valid (log10f x) = true;
  log10_monotone : forall x y, F32.valid x = true -> F32.valid y = true ->
                               F32.leb F32.one x = true -> F32.leb x y = true ->
                               F32.leb (log10f x) (log10f y) = true
}.

(** A coarse logarithm with these properties (log10(2) times the binary
    exponent of the argument), to run the model on examples. *)
Definition binaryExponent (x : float) : Z :=
  match x with
  | S754_finite _ m e => Zpos (digits2_pos m) + e - 1
  | _ => 0
  end.

Definition log10f_coarse (x : float) : float :=
  match x with
  | S754_zero _ => S754_infinity true
  | S754_finite false _ _ => F32.div (F32.of_Z (30103 * binaryExponent x)) (F32.of_Z 100000)
  | S754_infinity false => x
  | _ => S754_nan
  end.

(** ** Example inputs *)

Definition plusRead (pos : Z) (nh : option N) : BamAlignmentRecord :=
  mkRecord 0 0 pos [mkCigar "M"%char 3] ["T"; "A"; "C"]%char nh.

(** a read of the minus strand, 3 bases long: its 5' end is at [pos + 3] *)
Definition minusRead (pos : Z) (nh : option N) : BamAlignmentRecord :=
  mkRecord 16 0 pos [mkCigar "M"%char 3] ["G"; "T"; "A"]%char nh.

(** the stages up to the Overlap Grouper, on a file read with the default
    options (lengths 1 to 1000, multi-hits weighted) *)
Definition countsOfFile (bamFile : list BamAlignmentRecord) : TCountsGenome :=
  match countReadsInBamFile (map Some bamFile) emptyGenome 1 1000 multiHitsWeighted with
  | Some (_, readCounts) => readCounts
  | None => emptyGenome
  end.

Definition heightsOfFile (bamFile : list BamAlignmentRecord) : THeightScoreMap :=
  match mapHeightsToScores (countsOfFile bamFile) [] with
  | Some heightScoreMap => heightScoreMap
  | None => []
  end.

Definition groupFile (log10f : float -> float) (bamFile : list BamAlignmentRecord) : GroupState :=
  countStacksByGroup log10f (countsOfFile bamFile) (heightsOfFile bamFile).

(** one read on each strand, 10 nt apart *)
Definition pairFile : list BamAlignmentRecord := [plusRead 100 None; minusRead 107 None].

(** the same two reads, each mapping to two places (NH:i:2) *)
Definition halfFile : list BamAlignmentRecord :=
  [plusRead 100 (Some 2%N); minusRead 107 (Some 2%N)].

(** one read on the plus strand, two reads at the same place of the minus strand *)
Definition unevenFile : list BamAlignmentRecord :=
  [plusRead 100 None; minusRead 107 None; minusRead 107 None].




(** ** The Bin Collapser on slices

    A slice is one height-score bin across all overlaps,
    [counts[0..20][bin]].  On slices the loops of [collapseBins] are a
    recursion over the list of input bins: [collapseSlices]. *)

Fixpoint zipInto {A B} (f : A -> B -> A) (acc : list A) (src : list B) : list A :=
  match acc, src with
  | a :: acc', s :: src' => f a s :: zipInto f acc' src'
  | _, _ => acc
  end.

Definition addCells : list float -> list float -> list float := zipInto F32.add.
Definition addRows : list (list float) -> list (list float) -> list (list float) := zipInto addCells.
Definition addBin : TBin -> TBin -> TBin := zipInto addRows.

Definition isEmptyCell (x : float) : bool := F32.leb x (F32.of_Z 0).
Definition emptyCells (c : list float) : nat := length (filter isEmptyCell c).
Definition emptyRows (r : list (list float)) : nat := list_sum (map emptyCells r).
Definition emptyBinCells (b : TBin) : nat := list_sum (map emptyRows b).

Definition Slice := list TBin.

Definition sliceAt (bin : nat) (counts : TGroupedStackCountsByOverlap) : Slice :=
  map (fun column => nth bin column []) counts.

Definition slicesOf (counts : TGroupedStackCountsByOverlap) : list Slice :=
  map (fun bin => sliceAt bin counts) (List.seq 0 (binCount counts)).

Definition addSlice : Slice -> Slice -> Slice := zipInto addBin.

(** the number of cells [<= 0] of a slice outside the ping-pong overlap; the
    slice starts at overlap [overlap] *)
Fixpoint emptyCountFrom (overlap : nat) (s : Slice) : nat :=
  match s with
  | [] => O
  | b :: s' => ((if (overlap =? PING_PONG_OVERLAP)%nat then O else emptyBinCells b)
                + emptyCountFrom (S overlap) s')%nat
  end.

Definition emptyCount (s : Slice) : nat := emptyCountFrom 0 s.

Definition zeroSlice : Slice := repeat emptyBin 21.

(** [acc] is the output bin being filled, if one was begun *)
Fixpoint collapseSlices (acc : option Slice) (slices : list Slice) : list Slice :=
  match slices with
  | [] => match acc with Some a => [a] | None => [] end
  | s :: rest =>
      let a := addSlice (match acc with Some a => a | None => zeroSlice end) s in
      if (emptyCount a =? 0)%nat then a :: collapseSlices None rest
      else collapseSlices (Some a) rest
  end.

(** the sum of a group of slices, accumulated from a zeroed bin *)
Definition sumSlices (group : list Slice) : Slice := fold_left addSlice group zeroSlice.

(** [counts[0..20][bin] = s] *)
Definition setSlice (bin : nat) (s : Slice) (counts : TGroupedStackCountsByOverlap)
    : TGroupedStackCountsByOverlap :=
  zipInto (fun column b => setAt bin b column) counts s.

Definition allCells (P : float -> Prop) (counts : TGroupedStackCountsByOverlap) : Prop :=
  Forall (Forall (Forall (Forall (Forall P)))) counts.

(** A raw histogram: the shape that [countStacksByGroup] builds, every cell
    +0, positive or +infinity. *)
Definition rawHistogram (bins : nat) (counts : TGroupedStackCountsByOverlap) : Prop :=
  rectangular bins counts /\ allCells (fun x => nonneg x = true) counts.

(** the exact sum of the values of a list of finite floats *)
Definition exactSum (l : list float) : Q := fold_right (fun x acc => (SF2Q x + acc)%Q) 0%Q l.

Definition rowShape (r : list (list float)) : Prop :=
  length r = 2%nat /\ Forall (fun c => length c = 2%nat) r.

(** the slices of [counts] from [bin] on *)
Definition slicesFrom (bin : nat) (counts : TGroupedStackCountsByOverlap) : list Slice :=
  map (fun b => sliceAt b counts) (List.seq bin (binCount counts - bin)).

Definition hasSign (s : bool) (x : spec_float) : Prop :=
  match x with
  | S754_zero s' | S754_finite s' _ _ | S754_infinity s' => s' = s
  | S754_nan => False
  end.

Definition nonnegBin (b : TBin) : Prop :=
  Forall (Forall (Forall (fun x => nonneg x = true))) b.

Definition cleanSlice (s : Slice) : Prop :=
  length s = 21%nat /\ Forall binShape s /\ Forall nonnegBin s.

Definition binCells (b : TBin) : list float := concat (concat b).
Definition binTotal (b : TBin) : Q := exactSum (binCells b).
Definition cellOfSlice (s : Slice) (overlap i j k : nat) : float :=
  nth k (nth j (nth i (nth overlap s []) []) []) F32.zero.

Definition oneBin : TBin := repeat (repeat (repeat F32.one 2) 2) 2.
(** three bins: the first two filled at every overlap, the last one empty *)
Definition fullCounts : TGroupedStackCountsByOverlap := repeat [oneBin; oneBin; emptyBin] 21.
(** two bins, empty but for 2^24 and 1 in the same cell of overlap 0 *)
Definition bigCounts : TGroupedStackCountsByOverlap :=
  [ [ [[F32.of_Z 16777216; F32.zero]; [F32.zero; F32.zero]]; [[F32.zero; F32.zero]; [F32.zero; F32.zero]] ];
    [ [[F32.one; F32.zero]; [F32.zero; F32.zero]]; [[F32.zero; F32.zero]; [F32.zero; F32.zero]] ] ]
  :: repeat [emptyBin; emptyBin] 20.

Definition positiveBackgroundClaim : Prop :=
  forall counts bin overlap,
    rawHistogram HEIGHT_SCORE_BINS counts ->
    (bin < binCount (collapseBins counts))%nat ->
    (overlap < 21)%nat -> overlap <> PING_PONG_OVERLAP ->
    (0 < binTotal (nth bin (nth overlap (collapseBins counts) []) []))%Q.

Definition conservationClaim : Prop :=
  forall n counts overlap i j k,
    rawHistogram n counts ->
    (exactSum (map (fun c => cell (collapseBins counts) overlap c i j k)
                 (List.seq 0 (binCount (collapseBins counts))))
     == exactSum (map (fun b => cell counts overlap b i j k) (List.seq 0 (binCount counts))))%Q.

(** the float of the integer [p < 2^24] *)
Definition intFloat (p : positive) : float :=
  let d := Pos.to_nat (digits2_pos p) in
  S754_finite false (Nat.iter (24 - d) xO p) (Z.of_nat d - 24).

(** every Position record of the genome: both strands, all contigs *)
Definition allPositions (readCounts : TCountsGenome) : list TCountsPosition :=
  concat (map smap_values (smap_values (strandPlus readCounts)))
  ++ concat (map smap_values (smap_values (strandMinus readCounts))).

Definition hasHeight (h : N) (p : TCountsPosition) : bool :=
  match roundedHeight p with Some h' => (h' =? h)%N | None => false end.

(** the number of Position records whose reads round half-up to [h] *)
Definition heightCount (h : N) (readCounts : TCountsGenome) : nat :=
  length (filter (hasHeight h) (allPositions readCounts)).

(** The claim C6 as the specification words it: an entry holds the exact
    number of positions of its height, and there is no entry for a height
    that no position has. *)
Definition exactHeightCountClaim : Prop :=
  forall readCounts heightScoreMap h,
    mapHeightsToScores readCounts [] = Some heightScoreMap ->
    match smap_find h heightScoreMap with
    | Some v => heightCount h readCounts <> O /\
                (SF2Q v == inject_Z (Z.of_nat (heightCount h readCounts)))%Q
    | None => heightCount h readCounts = O
    end.

(** [n] positions of height 1 on one contig of the plus strand *)
Definition manyPositions (n : nat) : TCountsContig :=
  map (fun i => (N.of_nat i, mkPosition F32.one false)) (List.seq 0 n).
Definition manyGenome (n : nat) : TCountsGenome := mkGenome [(0%N, manyPositions n)] [].

(** the position of the remainder [r] of a division by [B] in its interval *)
Definition locationOf (r B : Z) : location :=
  if r =? 0 then loc_Exact else loc_Inexact (2 * r ?= B).

(** [N / D] rounded to the nearest integer, ties to even *)
Definition roundQuotient (N D : Z) : Z := round_nearest_even (N / D) (locationOf (N mod D) D).

(** the exponent of the unit in the last place of [N / D] units *)
Definition scaledExponent (prec emax K N D : Z) : Z :=
  Z.max (Zdigits2 (N / D) - prec) (emin prec emax + K).

(** [N / D] units rounded to the nearest float of the format, in units *)
Definition roundScaled (prec emax K N D : Z) : Z :=
  roundQuotient N (D * 2 ^ scaledExponent prec emax K N D) * 2 ^ scaledExponent prec emax K N D.

(** the value of a float that is not negative, in units of [2^-K] *)
Definition scaledValue (K : Z) (x : spec_float) : Z :=
  match x with
  | S754_finite false m e => Z.pos m * 2 ^ (e + K)
  | _ => 0
  end.

(** a zero or a positive finite value *)
Definition finiteNonneg (x : spec_float) : bool :=
  match x with
  | S754_zero _ | S754_finite false _ _ => true
  | _ => false
  end.

(** [x] is the correctly rounded value of [N / D] (in units of [2^-K]), or
    the rounding overflowed *)
Definition roundsTo (prec emax K : Z) (x : spec_float) (N D : Z) : Prop :=
  x = S754_infinity false \/
  (finiteNonneg x = true /\ valid_binary prec emax x = true /\ scaledValue K x = roundScaled prec emax K N D).

(** the coarse logarithm of a positive finite value with binary exponent [k] *)
Definition coarseOfExponent (k : Z) : float :=
  F32.div (F32.of_Z (30103 * k)) (F32.of_Z 100000).

(** [P] holds of the [n] integers from [lo] on *)
Fixpoint checkFrom (lo : Z) (n : nat) (P : Z -> bool) : bool :=
  match n with
  | O => true
  | S n' => P lo && checkFrom (lo + 1) n' P
  end.

(** C3 as the specification states it: of two hits binned against the same
    [maxHeightScore], the one with the lower product of frequencies gets a
    bin index that is at least the other's. *)
Definition antitoneBinClaim (log10f : float -> float) : Prop :=
  forall maxHeightScore p1 p2 bins b1 b2,
    F32.ltb p1 p2 = true ->
    heightScoreBinOf log10f maxHeightScore p1 bins = Some b1 ->
    heightScoreBinOf log10f maxHeightScore p2 bins = Some b2 ->
    (b2 <= b1)%nat.

(** a height-score map whose lowest stack height occurs twice *)
Definition twoStacks : THeightScoreMap := [(1%N, F32.of_Z 2); (3%N, F32.one)].

(** The claim C5 as the specification words it: the flag of the position is
    raised exactly when the last base outside a trailing soft-clip is an
    adenine. *)
Definition uridineOfMinusReadClaim : Prop :=
  forall minReadLength maxReadLength countMultiHits record readCounts',
    hasFlagRC record = true ->
    passesFilters record minReadLength maxReadLength = true ->
    F32.leb (readWeight countMultiHits record) F32.zero = false ->
    countRead minReadLength maxReadLength countMultiHits record emptyGenome = Some readCounts' ->
    UAt5PrimeEnd (positionAt (strandMinus readCounts') (uint32 (rID record))
                    (uint32 (beginPos record + alignedSum (cigar record))))
    = match lastUnclippedBase record with
      | Some base => isAdenine base
      | None => false
      end.

(** ** Notions used to state further properties *)

(** a record that is counted: it passes the guard of line 260 and its weight
    is not [<= 0] *)
Definition isCounted (minReadLength maxReadLength : N) (countMultiHits : TCountMultiHits)
    (record : BamAlignmentRecord) : bool :=
  passesFilters record minReadLength maxReadLength
  && negb (F32.leb (readWeight countMultiHits record) (F32.of_Z 0)).

(** a read on the plus strand, CIGAR 1S2M, stored sequence GTA *)
Definition plusRecord : BamAlignmentRecord :=
  mkRecord 0 0 100 [mkCigar "S"%char 1; mkCigar "M"%char 2] ["G"; "T"; "A"]%char None.

(** a stack height as the Stack Accumulator leaves it: positive and finite,
    or +infinity *)
Definition positiveHeight (x : float) : bool :=
  match x with
  | S754_finite false _ _ | S754_infinity false => true
  | _ => false
  end.

Definition stackHeightsPositive (readCounts : TCountsGenome) : Prop :=
  Forall (fun p => positiveHeight (reads p) = true /\ F32.valid (reads p) = true)
         (allPositions readCounts).

(** the map [after] has the entries of [before], and beside them only
    entries of value 0 *)
Definition gainsZeroKeys (before after : THeightScoreMap) : Prop :=
  forall k, smap_find k after = smap_find k before \/
            (smap_find k before = None /\ smap_find k after = Some F32.zero).

(** no stack of the minus strand lies 0 to 20 nt downstream of a stack of the
    plus strand *)
Definition noStackInVicinity (readCounts : TCountsGenome) : Prop :=
  forall contig contigPlus contigMinus p position overlap,
    In (contig, contigPlus) (strandPlus readCounts) ->
    smap_find contig (strandMinus readCounts) = Some contigMinus ->
    In (p, position) contigPlus ->
    (overlap <= MAX_ARBITRARY_OVERLAP)%nat ->
    smap_find (uint32 (Z.of_N p + Z.of_nat overlap)) contigMinus = None.

(** reads of the plus strand only *)
Definition plusOnlyFile : list BamAlignmentRecord := [plusRead 100 None; plusRead 105 None].

(** an unmapped read *)
Definition unmappedRecord : BamAlignmentRecord :=
  mkRecord 4 (-1) (-1) [] ["T"; "A"; "C"]%char None.

(** the bin [bin] has no cell [<= 0] at a background overlap *)
Definition backgroundFilled (counts : TGroupedStackCountsByOverlap) (bin : nat) : Prop :=
  forall overlap i j k,
    (overlap < 21)%nat -> overlap <> PING_PONG_OVERLAP ->
    (i < 2)%nat -> (j < 2)%nat -> (k < 2)%nat ->
    F32.leb (cell counts overlap bin i j k) F32.zero = false.

(** two lists of the same length that agree at every index but the
    ping-pong overlap; the lists start at index [o] *)
Fixpoint agreeOutsideSignal {A} (o : nat) (a b : list A) : Prop :=
  match a, b with
  | [], [] => True
  | x :: a', y :: b' => (o <> PING_PONG_OVERLAP -> x = y) /\ agreeOutsideSignal (S o) a' b'
  | _, _ => False
  end.

(** the histogram [fullCounts] with other counts at the ping-pong overlap *)
Definition fullCountsOtherSignal : TGroupedStackCountsByOverlap :=
  repeat [oneBin; oneBin; emptyBin] 10 ++ [[emptyBin; oneBin; oneBin]]
  ++ repeat [oneBin; oneBin; emptyBin] 10.

(** two bins whose cell [3][.][0][0][0] is 0, every other cell 1 *)
Definition holeBin : TBin := [[[F32.zero; F32.one]; [F32.one; F32.one]];
                              [[F32.one; F32.one]; [F32.one; F32.one]]].
Definition holeCounts : TGroupedStackCountsByOverlap :=
  repeat [oneBin; oneBin] 3 ++ [[holeBin; holeBin]] ++ repeat [oneBin; oneBin] 17.

(* ================================================================== *)
(** * Plots: the sums of [plotHistograms] *)
(* ================================================================== *)

(** [plotHistograms] sums the cells of the histogram along one of its four
    dimensions (lines 606-644), writes the sums into an R script and runs it.
    The sums are modelled here; the text of the script is not. *)

(** [v[0]]; undefined for an empty vector *)
Definition front {A} (v : option (list A)) : option A :=
  match v with Some (x :: _) => Some x | _ => None end.

(** lines 606-621 *)
Definition histogramBars (groupedStackCountsByOverlap : TGroupedStackCountsByOverlap)
    (dimension : nat) : option nat :=
  match dimension with
  | 0%nat => option_map (@length _) (front (Some groupedStackCountsByOverlap))
  | 1%nat => option_map (@length _) (front (front (Some groupedStackCountsByOverlap)))
  | 2%nat => option_map (@length _) (front (front (front (Some groupedStackCountsByOverlap))))
  | 3%nat => option_map (@length _)
               (front (front (front (front (Some groupedStackCountsByOverlap)))))
  | _ => Some 0%nat
  end.

(** the switch of lines 630-644: the bar that the cell [i][j][k][l] of an
    overlap goes to; none for a dimension above 3 *)
Definition barOf (dimension i j k l : nat) : option nat :=
  match dimension with
  | 0%nat => Some i
  | 1%nat => Some j
  | 2%nat => Some k
  | 3%nat => Some l
  | _ => None
  end.

(** [histograms[overlap][bar] += x] *)
Definition addToBar (dimension overlap i j k l : nat) (x : float)
    (histograms : list (list float)) : option (list (list float)) :=
  match barOf dimension i j k l with
  | Some bar => updateAt overlap (updateAt bar (fun y => Some (F32.add y x))) histograms
  | None => Some histograms
  end.

(** [for (i = from; i < from + v.size(); i++) body(i, v[i])] on a state [s] *)
Fixpoint forEach {A St} (body : nat -> A -> St -> option St) (from : nat) (v : list A) (s : St)
    : option St :=
  match v with
  | [] => Some s
  | a :: v' =>
      match body from a s with
      | Some s' => forEach body (S from) v' s'
      | None => None
      end
  end.

(** lines 625-644 *)
Definition sumBars (dimension : nat) (groupedStackCountsByOverlap : TGroupedStackCountsByOverlap)
    (histograms : list (list float)) : option (list (list float)) :=
  forEach (fun overlap a =>
    forEach (fun i b =>
      forEach (fun j c =>
        forEach (fun k d =>
          forEach (fun l x => addToBar dimension overlap i j k l x) 0 d) 0 c) 0 b) 0 a)
    0 groupedStackCountsByOverlap histograms.

(** lines 606-644: the bars that [plotHistograms] plots *)
Definition histograms (groupedStackCountsByOverlap : TGroupedStackCountsByOverlap)
    (dimension : nat) : option (list (list float)) :=
  match histogramBars groupedStackCountsByOverlap dimension with
  | Some bars =>
      sumBars dimension groupedStackCountsByOverlap
        (repeat (repeat F32.zero bars) (length groupedStackCountsByOverlap))
  | None => None
  end.

(** ** Notions used to state the properties of the plots *)

(** the elements of a vector with their indices, counted from [from] *)
Definition indexed {A} (from : nat) (v : list A) : list (nat * A) :=
  combine (List.seq from (length v)) v.

(** the cells of one overlap in the order of their indices [i][j][k][l], each
    with the bar it belongs to *)
Definition cellsWithBars (dimension : nat) (a : TGroupedStackCounts) : list (nat * float) :=
  flat_map (fun ib =>
    flat_map (fun jc =>
      flat_map (fun kd =>
        flat_map (fun lx =>
          match barOf dimension (fst ib) (fst jc) (fst kd) (fst lx) with
          | Some bar => [(bar, snd lx)]
          | None => []
          end) (indexed 0 (snd kd))) (indexed 0 (snd jc))) (indexed 0 (snd ib))) (indexed 0 a).

Definition valuesAt (bar : nat) (cells : list (nat * float)) : list float :=
  map snd (filter (fun e => (fst e =? bar)%nat) cells).

(** the sum of the cells of a bar, added up one after the other from 0 *)
Definition barSum (dimension : nat) (a : TGroupedStackCounts) (bar : nat) : float :=
  fold_left F32.add (valuesAt bar (cellsWithBars dimension a)) F32.zero.

(** the number of bars along a dimension of a histogram of [bins] bins *)
Definition barsAlong (dimension bins : nat) : nat :=
  match dimension with
  | 0%nat => bins
  | 1%nat | 2%nat | 3%nat => 2%nat
  | _ => 0%nat
  end.

Fixpoint foldOpt {E St} (f : St -> E -> option St) (l : list E) (s : St) : option St :=
  match l with
  | [] => Some s
  | e :: l' => match f s e with Some s' => foldOpt f l' s' | None => None end
  end.

Definition rowStep (h : list float) (e : nat * float) : option (list float) :=
  updateAt (fst e) (fun y => Some (F32.add y (snd e))) h.

(* ================================================================== *)
(** * The command line, the stopwatch and [main] *)
(* ================================================================== *)

(** [CharString] and [std::string] *)
Definition CharString := String.string.

Definition PATH_SEPARATOR : ascii := "/"%char.

(** [ArgumentParser::ParseResult] of SeqAn *)
Inductive ParseResult :=
  PARSE_OK | PARSE_ERROR | PARSE_HELP | PARSE_VERSION | PARSE_WRITE_CTD | PARSE_EXPORT_HELP.

Record AppOptions := mkOptions {
  bedGraph : bool;
  inputFiles : list CharString;
  minReadLength : N;
  maxReadLength : N;
  minStackHeight : N;
  countMultiHits : TCountMultiHits;
  output : CharString;
  plot : bool;
  verbosity : N
}.

(** What SeqAn's parser answers once [parse] has accepted the command line
    (line 154): [isSet] for the flags, and the values that [getOptionValue]
    stores for the options; [parsedInput] holds the
    [getOptionValueCount(parser, "input")] values of the option [input]. *)
Record ArgumentParser := mkParser {
  isSetBedgraph : bool;
  parsedInput : list CharString;
  parsedMultihits : CharString;
  parsedMinStackHeight : N;
  parsedMinReadLength : N;
  parsedMaxReadLength : N;
  parsedOutput : CharString;
  isSetPlot : bool;
  isSetVerbose : bool
}.

(** [s[length(s) - 1] != c] *)
Definition lastDiffersFrom (c : ascii) (s : CharString) : bool :=
  match String.get (String.length s - 1) s with
  | Some x => negb (Ascii.eqb x c)
  | None => true
  end.

(** lines 154-209; [parserResult] is the result of [parse], [options] the
    structure that [main] passes *)
Definition parseCommandLine (parserResult : ParseResult) (parser : ArgumentParser)
    (options : AppOptions) : ParseResult * AppOptions :=
  match parserResult with
  | PARSE_OK =>
      let files :=
        match parsedInput parser with
        | [] => ["/dev/stdin"%string]
        | values =>
            map (fun value => if String.eqb value "-"%string then "/dev/stdin"%string else value)
                values
        end in
      let multiHits :=
        if String.eqb (parsedMultihits parser) "unique"%string then multiHitsUnique
        else if String.eqb (parsedMultihits parser) "discard"%string then multiHitsDiscard
        else multiHitsWeighted in
      if (parsedMaxReadLength parser <? parsedMinReadLength parser)%N
      then (PARSE_ERROR,
            mkOptions (isSetBedgraph parser) files
              (parsedMinReadLength parser) (parsedMaxReadLength parser)
              (parsedMinStackHeight parser) multiHits
              (output options) (plot options) (verbosity options))
      else
        let directory :=
          if (0 <? String.length (parsedOutput parser))%nat
             && lastDiffersFrom PATH_SEPARATOR (parsedOutput parser)
          then String.append (parsedOutput parser) (String.String PATH_SEPARATOR String.EmptyString)
          else parsedOutput parser in
        (parserResult,
         mkOptions (isSetBedgraph parser) files
           (parsedMinReadLength parser) (parsedMaxReadLength parser)
           (parsedMinStackHeight parser) multiHits
           directory (isSetPlot parser) (if isSetVerbose parser then 3%N else 0%N))
  | _ => (parserResult, options)
  end.

(** what [stopwatch] writes to [cerr] *)
Inductive StopwatchMessage :=
| noMessage
| messageDone (elapsedSeconds : N)
| messageOperation (operation : CharString).

(** lines 213-235.  [now] is the value of [time(NULL)], [start] the static
    variable; the result is the return value, the message and the new value
    of the static variable. *)
Definition stopwatch (operation : CharString) (verbosity : N) (now start : Z)
    : N * StopwatchMessage * Z :=
  let elapsedSeconds := if negb (start =? 0) then uint32 (now - start) else 0%N in
  let start' := if negb (start =? 0) then 0 else now in
  (elapsedSeconds,
   if (3 <=? verbosity)%N
   then if (0 <? elapsedSeconds)%N then messageDone elapsedSeconds
        else messageOperation operation
   else noMessage,
   start').

(** lines 236-239 *)
Definition stopwatch_stop (verbosity : N) (now start : Z) : N * StopwatchMessage * Z :=
  stopwatch ""%string verbosity now start.

Definition TNameStore := list CharString.

(** the loop of lines 780-786 *)
Fixpoint compareNameStores (bamNameStore tempBamNameStore : TNameStore) (nameStoresDiffer : bool)
    : bool :=
  match bamNameStore, tempBamNameStore with
  | name :: rest, tempName :: tempRest =>
      if nameStoresDiffer then nameStoresDiffer
      else compareNameStores rest tempRest (negb (String.eqb name tempName))
  | _, _ => nameStoresDiffer
  end.

(** lines 769-792: the name store after a file whose @SQ lines are
    [fileNameStore]; [None] is the [return 1] of line 790 *)
Definition rememberNameStore (bamNameStore fileNameStore : TNameStore) : option TNameStore :=
  if (length bamNameStore =? 0)%nat then Some fileNameStore
  else if compareNameStores bamNameStore fileNameStore false
          || negb (length bamNameStore =? length fileNameStore)%nat
       then None
       else Some bamNameStore.

(** an opened file: whether it could be opened, its @SQ lines and its records *)
Record BamStream := mkBamStream {
  isGood : bool;
  nameStore : TNameStore;
  records : list (option BamAlignmentRecord)
}.

(** The loop of lines 752-798 over the opened files.  The outer [None] is a
    behaviour C++ leaves undefined, the inner [None] a [return 1]. *)
Fixpoint readInputFiles (bamFiles : list BamStream) (options : AppOptions)
    (readCounts : TCountsGenome) (bamNameStore : TNameStore)
    : option (option (TCountsGenome * TNameStore)) :=
  match bamFiles with
  | [] => Some (Some (readCounts, bamNameStore))
  | bamFile :: rest =>
      if negb (isGood bamFile) then Some None
      else
        match countReadsInBamFile (records bamFile) readCounts
                (minReadLength options) (maxReadLength options) (countMultiHits options) with
        | None => None
        | Some (code, readCounts') =>
            if negb (code =? 0) then Some None
            else
              match rememberNameStore bamNameStore (nameStore bamFile) with
              | None => Some None
              | Some bamNameStore' => readInputFiles rest options readCounts' bamNameStore'
              end
        end
  end.

(** the four plots of lines 825-834 *)
Definition plots (counts : TGroupedStackCountsByOverlap) : option (list (list (list float))) :=
  match histograms counts 0, histograms counts 1, histograms counts 2, histograms counts 3 with
  | Some p0, Some p1, Some p2, Some p3 => Some [p0; p1; p2; p3]
  | _, _, _, _ => None
  end.

(** [main]: the exit code, the collapsed histogram and the bars of the plots.
    [openFile] and [chdir] are the file system; the messages on [cerr] and the
    calls of [stopwatch], which have no effect on the result, are left out.
    [None] is a behaviour C++ leaves undefined. *)
Definition main (log10f : float -> float) (parserResult : ParseResult) (parser : ArgumentParser)
    (options0 : AppOptions) (openFile : CharString -> BamStream) (chdir : CharString -> Z)
    : option (Z * option (TGroupedStackCountsByOverlap * list (list (list float)))) :=
  let (result, options) := parseCommandLine parserResult parser options0 in
  match result with
  | PARSE_OK =>
      match readInputFiles (map openFile (inputFiles options)) options emptyGenome [] with
      | None => None
      | Some None => Some (1, None)
      | Some (Some (readCounts, _)) =>
          if (0 <? String.length (output options))%nat && negb (chdir (output options) =? 0)
          then Some (1, None)
          else
            match mapHeightsToScores readCounts [] with
            | None => None
            | Some heightScoreMap =>
                match snd (countStacksByGroup log10f readCounts heightScoreMap) with
                | None => None
                | Some groupedStackCountsByOverlap =>
                    let collapsed := collapseBins groupedStackCountsByOverlap in
                    if plot options
                    then match plots collapsed with
                         | Some bars => Some (0, Some (collapsed, bars))
                         | None => None
                         end
                    else Some (0, Some (collapsed, []))
                end
            end
      end
  | _ => Some (1, None)
  end.

(** ** Example command lines and files *)

(** the command line [-i - -i reads.sam -o out -v] as SeqAn's parser answers it *)
Definition exampleParser : ArgumentParser :=
  mkParser false ["-"%string; "reads.sam"%string] "weighted"%string 1 1 1000 "out"%string
           false true.

Definition defaultOptions : AppOptions :=
  mkOptions false [] 0 0 0 multiHitsWeighted ""%string false 0.

(** a file system with one file: the records of [pairFile] under the name
    [reads.sam], with one @SQ line *)
Definition exampleFiles (name : CharString) : BamStream :=
  mkBamStream true ["chr1"%string] (map Some pairFile).

(** the command line [-i reads.sam] *)
Definition pairParser : ArgumentParser :=
  mkParser false ["reads.sam"%string] "weighted"%string 1 1 1000 ""%string false false.

(** two files with the same @SQ line: one read of the plus strand, one of
    the minus strand *)
Definition twoStreams : list BamStream :=
  [mkBamStream true ["chr1"%string] [Some (plusRead 100 None)];
   mkBamStream true ["chr1"%string] [Some (minusRead 107 None)]].

(** ** The background increments on a used histogram *)








(* ================================================================== *)
(** * Properties *)
(* ================================================================== *)

(** ** The ordered map *)

Lemma smap_find_modify_same {V} (d : V) f k m :
  smap_find k (smap_modify d f k m) =
  Some (f (match smap_find k m with Some v => v | None => d end)).
Proof.
  induction m as [|[k' v] m IH]; simpl.
  - now rewrite N.compare_refl.
  - destruct (N.compare k k') eqn:E; simpl.
    + now rewrite N.compare_refl.
    + now rewrite N.compare_refl.
    + now rewrite E.
Qed.

Lemma smap_find_modify_other {V} (d : V) f k k' m :
  k <> k' -> smap_find k (smap_modify d f k' m) = smap_find k m.
Proof.
  intros Hk. induction m as [|[k'' v] m IH]; simpl.
  - destruct (N.compare k k') eqn:E; auto.
    apply N.compare_eq in E. contradiction.
  - destruct (N.compare k' k'') eqn:E'; simpl.
    + apply N.compare_eq in E'. subst k''.
      destruct (N.compare k k') eqn:E; auto.
      apply N.compare_eq in E. contradiction.
    + destruct (N.compare k k') eqn:E; auto.
      * apply N.compare_eq in E. contradiction.
      * rewrite N.compare_lt_iff in E, E'.
        assert (H : (k < k'')%N) by lia.
        rewrite <- N.compare_lt_iff in H. now rewrite H.
    + destruct (N.compare k k''); auto.
Qed.

Lemma smap_modify_id_present {V} (d : V) k m v :
  smap_find k m = Some v -> smap_modify d (fun x => x) k m = m.
Proof.
  induction m as [|[k' v'] m IH]; simpl; [discriminate|].
  destruct (N.compare k k') eqn:E; intros H.
  - apply N.compare_eq in E. now subst.
  - discriminate.
  - now rewrite IH.
Qed.

(** ** Stack Accumulator *)

Lemma positionAt_bumpStrand_same w u contig pos s :
  positionAt (bumpStrand w u contig pos s) contig pos = bumpPosition w u (positionAt s contig pos).
Proof.
  unfold positionAt, bumpStrand.
  rewrite smap_find_modify_same.
  destruct (smap_find contig s) as [c|]; rewrite smap_find_modify_same; simpl.
  - now destruct (smap_find pos c).
  - reflexivity.
Qed.

Lemma positionAt_bumpStrand_other w u contig pos contig' pos' s :
  (contig', pos') <> (contig, pos) ->
  positionAt (bumpStrand w u contig pos s) contig' pos' = positionAt s contig' pos'.
Proof.
  intros Hne. unfold positionAt, bumpStrand.
  destruct (N.eq_dec contig' contig) as [->|Hc].
  - rewrite smap_find_modify_same.
    assert (Hp : pos' <> pos) by congruence.
    destruct (smap_find contig s) as [c|]; rewrite smap_find_modify_other by assumption.
    + reflexivity.
    + reflexivity.
  - now rewrite smap_find_modify_other.
Qed.

Lemma alignmentLength_fold cig acc :
  0 <= acc < 2 ^ 64 ->
  fold_left (fun len c => if isAlignedOperation (operation c)
                          then size_t (len + Z.of_N (count c)) else len) cig acc
  = (acc + alignedSum cig) mod 2 ^ 64.
Proof.
  revert acc. induction cig as [|c cig IH]; intros acc Hacc; simpl.
  - rewrite Z.add_0_r. symmetry. now apply Z.mod_small.
  - destruct (isAlignedOperation (operation c)).
    + rewrite IH by (unfold size_t; apply Z.mod_pos_bound; lia).
      unfold size_t. rewrite Zplus_mod_idemp_l. f_equal. lia.
    + now apply IH.
Qed.

Lemma alignmentLength_alignedSum cig :
  alignmentLength cig = alignedSum cig mod 2 ^ 64.
Proof. unfold alignmentLength. rewrite alignmentLength_fold; [reflexivity | lia]. Qed.

Lemma minus_key_wraps b cig :
  uint32 (size_t b + alignmentLength cig) = uint32 (b + alignedSum cig).
Proof.
  unfold uint32, size_t. rewrite alignmentLength_alignedSum. f_equal.
  assert (Hd : (2 ^ 32 | 2 ^ 64)) by (exists (2 ^ 32); reflexivity).
  rewrite <- (Z.mod_mod_divide (_ + _) (2 ^ 64) (2 ^ 32) Hd).
  rewrite <- Zplus_mod.
  now apply Z.mod_mod_divide.
Qed.

Lemma readWeight_nonpositive_skips minReadLength maxReadLength countMultiHits record readCounts :
  F32.leb (readWeight countMultiHits record) F32.zero = true ->
  countRead minReadLength maxReadLength countMultiHits record readCounts = Some readCounts.
Proof.
  intros Hw. unfold countRead.
  destruct (passesFilters record minReadLength maxReadLength); [|reflexivity].
  change (F32.of_Z 0) with F32.zero. now rewrite Hw.
Qed.

(** C7. The weight of a record is 1 under the unique policy, 1/multiplicity
    (the double quotient, narrowed to float) under the weighted policy, with
    multiplicity 1 when NH is absent, and under the discard policy 1 for
    multiplicity 1 and 0 otherwise.  A record whose weight is <= 0 leaves the
    counts exactly as they were, and so does a whole file of such records. *)
Theorem readWeight_by_policy minReadLength maxReadLength countMultiHits :
  (forall record,
     readWeight multiHitsUnique record = F32.one /\
     readWeight multiHitsWeighted record
       = float_of_double (F64.div F64.one (F64.of_N (multiplicity record))) /\
     readWeight multiHitsDiscard record
       = if (multiplicity record =? 1)%N then F32.one else F32.zero) /\
  (forall record readCounts,
     F32.leb (readWeight countMultiHits record) F32.zero = true ->
     countRead minReadLength maxReadLength countMultiHits record readCounts = Some readCounts) /\
  (forall records readCounts,
     Forall (fun record => F32.leb (readWeight countMultiHits record) F32.zero = true) records ->
     countReadsInBamFile (map Some records) readCounts minReadLength maxReadLength countMultiHits
     = Some (0, readCounts)).
Proof.
  split; [|split].
  - intros record. repeat split.
  - intros. now apply readWeight_nonpositive_skips.
  - intros records readCounts H. induction H as [|record records Hw _ IH]; simpl.
    + reflexivity.
    + now rewrite readWeight_nonpositive_skips.
Qed.

Lemma readWeight_by_policy_witness :
  F32.leb (readWeight multiHitsDiscard multiRecord) F32.zero = true /\
  passesFilters multiRecord 1 1000 = true /\
  countRead 1 1000 multiHitsDiscard multiRecord emptyGenome = Some emptyGenome.
Proof.
  split; [reflexivity|]. split; [reflexivity|].
  apply (proj1 (proj2 (readWeight_by_policy 1 1000 multiHitsDiscard))).
  reflexivity.
Defined.

(** C5, counterexample.  A read on the minus strand with CIGAR 3S and stored
    sequence CCA has no base outside the soft-clip, yet line 311 skips a soft
    clip only when the CIGAR has more than one operation, so the final A is
    tested and the flag is raised. *)
Lemma uridineOfMinusRead_counterexample : ~ uridineOfMinusReadClaim.
Proof.
  intros H.
  specialize (H 1%N 1000%N multiHitsWeighted clippedRecord _ eq_refl eq_refl eq_refl eq_refl).
  vm_compute in H. discriminate.
Qed.

Lemma clipped_lt_length_seqAt s clipped :
  0 <= clipped < Z.of_nat (length s) -> Z.of_nat (length s) < 2 ^ 64 ->
  exists base,
    nth_error s (length s - 1 - Z.to_nat clipped) = Some base /\
    seqAt s (size_t (Z.of_nat (length s) - clipped - 1)) = Some base.
Proof.
  intros Hc Hl.
  assert (Hi : (length s - 1 - Z.to_nat clipped < length s)%nat) by lia.
  apply nth_error_Some in Hi.
  destruct (nth_error s (length s - 1 - Z.to_nat clipped)) as [base|] eqn:E; [|contradiction].
  exists base. split; [reflexivity|].
  unfold seqAt, size_t. rewrite Z.mod_small by lia.
  replace (Z.to_nat (Z.of_nat (length s) - clipped - 1))
    with (length s - 1 - Z.to_nat clipped)%nat by lia.
  rewrite E.
  destruct (0 <=? _) eqn:E1; destruct (_ <? _) eqn:E2; simpl; try reflexivity; lia.
Qed.

Lemma clippedBasesAt5PrimeEndMinus_nonneg cig : 0 <= clippedBasesAt5PrimeEndMinus cig.
Proof.
  unfold clippedBasesAt5PrimeEndMinus.
  destruct (last (map Some cig) None); [|lia].
  destruct (_ && _); lia.
Qed.

(** C5, amended.  For a record of the minus strand that passes the filters
    with a positive weight, the key of the position is the alignment start plus
    the lengths of the M, N, D, = and X operations (as an unsigned 32-bit
    number), and the flag is raised exactly when the base before the trailing
    soft-clip is A or a, where a soft-clip is skipped only if the CIGAR has
    more than one operation.  The weight is added to the reads of that
    position and nothing else changes. *)
Theorem minus_strand_position_and_uridine minReadLength maxReadLength countMultiHits record readCounts :
  hasFlagRC record = true ->
  passesFilters record minReadLength maxReadLength = true ->
  (maxReadLength < 2 ^ 32)%N ->
  F32.leb (readWeight countMultiHits record) F32.zero = false ->
  clippedBasesAt5PrimeEndMinus (cigar record) < Z.of_nat (length (seq record)) ->
  let contig := uint32 (rID record) in
  let key := uint32 (beginPos record + alignedSum (cigar record)) in
  let clipped := clippedBasesAt5PrimeEndMinus (cigar record) in
  let old := positionAt (strandMinus readCounts) contig key in
  clipped = (if (1 <? length (cigar record))%nat then trailingSoftClip (cigar record) else 0) /\
  (0 <= beginPos record + alignedSum (cigar record) < 2 ^ 32 ->
   Z.of_N key = beginPos record + alignedSum (cigar record)) /\
  exists base readCounts',
    nth_error (seq record) (length (seq record) - 1 - Z.to_nat clipped) = Some base /\
    countRead minReadLength maxReadLength countMultiHits record readCounts = Some readCounts' /\
    strandPlus readCounts' = strandPlus readCounts /\
    positionAt (strandMinus readCounts') contig key
      = mkPosition (F32.add (reads old) (readWeight countMultiHits record))
                   (isAdenine base || UAt5PrimeEnd old) /\
    forall contig' pos', (contig', pos') <> (contig, key) ->
      positionAt (strandMinus readCounts') contig' pos'
      = positionAt (strandMinus readCounts) contig' pos'.
Proof.
  intros Hrc Hpass Hmax Hw Hclip contig key clipped old.
  split; [|split].
  - unfold clipped, clippedBasesAt5PrimeEndMinus, trailingSoftClip.
    destruct (last (map Some (cigar record)) None); [|now destruct (_ <? _)%nat].
    now destruct (1 <? length (cigar record))%nat.
  - intros Hrange. unfold key, uint32. rewrite Z.mod_small by lia. lia.
  - assert (Hlen : Z.of_nat (length (seq record)) < 2 ^ 64).
    { unfold passesFilters in Hpass.
      apply andb_prop in Hpass. destruct Hpass as [_ Hle].
      apply N.leb_le in Hle. lia. }
    destruct (clipped_lt_length_seqAt (seq record) clipped) as (base & Hnth & Hseq); auto.
    { split; [apply clippedBasesAt5PrimeEndMinus_nonneg | exact Hclip]. }
    exists base. eexists. split; [exact Hnth|].
    unfold countRead. rewrite Hpass. change (F32.of_Z 0) with F32.zero.
    rewrite Hw, Hrc. fold clipped. rewrite Hseq. rewrite minus_key_wraps. fold key contig.
    split; [reflexivity|]. simpl. split; [reflexivity|]. split.
    + rewrite positionAt_bumpStrand_same. unfold bumpPosition. fold old.
      now destruct (isAdenine base).
    + intros contig' pos' Hne. now apply positionAt_bumpStrand_other.
Qed.

Lemma minus_strand_position_and_uridine_witness :
  exists readCounts',
    countRead 1 1000 multiHitsWeighted minusRecord emptyGenome = Some readCounts' /\
    positionAt (strandMinus readCounts') 0 102 = mkPosition F32.one true.
Proof.
  destruct (minus_strand_position_and_uridine 1 1000 multiHitsWeighted minusRecord emptyGenome)
    as (_ & _ & base & readCounts' & Hbase & Hrun & _ & Hpos & _);
    [reflexivity | reflexivity | reflexivity | reflexivity | reflexivity |].
  exists readCounts'. split; [exact Hrun|].
  injection Hbase as <-. exact Hpos.
Defined.

(** ** Overlap Grouper: updates of the histogram *)

Lemma updateAt_Some {A} n (f : A -> option A) v v' :
  updateAt n f v = Some v' ->
  exists a a', nth_error v n = Some a /\ f a = Some a' /\ nth_error v' n = Some a' /\
               forall m, m <> n -> nth_error v' m = nth_error v m.
Proof.
  revert n v'. induction v as [|x v IH]; intros n v'; simpl.
  - destruct n; discriminate.
  - destruct n as [|n]; simpl.
    + destruct (f x) as [a'|] eqn:E; simpl; [|discriminate].
      intros [= <-]. exists x, a'. repeat split; auto.
      intros [|m] Hm; [contradiction|reflexivity].
    + destruct (updateAt n f v) as [w|] eqn:E; simpl; [|discriminate].
      intros [= <-]. destruct (IH _ _ E) as (a & a' & H1 & H2 & H3 & H4).
      exists a, a'. repeat split; auto.
      intros [|m] Hm; simpl; [reflexivity|]. apply H4. congruence.
Qed.



Lemma uridineFractions_exact :
  (SF2Q (uridineFraction 0 0) == 1 # 16)%Q /\
  (SF2Q (uridineFraction 1 0) == 3 # 16)%Q /\
  (SF2Q (uridineFraction 0 1) == 3 # 16)%Q /\
  (SF2Q (uridineFraction 1 1) == 9 # 16)%Q /\
  F64.add (F64.add (F64.add (uridineFraction 0 0) (uridineFraction 1 0))
                   (uridineFraction 0 1)) (uridineFraction 1 1) = F64.one.
Proof. repeat split. Qed.

(** ** Bin Collapser: lists *)

Lemma length_zipInto {A B} (f : A -> B -> A) acc src :
  length (zipInto f acc src) = length acc.
Proof.
  revert src. induction acc as [|a acc IH]; intros [|s src]; simpl; auto.
Qed.

Lemma nth_zipInto {A B} (f : A -> B -> A) acc src n da db :
  (n < length acc)%nat -> (n < length src)%nat ->
  nth n (zipInto f acc src) da = f (nth n acc da) (nth n src db).
Proof.
  revert src n. induction acc as [|a acc IH]; intros [|s src] [|n] Ha Hs; simpl in *;
    try lia; auto.
  apply IH; lia.
Qed.

Lemma Forall_zipInto {A B} (P : A -> Prop) (Q : B -> Prop) (f : A -> B -> A) acc src :
  (forall a b, P a -> Q b -> P (f a b)) ->
  Forall P acc -> Forall Q src -> Forall P (zipInto f acc src).
Proof.
  intros Hf Ha. revert src. induction Ha as [|a acc Pa Ha IH]; intros src Hs; simpl.
  - constructor.
  - destruct Hs as [|s src Qs Hs]; constructor; auto.
Qed.

Lemma length_setAt {A} n (a : A) v : length (setAt n a v) = length v.
Proof.
  revert n. induction v as [|x v IH]; intros [|n]; simpl; auto.
Qed.

Lemma nth_setAt_same {A} n (a : A) v d :
  (n < length v)%nat -> nth n (setAt n a v) d = a.
Proof.
  revert n. induction v as [|x v IH]; intros [|n] H; simpl in *; try lia; auto.
  apply IH. lia.
Qed.

Lemma nth_setAt_other {A} n m (a : A) v d :
  n <> m -> nth m (setAt n a v) d = nth m v d.
Proof.
  revert n m. induction v as [|x v IH]; intros [|n] [|m] H; simpl; auto; try congruence.
Qed.

Lemma Forall_setAt {A} (P : A -> Prop) n a v :
  P a -> Forall P v -> Forall P (setAt n a v).
Proof.
  intros Pa Hv. revert n. induction Hv as [|x v Px Hv IH]; intros [|n]; simpl; auto.
Qed.

(** ** Bin Collapser: one bin *)

Lemma binShape_rows b : binShape b <-> length b = 2%nat /\ Forall rowShape b.
Proof. reflexivity. Qed.

Lemma absorbCells_spec check acc src :
  length acc = length src ->
  absorbCells check acc src
  = (addCells acc src, if check then emptyCells (addCells acc src) else O).
Proof.
  revert src. induction acc as [|a acc IH]; intros [|s src] H; simpl in *; try discriminate.
  - now destruct check.
  - rewrite IH by lia. unfold addCells, emptyCells. simpl.
    change (F32.leb (F32.add a s) (S754_zero false)) with (isEmptyCell (F32.add a s)).
    destruct check; simpl; [|reflexivity].
    now destruct (isEmptyCell (F32.add a s)).
Qed.

Lemma absorbRows_spec check acc src :
  rowShape acc -> rowShape src ->
  absorbRows check acc src
  = (addRows acc src, if check then emptyRows (addRows acc src) else O).
Proof.
  intros [La Fa] [Ls Fs].
  assert (Hlen : length acc = length src) by congruence. clear La Ls.
  revert src Fs Hlen. induction Fa as [|a acc Ha Fa IH]; intros [|s src] Fs H;
    simpl in *; try discriminate.
  - now destruct check.
  - inversion Fs as [|? ? Hs Fs']; subst.
    rewrite absorbCells_spec by congruence.
    rewrite IH by (auto; lia).
    unfold addRows, emptyRows. simpl. now destruct check.
Qed.

Lemma absorbBin_spec check acc src :
  binShape acc -> binShape src ->
  absorbBin check acc src
  = (addBin acc src, if check then emptyBinCells (addBin acc src) else O).
Proof.
  intros [La Fa] [Ls Fs].
  assert (Hlen : length acc = length src) by congruence. clear La Ls.
  revert src Fs Hlen. induction Fa as [|a acc Ha Fa IH]; intros [|s src] Fs H;
    simpl in *; try discriminate.
  - now destruct check.
  - inversion Fs as [|? ? Hs Fs']; subst.
    rewrite absorbRows_spec by assumption.
    rewrite IH by (auto; lia).
    unfold addBin, emptyBinCells. simpl. now destruct check.
Qed.

Lemma rowShape_addRows a s : rowShape a -> rowShape s -> rowShape (addRows a s).
Proof.
  intros [La Fa] [Ls Fs]. split.
  - unfold addRows. now rewrite length_zipInto.
  - unfold addRows.
    apply Forall_zipInto with (Q := fun c => length c = 2%nat); auto.
    intros x y Hx _. unfold addCells. now rewrite length_zipInto.
Qed.

Lemma binShape_addBin a s : binShape a -> binShape s -> binShape (addBin a s).
Proof.
  intros [La Fa] [Ls Fs]. split.
  - unfold addBin. now rewrite length_zipInto.
  - unfold addBin. apply Forall_zipInto with (Q := rowShape); auto.
    intros x y. apply rowShape_addRows.
Qed.

Lemma binShape_emptyBin : binShape emptyBin.
Proof. repeat constructor. Qed.

Lemma zeroBin_shape b : binShape b -> zeroBin b = emptyBin.
Proof.
  intros [Lb Fb].
  destruct b as [|r1 [|r2 [|]]]; try discriminate.
  inversion Fb as [|? ? [L1 F1] Fb']; subst. inversion Fb' as [|? ? [L2 F2] _]; subst.
  destruct r1 as [|c11 [|c12 [|]]]; try discriminate.
  destruct r2 as [|c21 [|c22 [|]]]; try discriminate.
  inversion F1 as [|? ? H11 F1']; subst. inversion F1' as [|? ? H12 _]; subst.
  inversion F2 as [|? ? H21 F2']; subst. inversion F2' as [|? ? H22 _]; subst.
  destruct c11 as [|? [|? [|]]]; try discriminate.
  destruct c12 as [|? [|? [|]]]; try discriminate.
  destruct c21 as [|? [|? [|]]]; try discriminate.
  destruct c22 as [|? [|? [|]]]; try discriminate.
  reflexivity.
Qed.

(** ** Bin Collapser: slices *)

Lemma rectangular_binCount n counts : rectangular n counts -> binCount counts = n.
Proof.
  intros [L F]. unfold binCount.
  destruct counts as [|c counts]; [discriminate|]. simpl.
  inversion F as [|? ? [Hc _] _]; subst. reflexivity.
Qed.

Lemma rectangular_columns n counts :
  rectangular n counts ->
  forall bin, (bin < n)%nat ->
    Forall (fun c => (bin < length c)%nat /\ Forall binShape c) counts.
Proof.
  intros [_ F] bin Hb. eapply Forall_impl; [|exact F].
  intros c [Hc Fc]. split; [lia|assumption].
Qed.

Lemma length_sliceAt bin counts : length (sliceAt bin counts) = length counts.
Proof. unfold sliceAt. apply length_map. Qed.

Lemma sliceAt_shape bin counts :
  Forall (fun c => (bin < length c)%nat /\ Forall binShape c) counts ->
  Forall binShape (sliceAt bin counts).
Proof.
  intros F. unfold sliceAt. apply Forall_map. eapply Forall_impl; [|exact F].
  intros c [Hc Fc]. rewrite Forall_forall in Fc. apply Fc. now apply nth_In.
Qed.

Lemma addSlice_shape a s :
  Forall binShape a -> Forall binShape s -> Forall binShape (addSlice a s).
Proof.
  intros. unfold addSlice. apply Forall_zipInto with (Q := binShape); auto.
  intros x y. apply binShape_addBin.
Qed.

Lemma zeroSlice_shape : Forall binShape zeroSlice.
Proof. unfold zeroSlice. apply Forall_forall. intros b Hb. apply repeat_spec in Hb. subst. apply binShape_emptyBin. Qed.

Lemma absorbOverlaps_spec collapsedBin bin collapsed : forall overlap counts,
  length collapsed = length counts ->
  Forall (fun c => (collapsedBin < length c)%nat /\ Forall binShape c) collapsed ->
  Forall (fun c => (bin < length c)%nat /\ Forall binShape c) counts ->
  absorbOverlaps overlap collapsedBin bin collapsed counts
  = (setSlice collapsedBin (addSlice (sliceAt collapsedBin collapsed) (sliceAt bin counts)) collapsed,
     emptyCountFrom overlap (addSlice (sliceAt collapsedBin collapsed) (sliceAt bin counts))).
Proof.
  induction collapsed as [|c collapsed IH]; intros overlap [|g counts] L Fc Fg;
    simpl in *; try discriminate.
  - reflexivity.
  - inversion Fc as [|? ? [Hc Sc] Fc']; subst. inversion Fg as [|? ? [Hg Sg] Fg']; subst.
    rewrite (nth_error_nth' c [] Hc), (nth_error_nth' g [] Hg).
    rewrite absorbBin_spec.
    + rewrite IH by (auto; lia). unfold setSlice, addSlice. simpl.
      now destruct (overlap =? PING_PONG_OVERLAP)%nat.
    + rewrite Forall_forall in Sc. apply Sc. now apply nth_In.
    + rewrite Forall_forall in Sg. apply Sg. now apply nth_In.
Qed.

Lemma sliceAt_setSlice_same bin s : forall counts,
  length s = length counts ->
  Forall (fun c => (bin < length c)%nat) counts ->
  sliceAt bin (setSlice bin s counts) = s.
Proof.
  induction s as [|b s IH]; intros [|c counts] L F; simpl in *; try discriminate.
  - reflexivity.
  - inversion F; subst. rewrite nth_setAt_same by assumption.
    f_equal. apply IH; auto.
Qed.

Lemma sliceAt_setSlice_other bin bin' s : forall counts,
  bin <> bin' -> sliceAt bin' (setSlice bin s counts) = sliceAt bin' counts.
Proof.
  induction s as [|b s IH]; intros [|c counts] H; simpl; auto.
  rewrite nth_setAt_other by assumption. f_equal. now apply IH.
Qed.

Lemma setSlice_rectangular n bin s counts :
  rectangular n counts -> Forall binShape s -> rectangular n (setSlice bin s counts).
Proof.
  intros [L F] Fs. split.
  - unfold setSlice. now rewrite length_zipInto.
  - unfold setSlice. apply Forall_zipInto with (Q := binShape); auto.
    intros c b [Hc Sc] Hb. split.
    + now rewrite length_setAt.
    + now apply Forall_setAt.
Qed.

Lemma zipInto_repeat {A B} (f : A -> B -> A) (x : B) acc :
  zipInto f acc (repeat x (length acc)) = map (fun a => f a x) acc.
Proof. induction acc as [|a acc IH]; simpl; [reflexivity|]. now rewrite IH. Qed.

Lemma zeroCollapsedBin_spec n collapsedBin collapsed :
  rectangular n collapsed -> (collapsedBin < n)%nat ->
  zeroCollapsedBin collapsedBin collapsed = setSlice collapsedBin zeroSlice collapsed.
Proof.
  intros R Hb. pose proof (rectangular_columns _ _ R _ Hb) as F. destruct R as [L _].
  unfold zeroCollapsedBin, setSlice, zeroSlice. rewrite <- L, zipInto_repeat.
  apply map_ext_in. intros c Hc. rewrite Forall_forall in F. destruct (F c Hc) as [Hl Sc].
  rewrite (nth_error_nth' c [] Hl). f_equal. apply zeroBin_shape.
  rewrite Forall_forall in Sc. apply Sc. now apply nth_In.
Qed.

Lemma slicesFrom_cons bin counts :
  (bin < binCount counts)%nat ->
  slicesFrom bin counts = sliceAt bin counts :: slicesFrom (S bin) counts.
Proof.
  intros H. unfold slicesFrom.
  replace (binCount counts - bin)%nat with (S (binCount counts - S bin)) by lia.
  reflexivity.
Qed.

Lemma slicesFrom_nil bin counts :
  (binCount counts <= bin)%nat -> slicesFrom bin counts = [].
Proof.
  intros H. unfold slicesFrom.
  replace (binCount counts - bin)%nat with O by lia. reflexivity.
Qed.

Lemma collapseSlices_begin s rest :
  collapseSlices None (s :: rest) = collapseSlices (Some zeroSlice) (s :: rest).
Proof. reflexivity. Qed.

Lemma absorbWhileEmpty_spec n counts collapsedBin :
  rectangular n counts -> (collapsedBin < n)%nat ->
  forall fuel collapsed bin,
    rectangular n collapsed -> (bin < n)%nat -> (n - bin <= fuel)%nat ->
    let r := absorbWhileEmpty fuel counts collapsedBin collapsed bin in
    rectangular n (fst r) /\ (bin < snd r <= n)%nat /\
    (forall b, b <> collapsedBin -> sliceAt b (fst r) = sliceAt b collapsed) /\
    collapseSlices (Some (sliceAt collapsedBin collapsed)) (slicesFrom bin counts)
    = sliceAt collapsedBin (fst r) :: collapseSlices None (slicesFrom (snd r) counts).
Proof.
  intros Rg Hcb. pose proof (rectangular_binCount _ _ Rg) as Hn.
  induction fuel as [|fuel IH]; intros collapsed bin Rc Hbin Hfuel; [lia|].
  cbn zeta. unfold absorbWhileEmpty; fold absorbWhileEmpty.
  rewrite absorbOverlaps_spec;
    [| first [ exact (eq_trans (proj1 Rc) (eq_sym (proj1 Rg)))
             | now apply (rectangular_columns n) ] .. ].
  set (a := addSlice (sliceAt collapsedBin collapsed) (sliceAt bin counts)).
  assert (Sa : Forall binShape a).
  { apply addSlice_shape; apply sliceAt_shape; now apply (rectangular_columns n). }
  assert (La : length a = length collapsed).
  { unfold a, addSlice. now rewrite length_zipInto, length_sliceAt. }
  assert (Rc' : rectangular n (setSlice collapsedBin a collapsed))
    by now apply setSlice_rectangular.
  assert (Ha : sliceAt collapsedBin (setSlice collapsedBin a collapsed) = a).
  { apply sliceAt_setSlice_same; [assumption|].
    eapply Forall_impl; [|apply (rectangular_columns n _ Rc _ Hcb)]. now intros c [? _]. }
  fold (binCount counts). rewrite Hn.
  rewrite (slicesFrom_cons bin) by lia. cbn [collapseSlices]. fold a.
  fold (emptyCount a).
  destruct ((0 <? emptyCount a)%nat && (S bin <? n)%nat) eqn:E.
  - apply andb_prop in E. destruct E as [E1 E2].
    apply Nat.ltb_lt in E1, E2.
    destruct (IH (setSlice collapsedBin a collapsed) (S bin) Rc' E2 ltac:(lia))
      as (R1 & R2 & R3 & R4).
    split; [exact R1|]. split; [lia|]. split.
    + intros b Hb. rewrite R3 by assumption. now apply sliceAt_setSlice_other.
    + rewrite Ha in R4. rewrite <- R4.
      destruct (emptyCount a =? 0)%nat eqn:E0; [apply Nat.eqb_eq in E0; lia|reflexivity].
  - cbn [fst snd]. split; [exact Rc'|]. split; [lia|]. split.
    + intros b Hb. now apply sliceAt_setSlice_other.
    + rewrite Ha. destruct (emptyCount a =? 0)%nat eqn:E0; [reflexivity|].
      apply Nat.eqb_neq in E0. apply andb_false_iff in E. destruct E as [E|E].
      * apply Nat.ltb_ge in E. lia.
      * apply Nat.ltb_ge in E. rewrite slicesFrom_nil by lia. reflexivity.
Qed.

Lemma collapseLoop_spec n counts :
  rectangular n counts ->
  forall fuel collapsed collapsedBin bin,
    rectangular n collapsed -> (collapsedBin <= bin)%nat -> (bin <= n)%nat ->
    (n - bin <= fuel)%nat ->
    let r := collapseLoop fuel counts collapsed collapsedBin bin in
    rectangular n (fst r) /\ (snd r <= n)%nat /\
    map (fun b => sliceAt b (fst r)) (List.seq 0 (snd r))
    = map (fun b => sliceAt b collapsed) (List.seq 0 collapsedBin)
      ++ collapseSlices None (slicesFrom bin counts).
Proof.
  intros Rg. pose proof (rectangular_binCount _ _ Rg) as Hn.
  induction fuel as [|fuel IH]; intros collapsed collapsedBin bin Rc Hcb Hbin Hfuel.
  - cbn. rewrite slicesFrom_nil by lia. rewrite app_nil_r.
    split; [assumption|]. split; [lia|reflexivity].
  - cbn zeta. unfold collapseLoop; fold collapseLoop.
    fold (binCount counts). rewrite Hn.
    destruct (bin <? n)%nat eqn:E.
    + apply Nat.ltb_lt in E.
      rewrite (zeroCollapsedBin_spec n) by (auto; lia).
      assert (Rz : rectangular n (setSlice collapsedBin zeroSlice collapsed)).
      { apply setSlice_rectangular; [assumption | apply zeroSlice_shape]. }
      destruct (absorbWhileEmpty_spec n counts collapsedBin Rg ltac:(lia) (n - bin)%nat
                  (setSlice collapsedBin zeroSlice collapsed) bin Rz E ltac:(lia))
        as (R1 & R2 & R3 & R4).
      destruct (absorbWhileEmpty (n - bin) counts collapsedBin
                  (setSlice collapsedBin zeroSlice collapsed) bin) as [collapsed' bin'].
      cbn [fst snd] in *.
      destruct (IH collapsed' (S collapsedBin) bin' R1 ltac:(lia) ltac:(lia) ltac:(lia))
        as (Q1 & Q2 & Q3).
      split; [exact Q1|]. split; [exact Q2|].
      rewrite Q3. rewrite seq_S, map_app. cbn [map Nat.add]. rewrite <- app_assoc. cbn [app].
      f_equal.
      * apply map_ext_in. intros b Hb. apply in_seq in Hb.
        rewrite R3 by lia. apply sliceAt_setSlice_other. lia.
      * rewrite <- R4.
        rewrite sliceAt_setSlice_same.
        -- rewrite (slicesFrom_cons bin) by lia. reflexivity.
        -- exact (eq_trans (repeat_length _ _) (eq_sym (proj1 Rc))).
        -- eapply Forall_impl; [|apply (rectangular_columns n _ Rc collapsedBin); lia].
           now intros c [? _].
    + apply Nat.ltb_ge in E. cbn [fst snd].
      rewrite slicesFrom_nil by lia. rewrite app_nil_r.
      split; [assumption|]. split; [lia|reflexivity].
Qed.

Lemma shrink_rectangular n m counts :
  rectangular n counts -> (m <= n)%nat -> rectangular m (map (shrink m) counts).
Proof.
  intros [L F] Hm. split.
  - now rewrite length_map.
  - apply Forall_map. eapply Forall_impl; [|exact F].
    intros c [Hc Sc]. unfold shrink. split.
    + rewrite length_firstn. lia.
    + apply Forall_forall. intros b Hb. rewrite Forall_forall in Sc.
      apply Sc. rewrite <- (firstn_skipn m c). apply in_or_app. now left.
Qed.

Lemma sliceAt_shrink m b counts :
  (b < m)%nat -> sliceAt b (map (shrink m) counts) = sliceAt b counts.
Proof.
  intros H. unfold sliceAt. rewrite map_map. apply map_ext. intros c.
  unfold shrink. revert b H c. induction m as [|m IH]; intros b H c; [lia|].
  destruct c as [|x c]; [now destruct b|].
  destruct b as [|b]; simpl; [reflexivity|]. apply IH. lia.
Qed.

(** The loops of [collapseBins] compute [collapseSlices]. *)
Lemma collapseBins_slices n counts :
  rectangular n counts ->
  rectangular (binCount (collapseBins counts)) (collapseBins counts) /\
  slicesOf (collapseBins counts) = collapseSlices None (slicesOf counts).
Proof.
  intros Rg. pose proof (rectangular_binCount _ _ Rg) as Hn.
  unfold collapseBins. fold (binCount counts). rewrite Hn.
  destruct (collapseLoop_spec n counts Rg n counts 0%nat 0%nat Rg ltac:(lia) ltac:(lia) ltac:(lia))
    as (R1 & R2 & R3).
  destruct (collapseLoop n counts counts 0 0) as [collapsed collapsedBin].
  cbn [fst snd] in *.
  pose proof (shrink_rectangular n collapsedBin collapsed R1 R2) as Rs.
  rewrite (rectangular_binCount _ _ Rs). split; [exact Rs|].
  unfold slicesOf. rewrite (rectangular_binCount _ _ Rs).
  cbn [List.seq map app] in R3. unfold slicesFrom in R3.
  rewrite Nat.sub_0_r in R3. rewrite <- R3.
  apply map_ext_in. intros b Hb. apply in_seq in Hb. apply sliceAt_shrink. lia.
Qed.

Lemma nth_sliceAt o c counts :
  nth o (sliceAt c counts) [] = nth c (nth o counts []) [].
Proof.
  unfold sliceAt.
  assert (E : @nil (list (list float)) = nth c (@nil TBin) []) by now destruct c.
  rewrite E at 1.
  rewrite (map_nth (fun column : TGroupedStackCounts => nth c column [])).
  reflexivity.
Qed.

Lemma slices_ext n a b :
  rectangular n a -> rectangular n b -> slicesOf a = slicesOf b -> a = b.
Proof.
  intros Ra Rb H.
  unfold slicesOf in H.
  rewrite (rectangular_binCount _ _ Ra), (rectangular_binCount _ _ Rb) in H.
  destruct Ra as [La Fa], Rb as [Lb Fb].
  apply (nth_ext a b [] []); [exact (eq_trans La (eq_sym Lb))|].
  intros o Ho.
  assert (Hoa : In (nth o a []) a) by now apply nth_In.
  assert (Hob : In (nth o b []) b).
  { apply nth_In. rewrite <- (eq_trans La (eq_sym Lb)). exact Ho. }
  rewrite Forall_forall in Fa, Fb.
  destruct (Fa _ Hoa) as [Lca _], (Fb _ Hob) as [Lcb _].
  apply (nth_ext _ _ [] []); [exact (eq_trans Lca (eq_sym Lcb))|].
  intros c Hc.
  assert (Hs : sliceAt c a = sliceAt c b).
  { assert (Hin : In c (List.seq 0 n)) by (apply in_seq; split; [lia|]; simpl; rewrite <- Lca; exact Hc).
    clear - H Hin. revert H Hin. generalize (List.seq 0 n). intros l.
    induction l as [|x l IH]; simpl; intros H Hin; [contradiction|].
    injection H as H0 H. destruct Hin as [->|Hin]; [exact H0 | now apply IH]. }
  apply (f_equal (fun s => nth o s [])) in Hs.
  now rewrite !nth_sliceAt in Hs.
Qed.

(** ** Floating point: the sign of a rounded value *)

Lemma iter_pos_invariant {A} (P : A -> Prop) (f : A -> A) :
  (forall x, P x -> P (f x)) -> forall p x, P x -> P (iter_pos f p x).
Proof.
  intros Hf. induction p as [p IH|p IH|]; intros x Hx; simpl; auto.
Qed.

Lemma shr_1_nonneg mrs : 0 <= shr_m mrs -> 0 <= shr_m (shr_1 mrs).
Proof.
  destruct mrs as [m r s]. simpl. intros H.
  destruct m as [|[p|p|]|p]; simpl; lia.
Qed.

Lemma shr_fexp_nonneg prec emax m e l :
  0 <= m -> 0 <= shr_m (fst (shr_fexp prec emax m e l)).
Proof.
  intros H. unfold shr_fexp, shr.
  assert (H0 : 0 <= shr_m (shr_record_of_loc m l)) by (destruct l as [|[]]; exact H).
  destruct (fexp prec emax (Zdigits2 m + e) - e); simpl; try exact H0.
  apply iter_pos_invariant; [apply shr_1_nonneg | exact H0].
Qed.

Lemma round_nearest_even_nonneg m l : 0 <= m -> 0 <= round_nearest_even m l.
Proof.
  intros H. destruct l as [|[]]; simpl; try lia. destruct (Z.even m); lia.
Qed.

Lemma binary_round_aux_sign prec emax sx mx ex lx :
  0 <= mx -> hasSign sx (binary_round_aux prec emax sx mx ex lx).
Proof.
  intros H. unfold binary_round_aux.
  pose proof (shr_fexp_nonneg prec emax mx ex lx H) as H1.
  destruct (shr_fexp prec emax mx ex lx) as [mrs' e']. simpl in H1.
  pose proof (shr_fexp_nonneg prec emax _ e' loc_Exact
                (round_nearest_even_nonneg _ (loc_of_shr_record mrs') H1)) as H2.
  destruct (shr_fexp prec emax (round_nearest_even (shr_m mrs') (loc_of_shr_record mrs')) e' loc_Exact)
    as [mrs'' e'']. simpl in H2.
  destruct (shr_m mrs'') as [|p|p]; simpl; try reflexivity.
  - destruct (e'' <=? emax - prec); reflexivity.
  - lia.
Qed.

Lemma binary_round_sign prec emax sx mx ex :
  hasSign sx (binary_round prec emax sx mx ex).
Proof.
  unfold binary_round.
  destruct (shl_align mx ex (fexp prec emax (Z.pos (digits2_pos mx) + ex))) as [mz ez].
  apply binary_round_aux_sign. lia.
Qed.

Lemma hasSign_nonneg x : hasSign false x -> nonneg x = true.
Proof. destruct x as [[]|[]| |[] m e]; simpl; intros H; try reflexivity; try discriminate; contradiction. Qed.

Lemma SFadd_nonneg prec emax x y :
  nonneg x = true -> nonneg y = true -> nonneg (SFadd prec emax x y) = true.
Proof.
  destruct x as [[]|[]| |[] mx ex]; try discriminate;
    destruct y as [[]|[]| |[] my ey]; try discriminate; intros _ _; try reflexivity.
  unfold SFadd. apply hasSign_nonneg.
  unfold binary_normalize.
  destruct (shl_align mx ex (Z.min ex ey)) as [m1 e1].
  destruct (shl_align my ey (Z.min ex ey)) as [m2 e2].
  simpl. apply binary_round_sign.
Qed.

Lemma SFadd_zero_l prec emax x :
  nonneg x = true -> SFadd prec emax (S754_zero false) x = x.
Proof. destruct x as [[]|[]| |[] mx ex]; try discriminate; reflexivity. Qed.

Lemma double_of_float_nonneg x : nonneg x = true -> nonneg (double_of_float x) = true.
Proof.
  destruct x as [[]|[]| |[] m e]; try discriminate; intros _; try reflexivity.
  apply hasSign_nonneg, binary_round_sign.
Qed.

Lemma float_of_double_nonneg x : nonneg x = true -> nonneg (float_of_double x) = true.
Proof.
  destruct x as [[]|[]| |[] m e]; try discriminate; intros _; try reflexivity.
  apply hasSign_nonneg, binary_round_sign.
Qed.

(** ** Bin Collapser: properties of [collapseSlices] *)

Lemma zipInto_repeat_l {A} (f : A -> A -> A) (z : A) n src :
  length src = n -> Forall (fun s => f z s = s) src -> zipInto f (repeat z n) src = src.
Proof.
  intros <-. induction 1 as [|s src Hs _ IH]; simpl; [reflexivity|]. now rewrite Hs, IH.
Qed.

Lemma addBin_emptyBin b : binShape b -> nonnegBin b -> addBin emptyBin b = b.
Proof.
  intros [Lb Sb] Nb. unfold nonnegBin in Nb. unfold addBin, emptyBin.
  apply zipInto_repeat_l; [exact Lb|].
  rewrite Forall_forall in *. intros r Hr.
  destruct (Sb r Hr) as [Lr Sr]. specialize (Nb r Hr).
  unfold addRows. apply zipInto_repeat_l; [exact Lr|].
  rewrite Forall_forall in *. intros c Hc.
  specialize (Sr c Hc). specialize (Nb c Hc).
  unfold addCells. apply zipInto_repeat_l; [exact Sr|].
  rewrite Forall_forall in *. intros x Hx.
  apply SFadd_zero_l. now apply Nb.
Qed.

Lemma addSlice_zeroSlice s : cleanSlice s -> addSlice zeroSlice s = s.
Proof.
  intros (L & S & N). unfold addSlice, zeroSlice.
  apply zipInto_repeat_l; [exact L|].
  rewrite Forall_forall in *. intros b Hb. apply addBin_emptyBin; auto.
Qed.

Lemma addBin_nonneg a s : nonnegBin a -> nonnegBin s -> nonnegBin (addBin a s).
Proof.
  intros Na Ns. unfold addBin, nonnegBin.
  apply Forall_zipInto with (Q := Forall (Forall (fun x => nonneg x = true))); auto.
  intros r r' Hr Hr'. unfold addRows.
  apply Forall_zipInto with (Q := Forall (fun x => nonneg x = true)); auto.
  intros c c' Hc Hc'. unfold addCells.
  apply Forall_zipInto with (Q := fun x => nonneg x = true); auto.
  intros x y. apply SFadd_nonneg.
Qed.

Lemma addSlice_clean a s : cleanSlice a -> cleanSlice s -> cleanSlice (addSlice a s).
Proof.
  intros (La & Sa & Na) (Ls & Ss & Ns). split; [|split].
  - unfold addSlice. now rewrite length_zipInto.
  - now apply addSlice_shape.
  - unfold addSlice. apply Forall_zipInto with (Q := nonnegBin); auto.
    intros x y. apply addBin_nonneg.
Qed.

Lemma zeroSlice_clean : cleanSlice zeroSlice.
Proof.
  split; [reflexivity|]. split; [apply zeroSlice_shape|].
  unfold zeroSlice. apply Forall_forall. intros b Hb. apply repeat_spec in Hb. subst.
  repeat constructor.
Qed.

Lemma collapseSlices_clean slices : forall acc,
  match acc with Some a => cleanSlice a | None => True end ->
  Forall cleanSlice slices ->
  Forall cleanSlice (collapseSlices acc slices).
Proof.
  induction slices as [|s slices IH]; intros acc Ha Hs; simpl.
  - destruct acc; constructor; auto.
  - inversion Hs as [|? ? Cs Hs']; subst.
    assert (Ca : cleanSlice (addSlice (match acc with Some a => a | None => zeroSlice end) s)).
    { apply addSlice_clean; [|assumption]. destruct acc; [assumption | apply zeroSlice_clean]. }
    destruct (emptyCount _ =? 0)%nat.
    + constructor; [assumption|]. now apply IH.
    + now apply IH.
Qed.

(** every output bin but the last has no empty cell at a background overlap *)
Lemma collapseSlices_full slices : forall acc c,
  (S c < length (collapseSlices acc slices))%nat ->
  emptyCount (nth c (collapseSlices acc slices) []) = O.
Proof.
  induction slices as [|s slices IH]; intros acc c; simpl.
  - destruct acc; simpl; lia.
  - destruct (emptyCount _ =? 0)%nat eqn:E.
    + apply Nat.eqb_eq in E. destruct c as [|c]; simpl; intros H; [exact E|].
      apply IH. lia.
    + apply IH.
Qed.

(** the output bins are the sums of consecutive, non-empty groups of input
    bins *)
Lemma collapseSlices_groups (f : nat -> Slice) bins :
  (forall a, exists g1 groups,
      g1 ++ concat groups = bins /\ (bins <> [] -> g1 <> []) /\
      Forall (fun g => g <> []) groups /\
      collapseSlices (Some a) (map f bins)
      = fold_left addSlice (map f g1) a :: map (fun g => sumSlices (map f g)) groups) /\
  (exists groups,
      concat groups = bins /\ Forall (fun g => g <> []) groups /\
      collapseSlices None (map f bins) = map (fun g => sumSlices (map f g)) groups).
Proof.
  induction bins as [|b bins [IH1 IH2]].
  - split.
    + intros a. exists [], []. simpl. repeat split; auto; congruence.
    + exists []. simpl. repeat split; auto.
  - assert (H1 : forall a, exists g1 groups,
      g1 ++ concat groups = b :: bins /\ (b :: bins <> [] -> g1 <> []) /\
      Forall (fun g => g <> []) groups /\
      collapseSlices (Some a) (map f (b :: bins))
      = fold_left addSlice (map f g1) a :: map (fun g => sumSlices (map f g)) groups).
    { intros a. simpl. destruct (emptyCount (addSlice a (f b)) =? 0)%nat.
      - destruct IH2 as (groups & Hc & Hn & He).
        exists [b], groups. simpl. rewrite Hc, He. repeat split; auto; congruence.
      - destruct (IH1 (addSlice a (f b))) as (g1 & groups & Hc & _ & Hn & He).
        exists (b :: g1), groups. simpl. rewrite Hc, He. repeat split; auto; congruence. }
    split; [exact H1|].
    destruct (H1 zeroSlice) as (g1 & groups & Hc & Hg & Hn & He).
    exists (g1 :: groups). simpl. split; [exact Hc|]. split.
    + constructor; [apply Hg; congruence | exact Hn].
    + exact He.
Qed.

Lemma collapseSlices_idempotent l :
  Forall cleanSlice l ->
  (forall c, (S c < length l)%nat -> emptyCount (nth c l []) = O) ->
  collapseSlices None l = l.
Proof.
  induction l as [|s l IH]; intros Hc Hf; [reflexivity|].
  inversion Hc as [|? ? Cs Hc']; subst.
  simpl. rewrite addSlice_zeroSlice by assumption.
  destruct (emptyCount s =? 0)%nat eqn:E.
  - f_equal. apply IH; [assumption|]. intros c H. apply (Hf (S c)). simpl. lia.
  - apply Nat.eqb_neq in E. destruct l as [|s' l]; [reflexivity|].
    exfalso. apply E. apply (Hf O). simpl. lia.
Qed.

Lemma length_slicesOf counts : length (slicesOf counts) = binCount counts.
Proof. unfold slicesOf. now rewrite length_map, length_seq. Qed.

Lemma rawHistogram_slices n counts :
  rawHistogram n counts -> Forall cleanSlice (slicesOf counts).
Proof.
  intros [R N]. pose proof (rectangular_binCount _ _ R) as Hn.
  unfold slicesOf. rewrite Hn. apply Forall_forall. intros s Hs.
  apply in_map_iff in Hs. destruct Hs as (b & <- & Hb). apply in_seq in Hb.
  pose proof (rectangular_columns _ _ R b ltac:(lia)) as F.
  split; [|split].
  - rewrite length_sliceAt. exact (proj1 R).
  - now apply sliceAt_shape.
  - unfold sliceAt. apply Forall_map.
    unfold allCells in N. rewrite Forall_forall in *. intros c Hc.
    destruct (F c Hc) as [Lc _]. specialize (N c Hc).
    rewrite Forall_forall in N. apply N. now apply nth_In.
Qed.

(** ** Bin Collapser: cells *)

Lemma cell_sliceAt counts overlap bin i j k :
  cell counts overlap bin i j k = cellOfSlice (sliceAt bin counts) overlap i j k.
Proof. unfold cell, cellOfSlice. now rewrite nth_sliceAt. Qed.

Lemma nth_slicesOf counts bin :
  (bin < binCount counts)%nat -> nth bin (slicesOf counts) [] = sliceAt bin counts.
Proof.
  intros H. unfold slicesOf.
  rewrite (nth_indep _ [] (sliceAt 0 counts)) by now rewrite length_map, length_seq.
  rewrite (map_nth (fun b => sliceAt b counts)). now rewrite seq_nth.
Qed.

Lemma binShape_nth b i j :
  binShape b -> (i < 2)%nat -> (j < 2)%nat ->
  (i < length b)%nat /\ (j < length (nth i b []))%nat /\ length (nth j (nth i b []) []) = 2%nat.
Proof.
  intros [Lb Sb] Hi Hj. rewrite Forall_forall in Sb.
  assert (Hib : (i < length b)%nat) by lia.
  destruct (Sb _ (nth_In b [] Hib)) as [Lr Sr]. rewrite Forall_forall in Sr.
  assert (Hjr : (j < length (nth i b []))%nat) by lia.
  repeat split; auto. exact (Sr _ (nth_In _ [] Hjr)).
Qed.

Lemma cellOfSlice_addSlice a s overlap i j k :
  length a = 21%nat -> length s = 21%nat -> Forall binShape a -> Forall binShape s ->
  (overlap < 21)%nat -> (i < 2)%nat -> (j < 2)%nat -> (k < 2)%nat ->
  cellOfSlice (addSlice a s) overlap i j k
  = F32.add (cellOfSlice a overlap i j k) (cellOfSlice s overlap i j k).
Proof.
  intros La Ls Sa Ss Ho Hi Hj Hk. unfold cellOfSlice, addSlice.
  rewrite Forall_forall in Sa, Ss.
  assert (Hoa : (overlap < length a)%nat) by lia.
  assert (Hos : (overlap < length s)%nat) by lia.
  destruct (binShape_nth _ i j (Sa _ (nth_In a [] Hoa)) Hi Hj) as (A1 & A2 & A3).
  destruct (binShape_nth _ i j (Ss _ (nth_In s [] Hos)) Hi Hj) as (S1 & S2 & S3).
  rewrite (nth_zipInto addBin a s overlap [] []) by assumption.
  unfold addBin. rewrite (nth_zipInto addRows _ _ i [] []) by assumption.
  unfold addRows. rewrite (nth_zipInto addCells _ _ j [] []) by assumption.
  unfold addCells. rewrite (nth_zipInto F32.add _ _ k F32.zero F32.zero) by lia.
  reflexivity.
Qed.

Lemma cellOfSlice_zeroSlice overlap i j k : cellOfSlice zeroSlice overlap i j k = F32.zero.
Proof.
  unfold cellOfSlice, zeroSlice.
  assert (H : forall {A} (x d : A) n m, nth m (repeat x n) d = x \/ nth m (repeat x n) d = d).
  { intros A x d n. induction n as [|n IH]; intros [|m]; simpl; auto. }
  destruct (H _ emptyBin [] 21%nat overlap) as [-> | ->].
  - unfold emptyBin.
    destruct (H _ (repeat (repeat F32.zero 2) 2) [] 2%nat i) as [-> | ->].
    + destruct (H _ (repeat F32.zero 2) [] 2%nat j) as [-> | ->].
      * destruct (H _ F32.zero F32.zero 2%nat k) as [-> | ->]; reflexivity.
      * now destruct k.
    + destruct j; now destruct k.
  - destruct i; destruct j; now destruct k.
Qed.

Lemma cellOfSlice_fold (f : nat -> Slice) overlap i j k group : forall acc,
  length acc = 21%nat -> Forall binShape acc ->
  (forall b, In b group -> length (f b) = 21%nat /\ Forall binShape (f b)) ->
  (overlap < 21)%nat -> (i < 2)%nat -> (j < 2)%nat -> (k < 2)%nat ->
  cellOfSlice (fold_left addSlice (map f group) acc) overlap i j k
  = fold_left F32.add (map (fun b => cellOfSlice (f b) overlap i j k) group)
      (cellOfSlice acc overlap i j k).
Proof.
  induction group as [|b group IH]; intros acc La Sa Hf Ho Hi Hj Hk; simpl; [reflexivity|].
  destruct (Hf b (or_introl eq_refl)) as [Lb Sb].
  rewrite IH; auto.
  - now rewrite cellOfSlice_addSlice.
  - unfold addSlice. now rewrite length_zipInto.
  - now apply addSlice_shape.
  - intros b' Hb'. apply Hf. now right.
Qed.

(** ** Values *)

Lemma SF2Q_positive x :
  nonneg x = true -> is_finite x = true -> F32.ltb F32.zero x = true -> (0 < SF2Q x)%Q.
Proof.
  destruct x as [[]|[]| |[] m e]; try discriminate. intros _ _ _.
  unfold SF2Q. destruct e as [|p|p].
  - unfold Qlt. simpl. lia.
  - unfold Qlt, inject_Z. cbn [Qnum Qden].
    pose proof (Z.pow_pos_nonneg 2 (Z.pos p) ltac:(lia) ltac:(lia)). nia.
  - unfold Qlt. simpl. lia.
Qed.


Lemma exactSum_positive l :
  l <> [] ->
  Forall (fun x => nonneg x = true /\ is_finite x = true /\ F32.ltb F32.zero x = true) l ->
  (0 < exactSum l)%Q.
Proof.
  intros Hl F. induction F as [|x l (N & Fi & P) F IH]; [congruence|].
  simpl. destruct l as [|y l].
  - simpl. rewrite Qplus_0_r. now apply SF2Q_positive.
  - apply Qlt_trans with (SF2Q x + 0)%Q.
    + rewrite Qplus_0_r. now apply SF2Q_positive.
    + apply Qplus_lt_r. apply IH. congruence.
Qed.

Lemma exactSum_app l1 l2 : (exactSum (l1 ++ l2) == exactSum l1 + exactSum l2)%Q.
Proof.
  induction l1 as [|x l1 IH]; simpl.
  - now rewrite Qplus_0_l.
  - rewrite IH. now rewrite Qplus_assoc.
Qed.

Lemma emptyCountFrom_zero s : forall o i,
  emptyCountFrom o s = O -> (i < length s)%nat -> (o + i)%nat <> PING_PONG_OVERLAP ->
  emptyBinCells (nth i s []) = O.
Proof.
  induction s as [|b s IH]; intros o i H Hi Hne; simpl in *; [lia|].
  destruct i as [|i].
  - rewrite Nat.add_0_r in Hne. apply Nat.eqb_neq in Hne. rewrite Hne in H. lia.
  - apply (IH (S o)); [lia | lia | lia].
Qed.

Lemma list_sum_zero l : list_sum l = O -> Forall (fun n => n = O) l.
Proof.
  induction l as [|n l IH]; simpl; intros H; constructor; [lia | apply IH; lia].
Qed.

Lemma emptyCells_zero c : emptyCells c = O -> Forall (fun x => isEmptyCell x = false) c.
Proof.
  unfold emptyCells. induction c as [|x c IH]; simpl; intros H; constructor.
  - destruct (isEmptyCell x); [discriminate|reflexivity].
  - apply IH. destruct (isEmptyCell x); [discriminate|assumption].
Qed.

Lemma emptyBinCells_zero b :
  emptyBinCells b = O -> Forall (Forall (Forall (fun x => isEmptyCell x = false))) b.
Proof.
  unfold emptyBinCells. intros H. apply list_sum_zero in H.
  rewrite Forall_map in H. eapply Forall_impl; [|exact H].
  intros r Hr. unfold emptyRows in Hr. apply list_sum_zero in Hr.
  rewrite Forall_map in Hr. eapply Forall_impl; [|exact Hr].
  intros c. apply emptyCells_zero.
Qed.

Lemma not_empty_positive x :
  nonneg x = true -> isEmptyCell x = false -> F32.ltb F32.zero x = true.
Proof. destruct x as [[]|[]| |[] m e]; try discriminate; reflexivity. Qed.

Lemma binShape_cells b : binShape b -> binCells b <> [].
Proof.
  intros [Lb Fb].
  destruct b as [|r1 b]; [discriminate|].
  inversion Fb as [|? ? [L1 F1] _]; subst.
  destruct r1 as [|c1 r1]; [discriminate|].
  inversion F1 as [|? ? H1 _]; subst.
  destruct c1 as [|x c1]; discriminate.
Qed.

Lemma collapseBins_clean n counts :
  rawHistogram n counts -> Forall cleanSlice (slicesOf (collapseBins counts)).
Proof.
  intros Hraw. destruct (collapseBins_slices n counts (proj1 Hraw)) as [_ Hs].
  rewrite Hs. apply collapseSlices_clean; [exact I|]. now apply (rawHistogram_slices n).
Qed.

Lemma collapseBins_full n counts bin :
  rectangular n counts -> (S bin < binCount (collapseBins counts))%nat ->
  emptyCount (sliceAt bin (collapseBins counts)) = O.
Proof.
  intros R Hb. destruct (collapseBins_slices n counts R) as [_ Hs].
  rewrite <- nth_slicesOf by lia. rewrite Hs.
  apply collapseSlices_full. rewrite <- Hs, length_slicesOf. exact Hb.
Qed.

(** C4, amended.  Every height-score bin of the output of the Bin Collapser
    except the last one has, at every background overlap, every one of its
    eight cells strictly positive; so the total over the uridine combinations
    and local-height status is strictly positive (the exact total, when the
    cells are finite).  The last bin is the one that may run out of input. *)
Theorem collapsed_bins_have_background n counts bin overlap :
  rawHistogram n counts ->
  (S bin < binCount (collapseBins counts))%nat ->
  (overlap < 21)%nat -> overlap <> PING_PONG_OVERLAP ->
  (forall i j k, (i < 2)%nat -> (j < 2)%nat -> (k < 2)%nat ->
     F32.ltb F32.zero (cell (collapseBins counts) overlap bin i j k) = true) /\
  (Forall (fun x => is_finite x = true)
     (binCells (nth bin (nth overlap (collapseBins counts) []) [])) ->
   (0 < binTotal (nth bin (nth overlap (collapseBins counts) []) []))%Q).
Proof.
  intros Hraw Hbin Ho Hne.
  pose proof (collapseBins_full n counts bin (proj1 Hraw) Hbin) as Hfull.
  pose proof (collapseBins_clean n counts Hraw) as Hclean.
  rewrite Forall_forall in Hclean.
  assert (Hc : cleanSlice (sliceAt bin (collapseBins counts))).
  { rewrite <- nth_slicesOf by lia. apply Hclean. apply nth_In.
    rewrite length_slicesOf. lia. }
  destruct Hc as (Ls & Ss & Ns).
  assert (Hos : (overlap < length (sliceAt bin (collapseBins counts)))%nat) by lia.
  pose proof (emptyCountFrom_zero _ O overlap Hfull Hos Hne) as He.
  apply emptyBinCells_zero in He.
  rewrite Forall_forall in Ss, Ns.
  pose proof (Ss _ (nth_In _ [] Hos)) as Sb.
  pose proof (Ns _ (nth_In _ [] Hos)) as Nb.
  rewrite nth_sliceAt in He, Sb, Nb.
  set (b := nth bin (nth overlap (collapseBins counts) []) []) in *.
  assert (Hall : forall r c x, In r b -> In c r -> In x c ->
                   nonneg x = true /\ F32.ltb F32.zero x = true).
  { intros r c x Hr Hcr Hx. unfold nonnegBin in Nb. rewrite Forall_forall in He, Nb.
    specialize (He r Hr). specialize (Nb r Hr). rewrite Forall_forall in He, Nb.
    specialize (He c Hcr). specialize (Nb c Hcr). rewrite Forall_forall in He, Nb.
    split; [now apply Nb|]. apply not_empty_positive; [now apply Nb | now apply He]. }
  split.
  - intros i j k Hi Hj Hk. unfold cell. fold b.
    destruct (binShape_nth b i j Sb Hi Hj) as (H1 & H2 & H3).
    apply (Hall (nth i b []) (nth j (nth i b []) [])).
    + now apply nth_In.
    + now apply nth_In.
    + apply nth_In. lia.
  - intros Hfin. unfold binTotal. apply exactSum_positive.
    + now apply binShape_cells.
    + rewrite Forall_forall in *. intros x Hx. specialize (Hfin x Hx).
      unfold binCells in Hx. apply in_concat in Hx. destruct Hx as (c & Hc & Hx).
      apply in_concat in Hc. destruct Hc as (r & Hr & Hc).
      destruct (Hall r c x Hr Hc Hx). auto.
Qed.

(** C9.  The Bin Collapser is idempotent on raw histograms: collapsing the
    output of [collapseBins] again gives that output, with the same number of
    bins and the same value in every cell. *)
Theorem collapseBins_idempotent n counts :
  rawHistogram n counts ->
  collapseBins (collapseBins counts) = collapseBins counts.
Proof.
  intros Hraw.
  destruct (collapseBins_slices n counts (proj1 Hraw)) as [Rout Hs].
  destruct (collapseBins_slices _ (collapseBins counts) Rout) as [Rout2 Hs2].
  assert (Hidem : collapseSlices None (slicesOf (collapseBins counts))
                  = slicesOf (collapseBins counts)).
  { apply collapseSlices_idempotent.
    - now apply (collapseBins_clean n).
    - intros c Hc. rewrite length_slicesOf in Hc. rewrite nth_slicesOf by lia.
      apply (collapseBins_full n); [exact (proj1 Hraw) | exact Hc]. }
  rewrite Hidem in Hs2.
  assert (Hcount : binCount (collapseBins (collapseBins counts)) = binCount (collapseBins counts)).
  { rewrite <- !length_slicesOf. now rewrite Hs2. }
  rewrite Hcount in Rout2.
  exact (slices_ext _ _ _ Rout2 Rout Hs2).
Qed.

Lemma rawHistogram_repeat n column :
  length column = n -> Forall binShape column -> Forall nonnegBin column ->
  rawHistogram n (repeat column 21).
Proof.
  intros L S N. split; [split|].
  - apply repeat_length.
  - apply Forall_forall. intros c Hc. apply repeat_spec in Hc. subst. auto.
  - unfold allCells. apply Forall_forall. intros c Hc. apply repeat_spec in Hc. subst. exact N.
Qed.

Lemma emptyCounts_raw n : rawHistogram n (emptyCounts n).
Proof.
  apply rawHistogram_repeat.
  - apply repeat_length.
  - apply Forall_forall. intros b Hb. apply repeat_spec in Hb. subst. apply binShape_emptyBin.
  - apply Forall_forall. intros b Hb. apply repeat_spec in Hb. subst. repeat constructor.
Qed.

Lemma fullCounts_raw : rawHistogram 3 fullCounts.
Proof. apply rawHistogram_repeat; repeat constructor. Qed.

Lemma bigCounts_raw : rawHistogram 2 bigCounts.
Proof. repeat constructor. Qed.

(** C4, counterexample.  The histogram of a run without any overlap is all
    zeros: the collapser merges its 1000 bins into one, whose total is 0 at
    every overlap. *)
Lemma positiveBackground_counterexample : ~ positiveBackgroundClaim.
Proof.
  intros H.
  specialize (H (emptyCounts HEIGHT_SCORE_BINS) 0%nat 0%nat (emptyCounts_raw _)).
  assert (Hb : (0 < binCount (collapseBins (emptyCounts HEIGHT_SCORE_BINS)))%nat)
    by (vm_compute; lia).
  specialize (H Hb ltac:(lia) ltac:(discriminate)).
  vm_compute in H. discriminate.
Qed.

Lemma collapsed_bins_have_background_witness :
  F32.ltb F32.zero (cell (collapseBins fullCounts) 0 0 0 0 0) = true.
Proof.
  apply (proj1 (collapsed_bins_have_background 3 fullCounts 0 0 fullCounts_raw
                  ltac:(vm_compute; lia) ltac:(lia) ltac:(discriminate))); lia.
Defined.

Lemma collapseBins_idempotent_witness :
  collapseBins (collapseBins fullCounts) = collapseBins fullCounts.
Proof. exact (collapseBins_idempotent 3 fullCounts fullCounts_raw). Defined.

(** C10, counterexample.  Two bins are merged whose cell [0][.][0][0][0]
    holds 2^24 and 1: the float sum is 2^24, the 1 is lost. *)
Lemma conservation_counterexample : ~ conservationClaim.
Proof.
  intros H. specialize (H 2%nat bigCounts 0%nat 0%nat 0%nat 0%nat bigCounts_raw).
  vm_compute in H. discriminate.
Qed.

Lemma exactSum_groups (h : nat -> float) groups : forall v : nat -> float,
  (forall c, (c < length groups)%nat ->
     (SF2Q (v c) == exactSum (map h (nth c groups [])))%Q) ->
  (exactSum (map v (List.seq 0 (length groups))) == exactSum (map h (concat groups)))%Q.
Proof.
  induction groups as [|g groups IH]; intros v Hv; simpl.
  - apply Qeq_refl.
  - rewrite map_app, exactSum_app.
    rewrite <- seq_shift, map_map.
    rewrite (IH (fun c => v (S c))).
    + rewrite (Hv O) by (simpl; lia). simpl. apply Qeq_refl.
    + intros c Hc. apply (Hv (S c)). simpl. lia.
Qed.

(** C10, amended.  The Bin Collapser neither adds nor drops an input bin:
    the input bins split into consecutive non-empty groups, one per output
    bin, and every output cell is the float sum, accumulated in order from 0,
    of the cells of its group.  The sums over the bins agree exactly whenever
    these float sums are exact. *)
Theorem collapseBins_merges_groups n counts :
  rectangular n counts ->
  exists groups : list (list nat),
    concat groups = List.seq 0 n /\
    Forall (fun g => g <> []) groups /\
    length groups = binCount (collapseBins counts) /\
    (forall c overlap i j k,
       (c < length groups)%nat -> (overlap < 21)%nat ->
       (i < 2)%nat -> (j < 2)%nat -> (k < 2)%nat ->
       cell (collapseBins counts) overlap c i j k
       = fold_left F32.add (map (fun b => cell counts overlap b i j k) (nth c groups []))
           F32.zero) /\
    (forall overlap i j k,
       (forall c, (c < length groups)%nat ->
          (SF2Q (cell (collapseBins counts) overlap c i j k)
           == exactSum (map (fun b => cell counts overlap b i j k) (nth c groups [])))%Q) ->
       (exactSum (map (fun c => cell (collapseBins counts) overlap c i j k)
                    (List.seq 0 (binCount (collapseBins counts))))
        == exactSum (map (fun b => cell counts overlap b i j k) (List.seq 0 n)))%Q).
Proof.
  intros R. destruct (collapseBins_slices n counts R) as [Rout Hs].
  destruct (collapseSlices_groups (fun b => sliceAt b counts) (List.seq 0 n))
    as [_ (groups & Hc & Hn & He)].
  unfold slicesOf in Hs at 2. rewrite (rectangular_binCount _ _ R) in Hs.
  rewrite He in Hs.
  assert (Hlen : length groups = binCount (collapseBins counts)).
  { rewrite <- length_slicesOf, Hs. now rewrite length_map. }
  exists groups. split; [exact Hc|]. split; [exact Hn|]. split; [exact Hlen|]. split.
  - intros c overlap i j k Hcl Ho Hi Hj Hk.
    rewrite cell_sliceAt. rewrite <- nth_slicesOf by lia. rewrite Hs.
    rewrite (nth_indep _ [] (sumSlices (map (fun b => sliceAt b counts) [])))
      by now rewrite length_map.
    rewrite (map_nth (fun g => sumSlices (map (fun b => sliceAt b counts) g))).
    unfold sumSlices. rewrite cellOfSlice_fold; auto.
    + rewrite cellOfSlice_zeroSlice. f_equal. apply map_ext. intros b.
      now rewrite cell_sliceAt.
    + apply zeroSlice_shape.
    + intros b Hb.
      assert (Hbn : (b < n)%nat).
      { assert (Hin : In b (concat groups)).
        { apply in_concat. exists (nth c groups []). split; [now apply nth_In | exact Hb]. }
        rewrite Hc in Hin. apply in_seq in Hin. lia. }
      split.
      * rewrite length_sliceAt. exact (proj1 R).
      * apply sliceAt_shape. now apply (rectangular_columns n).
  - intros overlap i j k Hex. rewrite <- Hlen, <- Hc.
    now apply exactSum_groups.
Qed.

Lemma collapseBins_merges_groups_witness :
  exists groups : list (list nat),
    concat groups = [0; 1; 2]%nat /\ length groups = binCount (collapseBins fullCounts).
Proof.
  destruct (collapseBins_merges_groups 3 fullCounts (proj1 fullCounts_raw))
    as (groups & Hc & _ & Hl & _).
  exists groups. split; [exact Hc | exact Hl].
Defined.

(** ** Overlap Grouper: the height-score map during the scan *)

Lemma countOverlap_miss log10f maxHeightScore meanHeight maxHeight heightScorePlus plus st overlap :
  countOverlap log10f maxHeightScore meanHeight maxHeight heightScorePlus plus st (overlap, None)
  = st.
Proof. destruct st as [h [c|]]; reflexivity. Qed.

Lemma fold_countOverlap_misses log10f maxHeightScore meanHeight maxHeight heightScorePlus plus hits :
  Forall (fun hit : nat * option TCountsPosition => snd hit = None) hits ->
  forall st,
    fold_left (countOverlap log10f maxHeightScore meanHeight maxHeight heightScorePlus plus) hits st
    = st.
Proof.
  induction 1 as [|[o h] hits Hh _ IH]; intros st; simpl; [reflexivity|].
  simpl in Hh. subst h. now rewrite countOverlap_miss.
Qed.

Lemma countOverlap_fst log10f maxHeightScore meanHeight maxHeight heightScorePlus plus
    heightScoreMap counts overlap minus key :
  to_unsigned_int (reads minus) = Some key ->
  fst (countOverlap log10f maxHeightScore meanHeight maxHeight heightScorePlus plus
         (heightScoreMap, Some counts) (overlap, Some minus))
  = fst (smap_index F32.zero key heightScoreMap).
Proof.
  intros Hk. unfold countOverlap. rewrite Hk.
  destruct (smap_index F32.zero key heightScoreMap) as [h v].
  destruct (heightScoreBinOf _ _ _ _); reflexivity.
Qed.

Lemma halfFile_counts :
  countsOfFile halfFile
  = mkGenome [(0%N, [(100%N, mkPosition (S754_finite false 8388608 (-24)) true)])]
             [(0%N, [(110%N, mkPosition (S754_finite false 8388608 (-24)) true)])].
Proof. vm_compute. reflexivity. Qed.

Lemma halfFile_heights : heightsOfFile halfFile = [(1%N, F32.of_Z 2)].
Proof. vm_compute. reflexivity. Qed.

(** C2, the code at a failing input.  Two reads that are both reported at
    two places (NH:i:2), one on each strand, 10 nt apart: both positions have
    0.5 reads.  The Height-Score Mapper rounds 0.5 up and counts the two
    positions under height 1; the Overlap Grouper truncates 0.5 and looks
    height 0 up with [operator[]], which inserts it: after the scan the map
    has the additional key 0, with value 0. *)
Theorem height_score_map_is_modified log10f :
  heightsOfFile halfFile = [(1%N, F32.of_Z 2)] /\
  fst (groupFile log10f halfFile) = [(0%N, F32.zero); (1%N, F32.of_Z 2)].
Proof.
  split; [exact halfFile_heights|].
  unfold groupFile. rewrite halfFile_counts, halfFile_heights.
  unfold countStacksByGroup. cbn [maxHeightScoreOf strandPlus fold_left].
  unfold countContig. cbn [fst snd strandMinus].
  change (smap_find 0%N [(0%N, [(110%N, mkPosition (S754_finite false 8388608 (-24)) true)])])
    with (Some [(110%N, mkPosition (S754_finite false 8388608 (-24)) true)]).
  cbn [fold_left]. unfold countPosition. cbn [fst snd].
  set (v := scanVicinity _ _).
  assert (Hv : v = (repeat None 10 ++ [Some (mkPosition (S754_finite false 8388608 (-24)) true)]
                      ++ repeat None 10,
                    S754_finite false 8388608 (-24), S754_finite false 8388608 (-24)))
    by (vm_compute; reflexivity).
  rewrite Hv. clear v Hv.
  change (F32.ltb F32.zero (S754_finite false 8388608 (-24))) with true. cbn iota.
  change (to_unsigned_int (reads (mkPosition (S754_finite false 8388608 (-24)) true)))
    with (Some 0%N).
  cbn iota.
  change (smap_index F32.zero 0%N [(1%N, F32.of_Z 2)])
    with ([(0%N, F32.zero); (1%N, F32.of_Z 2)], F32.zero).
  cbn iota.
  set (hits := combine _ _).
  assert (Hh : hits = combine (List.seq 0 10) (repeat None 10)
                 ++ (10%nat, Some (mkPosition (S754_finite false 8388608 (-24)) true))
                 :: combine (List.seq 11 10) (repeat None 10))
    by (vm_compute; reflexivity).
  rewrite Hh. clear hits Hh.
  rewrite fold_left_app. cbn [fold_left].
  rewrite (fold_countOverlap_misses _ _ _ _ _ _ (combine (List.seq 0 10) (repeat None 10)))
    by (repeat constructor).
  rewrite fold_countOverlap_misses by (repeat constructor).
  rewrite (countOverlap_fst _ _ _ _ _ _ _ _ _ _ 0%N) by reflexivity.
  reflexivity.
Qed.

Lemma unevenFile_counts :
  countsOfFile unevenFile
  = mkGenome [(0%N, [(100%N, mkPosition F32.one true)])]
             [(0%N, [(110%N, mkPosition (F32.of_Z 2) true)])].
Proof. vm_compute. reflexivity. Qed.

Lemma unevenFile_heights : heightsOfFile unevenFile = [(1%N, F32.one); (2%N, F32.one)].
Proof. vm_compute. reflexivity. Qed.

(** C1, the code at a failing input.  One read on the plus strand and two
    reads 10 nt away on the minus strand: the smallest height occurs once,
    so [maxHeightScore = log10(1 * 1) = 0]; the score of the pair is
    [log10(1 * 1) / 0], not a number, and its conversion to [int] is
    undefined: no bin in [0, 999] is computed. *)
Theorem height_score_bin_undefined log10f :
  log10f F32.one = F32.zero ->
  heightsOfFile unevenFile = [(1%N, F32.one); (2%N, F32.one)] /\
  maxHeightScoreOf log10f (heightsOfFile unevenFile) = Some F32.zero /\
  heightScoreBinOf log10f F32.zero (F32.mul F32.one F32.one) HEIGHT_SCORE_BINS = None /\
  snd (groupFile log10f unevenFile) = None.
Proof.
  intros H1.
  split; [exact unevenFile_heights|].
  assert (Hbin : heightScoreBinOf log10f F32.zero (F32.mul F32.one F32.one) HEIGHT_SCORE_BINS = None).
  { unfold heightScoreBinOf. change (F32.mul F32.one F32.one) with F32.one.
    rewrite H1. reflexivity. }
  split; [|split; [exact Hbin|]].
  - rewrite unevenFile_heights. unfold maxHeightScoreOf.
    change (F32.mul F32.one F32.one) with F32.one. now rewrite H1.
  - unfold groupFile. rewrite unevenFile_counts, unevenFile_heights.
    unfold countStacksByGroup. cbn [maxHeightScoreOf strandPlus fold_left].
    change (F32.mul F32.one F32.one) with F32.one. rewrite H1.
    unfold countContig. cbn [fst snd strandMinus].
    change (smap_find 0%N [(0%N, [(110%N, mkPosition (F32.of_Z 2) true)])])
      with (Some [(110%N, mkPosition (F32.of_Z 2) true)]).
    cbn [fold_left]. unfold countPosition. cbn [fst snd].
    set (v := scanVicinity _ _).
    assert (Hv : v = (repeat None 10 ++ [Some (mkPosition (F32.of_Z 2) true)] ++ repeat None 10,
                      S754_finite false 8388608 (-22), S754_finite false 8388608 (-22)))
      by (vm_compute; reflexivity).
    rewrite Hv. clear v Hv.
    change (F32.ltb F32.zero (S754_finite false 8388608 (-22))) with true. cbn iota.
    change (to_unsigned_int (reads (mkPosition F32.one true))) with (Some 1%N).
    cbn iota.
    change (smap_index F32.zero 1%N [(1%N, F32.one); (2%N, F32.one)])
      with ([(1%N, F32.one); (2%N, F32.one)], F32.one).
    cbn iota.
    set (hits := combine _ _).
    assert (Hh : hits = combine (List.seq 0 10) (repeat None 10)
                   ++ (10%nat, Some (mkPosition (F32.of_Z 2) true))
                   :: combine (List.seq 11 10) (repeat None 10))
      by (vm_compute; reflexivity).
    rewrite Hh. clear hits Hh.
    rewrite fold_left_app. cbn [fold_left].
    rewrite (fold_countOverlap_misses _ _ _ _ _ _ (combine (List.seq 0 10) (repeat None 10)))
      by (repeat constructor).
    rewrite fold_countOverlap_misses by (repeat constructor).
    unfold countOverlap.
    change (to_unsigned_int (reads (mkPosition (F32.of_Z 2) true))) with (Some 2%N).
    cbn iota.
    change (smap_index F32.zero 2%N [(1%N, F32.one); (2%N, F32.one)])
      with ([(1%N, F32.one); (2%N, F32.one)], F32.one).
    cbn iota.
    change (length (nth 10 (emptyCounts HEIGHT_SCORE_BINS) [])) with HEIGHT_SCORE_BINS.
    rewrite Hbin. reflexivity.
Qed.

Lemma height_score_bin_undefined_witness :
  log10f_coarse F32.one = F32.zero /\ snd (groupFile log10f_coarse unevenFile) = None.
Proof.
  split; [reflexivity|].
  apply (height_score_bin_undefined log10f_coarse). reflexivity.
Defined.

(** ** Overlap Grouper: its histogram is a raw histogram *)

Lemma updateAt_length {A} n (f : A -> option A) v v' :
  updateAt n f v = Some v' -> length v' = length v.
Proof.
  revert n v'. induction v as [|x v IH]; intros [|n] v'; simpl; try discriminate.
  - destruct (f x); simpl; [|discriminate]. now intros [= <-].
  - destruct (updateAt n f v) eqn:E; simpl; [|discriminate].
    intros [= <-]. simpl. f_equal. now apply (IH n).
Qed.

Lemma updateAt_Forall {A} (P : A -> Prop) n (f : A -> option A) v v' :
  (forall a a', P a -> f a = Some a' -> P a') ->
  Forall P v -> updateAt n f v = Some v' -> Forall P v'.
Proof.
  intros Hf Hv. revert n v'. induction Hv as [|x v Px Hv IH]; intros [|n] v'; simpl;
    try discriminate.
  - destruct (f x) eqn:E; simpl; [|discriminate]. intros [= <-].
    constructor; [now apply (Hf x) | assumption].
  - destruct (updateAt n f v) eqn:E; simpl; [|discriminate]. intros [= <-].
    constructor; [assumption | now apply (IH n)].
Qed.

Lemma updateCell_raw n overlap bin i j k f counts counts' :
  (forall x, nonneg x = true -> nonneg (f x) = true) ->
  rawHistogram n counts ->
  updateCell overlap bin i j k f counts = Some counts' ->
  rawHistogram n counts'.
Proof.
  intros Hf [[L F] N] H. unfold updateCell in H. unfold allCells in N.
  assert (Hall : Forall (fun g => (length g = n /\ Forall binShape g) /\
                                  Forall (Forall (Forall (Forall (fun x => nonneg x = true)))) g)
                   counts).
  { rewrite Forall_forall in *. intros g Hg. split; [now apply F | now apply N]. }
  assert (Hall' : Forall (fun g => (length g = n /\ Forall binShape g) /\
                                   Forall (Forall (Forall (Forall (fun x => nonneg x = true)))) g)
                    counts').
  { eapply updateAt_Forall; [|exact Hall|exact H].
    intros g g' [[Lg Sg] Ng] Hg.
    assert (Hb : Forall (fun b => binShape b /\ nonnegBin b) g).
    { rewrite Forall_forall in *. intros b Hb. split; [now apply Sg | now apply Ng]. }
    assert (Hb' : Forall (fun b => binShape b /\ nonnegBin b) g').
    { eapply updateAt_Forall; [|exact Hb|exact Hg].
      intros b b' [[Lb Sb] Nb] Hbb.
      assert (Hr : Forall (fun r => (length r = 2%nat /\ Forall (fun c => length c = 2%nat) r)
                                    /\ Forall (Forall (fun x => nonneg x = true)) r) b).
      { unfold nonnegBin in Nb. rewrite Forall_forall in *. intros r Hr.
        split; [now apply Sb | now apply Nb]. }
      assert (Hr' : Forall (fun r => (length r = 2%nat /\ Forall (fun c => length c = 2%nat) r)
                                     /\ Forall (Forall (fun x => nonneg x = true)) r) b').
      { eapply updateAt_Forall; [|exact Hr|exact Hbb].
        intros r r' [[Lr Sr] Nr] Hrr.
        assert (Hc : Forall (fun c => length c = 2%nat /\ Forall (fun x => nonneg x = true) c) r).
        { rewrite Forall_forall in *. intros c Hc. split; [now apply Sr | now apply Nr]. }
        assert (Hc' : Forall (fun c => length c = 2%nat /\ Forall (fun x => nonneg x = true) c) r').
        { eapply updateAt_Forall; [|exact Hc|exact Hrr].
          intros c c' [Lc Nc] Hcc. split.
          - now rewrite (updateAt_length _ _ _ _ Hcc).
          - eapply updateAt_Forall; [|exact Nc|exact Hcc].
            intros x x' Hx [= <-]. now apply Hf. }
        split; [split|].
        - now rewrite (updateAt_length _ _ _ _ Hrr).
        - eapply Forall_impl; [|exact Hc']. now intros c [? _].
        - eapply Forall_impl; [|exact Hc']. now intros c [_ ?]. }
      split; [split|].
      - now rewrite (updateAt_length _ _ _ _ Hbb).
      - eapply Forall_impl; [|exact Hr']. now intros r [? _].
      - unfold nonnegBin. eapply Forall_impl; [|exact Hr']. now intros r [_ ?]. }
    split; [split|].
    - now rewrite (updateAt_length _ _ _ _ Hg).
    - eapply Forall_impl; [|exact Hb']. now intros b [? _].
    - eapply Forall_impl; [|exact Hb']. now intros b [_ ?]. }
  split; [split|].
  - now rewrite (updateAt_length _ _ _ _ H).
  - eapply Forall_impl; [|exact Hall']. now intros g [? _].
  - unfold allCells. eapply Forall_impl; [|exact Hall']. now intros g [_ ?].
Qed.

Lemma addDouble_nonneg c x : nonneg c = true -> nonneg x = true -> nonneg (addDouble c x) = true.
Proof.
  intros Hc Hx. unfold addDouble. apply float_of_double_nonneg.
  apply SFadd_nonneg; [now apply double_of_float_nonneg | assumption].
Qed.

Lemma addBackground_raw n overlap bin localBin counts counts' :
  rawHistogram n counts -> addBackground overlap bin localBin counts = Some counts' ->
  rawHistogram n counts'.
Proof.
  unfold addBackground. intros R H.
  destruct (updateCell overlap bin IS_URIDINE IS_URIDINE localBin _ counts) as [c1|] eqn:E1;
    [|discriminate].
  destruct (updateCell overlap bin IS_NOT_URIDINE IS_URIDINE localBin _ c1) as [c2|] eqn:E2;
    [|discriminate].
  destruct (updateCell overlap bin IS_URIDINE IS_NOT_URIDINE localBin _ c2) as [c3|] eqn:E3;
    [|discriminate].
  eapply updateCell_raw in E1; [| intros x; now apply addDouble_nonneg | exact R].
  eapply updateCell_raw in E2; [| intros x; now apply addDouble_nonneg | exact E1].
  eapply updateCell_raw in E3; [| intros x; now apply addDouble_nonneg | exact E2].
  eapply updateCell_raw in H; [exact H | intros x; now apply addDouble_nonneg | exact E3].
Qed.

Lemma addPingPong_raw n overlap bin uPlus uMinus localBin counts counts' :
  rawHistogram n counts ->
  addPingPong overlap bin uPlus uMinus localBin counts = Some counts' ->
  rawHistogram n counts'.
Proof.
  unfold addPingPong. intros R H.
  eapply updateCell_raw in H; [exact H | | exact R].
  intros x Hx. now apply SFadd_nonneg.
Qed.

Lemma countOverlap_raw n log10f maxHeightScore meanHeight maxHeight heightScorePlus plus st hit :
  (forall counts, snd st = Some counts -> rawHistogram n counts) ->
  forall counts',
    snd (countOverlap log10f maxHeightScore meanHeight maxHeight heightScorePlus plus st hit)
    = Some counts' -> rawHistogram n counts'.
Proof.
  intros Hst counts'. unfold countOverlap.
  destruct st as [h [c|]]; destruct hit as [o [minus|]]; simpl in *; try (intros; now apply Hst).
  destruct (to_unsigned_int (reads minus)); simpl; [|discriminate].
  destruct (smap_index F32.zero n0 h) as [h' v].
  destruct (heightScoreBinOf _ _ _ _) as [bin|]; simpl; [|discriminate].
  destruct (o =? PING_PONG_OVERLAP)%nat; intros H.
  - eapply addPingPong_raw; [|exact H]. now apply Hst.
  - eapply addBackground_raw; [|exact H]. now apply Hst.
Qed.

Lemma fold_raw {A} n (step : GroupState -> A -> GroupState) l :
  (forall st a, (forall counts, snd st = Some counts -> rawHistogram n counts) ->
                forall counts', snd (step st a) = Some counts' -> rawHistogram n counts') ->
  forall st, (forall counts, snd st = Some counts -> rawHistogram n counts) ->
             forall counts', snd (fold_left step l st) = Some counts' -> rawHistogram n counts'.
Proof.
  intros Hstep. induction l as [|a l IH]; intros st Hst counts'; simpl.
  - apply Hst.
  - apply IH. intros c. now apply Hstep.
Qed.

(** The histogram that [countStacksByGroup] returns is a raw histogram of
    [HEIGHT_SCORE_BINS] bins. *)
Lemma countStacksByGroup_raw log10f readCounts heightScoreMap counts :
  snd (countStacksByGroup log10f readCounts heightScoreMap) = Some counts ->
  rawHistogram HEIGHT_SCORE_BINS counts.
Proof.
  unfold countStacksByGroup.
  destruct (maxHeightScoreOf log10f heightScoreMap) as [maxHeightScore|]; [|discriminate].
  apply fold_raw.
  - intros st [contig contigPlus] Hst counts'. unfold countContig. simpl.
    destruct (smap_find contig (strandMinus readCounts)) as [contigMinus|]; [|apply Hst].
    apply fold_raw; [|exact Hst].
    intros st' position Hst' c'. unfold countPosition.
    destruct st' as [h [c|]]; [|apply Hst'].
    destruct (scanVicinity contigMinus (fst position)) as [[stacks sumHeight] maxHeight].
    destruct (F32.ltb F32.zero maxHeight); [|apply Hst'].
    destruct (to_unsigned_int (reads (snd position))); [|discriminate].
    destruct (smap_index F32.zero n h) as [h' v].
    apply fold_raw.
    + intros st'' hit. apply countOverlap_raw.
    + simpl. intros c0 [= <-]. now apply Hst'.
  - simpl. intros c [= <-]. apply emptyCounts_raw.
Qed.

(** ** Floating point: counting in single precision *)

Lemma digits2_pos_shift k p :
  Z.pos (digits2_pos (Nat.iter k xO p)) = Z.pos (digits2_pos p) + Z.of_nat k.
Proof.
  induction k as [|k IH].
  - simpl. lia.
  - rewrite Nat.iter_succ. cbn [digits2_pos]. rewrite Pos2Z.inj_succ, IH. lia.
Qed.

Lemma digits2_pos_bound p :
  2 ^ (Z.pos (digits2_pos p) - 1) <= Z.pos p < 2 ^ Z.pos (digits2_pos p).
Proof.
  induction p as [p IH|p IH|]; cbn [digits2_pos].
  - rewrite Pos2Z.inj_succ. replace (Z.succ (Z.pos (digits2_pos p)) - 1) with (Z.pos (digits2_pos p)) by lia.
    rewrite Z.pow_succ_r by lia.
    replace (Z.pos (digits2_pos p)) with (Z.succ (Z.pos (digits2_pos p) - 1)) at 1 by lia.
    rewrite Z.pow_succ_r by lia. lia.
  - rewrite Pos2Z.inj_succ. replace (Z.succ (Z.pos (digits2_pos p)) - 1) with (Z.pos (digits2_pos p)) by lia.
    rewrite Z.pow_succ_r by lia.
    replace (Z.pos (digits2_pos p)) with (Z.succ (Z.pos (digits2_pos p) - 1)) at 1 by lia.
    rewrite Z.pow_succ_r by lia. lia.
  - simpl. lia.
Qed.

Lemma digits2_pos_le p n : Z.pos p < 2 ^ n -> 0 <= n -> Z.pos (digits2_pos p) <= n.
Proof.
  intros Hp Hn. destruct (digits2_pos_bound p) as [Hl _].
  destruct (Z_le_gt_dec (Z.pos (digits2_pos p)) n) as [|Hgt]; [assumption|].
  exfalso. assert (2 ^ n <= 2 ^ (Z.pos (digits2_pos p) - 1)) by (apply Z.pow_le_mono_r; lia).
  lia.
Qed.

Lemma iter_pos_nat {A} (f : A -> A) p x : iter_pos f p x = Nat.iter (Pos.to_nat p) f x.
Proof.
  revert x. induction p as [p IH|p IH|]; intros x; cbn [iter_pos].
  - rewrite !IH. rewrite Pos2Nat.inj_xI.
    replace (S (2 * Pos.to_nat p)) with (Pos.to_nat p + (Pos.to_nat p + 1))%nat by lia.
    rewrite !Nat.iter_add. reflexivity.
  - rewrite !IH. rewrite Pos2Nat.inj_xO.
    replace (2 * Pos.to_nat p)%nat with (Pos.to_nat p + Pos.to_nat p)%nat by lia.
    now rewrite Nat.iter_add.
  - reflexivity.
Qed.

Lemma iter_shr_1 j : forall k q,
  (j <= k)%nat ->
  Nat.iter j shr_1 (Build_shr_record (Z.pos (Nat.iter k xO q)) false false)
  = Build_shr_record (Z.pos (Nat.iter (k - j) xO q)) false false.
Proof.
  induction j as [|j IH]; intros k q H.
  - now rewrite Nat.sub_0_r.
  - rewrite Nat.iter_succ, IH by lia.
    replace (k - j)%nat with (S (k - S j)) by lia.
    rewrite Nat.iter_succ. reflexivity.
Qed.

Lemma iter_xO_value k p : Z.pos (Nat.iter k xO p) = Z.pos p * 2 ^ Z.of_nat k.
Proof.
  induction k as [|k IH].
  - simpl. lia.
  - rewrite Nat.iter_succ, Pos2Z.inj_xO, IH, Nat2Z.inj_succ, Z.pow_succ_r by lia. lia.
Qed.

Lemma iter_xO_add k p q : (Nat.iter k xO p + Nat.iter k xO q)%positive = Nat.iter k xO (p + q)%positive.
Proof. induction k as [|k IH]; [reflexivity|]. rewrite !Nat.iter_succ. simpl. now rewrite IH. Qed.

(** rounding a mantissa [q * 2^k] that fits is exact *)
Lemma binary_round_aux_exact q k e n :
  fexp 24 128 (Z.pos (digits2_pos q) + Z.of_nat k + e) - e = Z.of_nat n ->
  (n <= k)%nat -> e + Z.of_nat n <= 104 ->
  binary_round_aux 24 128 false (Z.pos (Nat.iter k xO q)) e loc_Exact
  = S754_finite false (Nat.iter (k - n) xO q) (e + Z.of_nat n).
Proof.
  intros Hn Hk He. unfold binary_round_aux.
  assert (H1 : shr_fexp 24 128 (Z.pos (Nat.iter k xO q)) e loc_Exact
               = (Build_shr_record (Z.pos (Nat.iter (k - n) xO q)) false false, e + Z.of_nat n)).
  { unfold shr_fexp. cbn [Zdigits2 shr_record_of_loc]. rewrite digits2_pos_shift, Hn.
    unfold shr. destruct n as [|n].
    - simpl. now rewrite Nat.sub_0_r, Z.add_0_r.
    - change (Z.of_nat (S n)) with (Z.pos (Pos.of_succ_nat n)). cbn iota.
      rewrite iter_pos_nat, SuccNat2Pos.id_succ. now rewrite iter_shr_1. }
  rewrite H1. cbn [shr_m loc_of_shr_record round_nearest_even].
  assert (H2 : shr_fexp 24 128 (Z.pos (Nat.iter (k - n) xO q)) (e + Z.of_nat n) loc_Exact
               = (Build_shr_record (Z.pos (Nat.iter (k - n) xO q)) false false, e + Z.of_nat n)).
  { unfold shr_fexp. cbn [Zdigits2 shr_record_of_loc]. rewrite digits2_pos_shift.
    replace (Z.pos (digits2_pos q) + Z.of_nat (k - n) + (e + Z.of_nat n))
      with (Z.pos (digits2_pos q) + Z.of_nat k + e) by lia.
    replace (fexp 24 128 (Z.pos (digits2_pos q) + Z.of_nat k + e) - (e + Z.of_nat n)) with 0 by lia.
    reflexivity. }
  rewrite H2. cbn [shr_m].
  replace (e + Z.of_nat n <=? 128 - 24) with true by (symmetry; apply Z.leb_le; lia).
  reflexivity.
Qed.

Lemma pos_iter_nat {A} (f : A -> A) x k : Pos.iter f x k = Nat.iter (Pos.to_nat k) f x.
Proof. apply Pos2Nat.inj_iter. Qed.

Lemma fexp_small d : 1 <= d <= 25 -> fexp 24 128 d = d - 24.
Proof. intros H. unfold fexp, emin. lia. Qed.

Lemma of_Z_intFloat p :
  Z.pos (digits2_pos p) <= 24 -> F32.of_Z (Z.pos p) = intFloat p.
Proof.
  intros Hd. unfold F32.of_Z, binary_normalize, binary_round, F32.prec, F32.emax, intFloat.
  pose proof (Pos2Z.is_pos (digits2_pos p)) as Hpos.
  rewrite Z.add_0_r, fexp_small by lia.
  assert (Hal : shl_align p 0 (Z.pos (digits2_pos p) - 24)
                = (Nat.iter (24 - Pos.to_nat (digits2_pos p)) xO p, Z.pos (digits2_pos p) - 24)).
  { unfold shl_align. rewrite Z.sub_0_r.
    destruct (Z.pos (digits2_pos p) - 24) as [|k|k] eqn:E; try lia.
    - replace (24 - Pos.to_nat (digits2_pos p))%nat with O by lia. reflexivity.
    - rewrite pos_iter_nat.
      replace (Pos.to_nat k) with (24 - Pos.to_nat (digits2_pos p))%nat by lia. reflexivity. }
  rewrite Hal.
  rewrite (binary_round_aux_exact p _ _ 0).
  - rewrite Nat.sub_0_r, Z.add_0_r.
    replace (Z.of_nat (Pos.to_nat (digits2_pos p))) with (Z.pos (digits2_pos p)) by lia.
    reflexivity.
  - rewrite fexp_small by lia. lia.
  - lia.
  - lia.
Qed.

Lemma shl_align_int p :
  Z.pos (digits2_pos p) <= 24 ->
  fst (shl_align (Nat.iter (24 - Pos.to_nat (digits2_pos p)) xO p)
         (Z.of_nat (Pos.to_nat (digits2_pos p)) - 24) (-23))
  = Nat.iter 23 xO p.
Proof.
  intros Hd. pose proof (Pos2Z.is_pos (digits2_pos p)) as Hpos. unfold shl_align.
  destruct (-23 - (Z.of_nat (Pos.to_nat (digits2_pos p)) - 24)) as [|k|k] eqn:E; try lia.
  - unfold fst. replace (24 - Pos.to_nat (digits2_pos p))%nat with 23%nat by lia. reflexivity.
  - unfold fst. rewrite pos_iter_nat, <- Nat.iter_add.
    replace (Pos.to_nat k + (24 - Pos.to_nat (digits2_pos p)))%nat with 23%nat by lia.
    reflexivity.
Qed.

Lemma increment_intFloat p :
  Z.pos (digits2_pos (p + 1)) <= 24 -> Z.pos (digits2_pos p) <= 24 ->
  increment (intFloat p) = intFloat (p + 1).
Proof.
  intros Hd' Hd.
  pose proof (Pos2Z.is_pos (digits2_pos p)) as Hpos.
  assert (Hd2 : 2 <= Z.pos (digits2_pos (p + 1))).
  { destruct (digits2_pos_bound (p + 1)) as [_ Hu].
    destruct (Z_le_gt_dec 2 (Z.pos (digits2_pos (p + 1)))) as [|Hlt]; [assumption|].
    assert (Z.pos (digits2_pos (p + 1)) = 1) by lia.
    rewrite H in Hu. simpl in Hu. lia. }
  unfold increment, F32.add, intFloat.
  change (F32.of_Z 1) with (S754_finite false (Nat.iter 23 xO 1%positive) (-23)).
  unfold SFadd, F32.prec, F32.emax.
  replace (Z.min (Z.of_nat (Pos.to_nat (digits2_pos p)) - 24) (-23)) with (-23) by lia.
  rewrite shl_align_int by assumption.
  change (fst (shl_align (Nat.iter 23 xO 1%positive) (-23) (-23))) with (Nat.iter 23 xO 1%positive).
  cbn [cond_Zopp Z.add]. rewrite iter_xO_add.
  unfold binary_normalize, binary_round.
  rewrite digits2_pos_shift.
  replace (Z.pos (digits2_pos (p + 1)) + Z.of_nat 23 + -23) with (Z.pos (digits2_pos (p + 1))) by lia.
  rewrite fexp_small by lia.
  assert (Hal : shl_align (Nat.iter 23 xO (p + 1)%positive) (-23) (Z.pos (digits2_pos (p + 1)) - 24)
                = (Nat.iter 23 xO (p + 1)%positive, -23)).
  { unfold shl_align.
    destruct (Z.pos (digits2_pos (p + 1)) - 24 - -23) as [|k|k] eqn:E; try lia; reflexivity. }
  rewrite Hal.
  rewrite (binary_round_aux_exact (p + 1) 23 (-23) (Pos.to_nat (digits2_pos (p + 1)) - 1)).
  - replace (23 - (Pos.to_nat (digits2_pos (p + 1)) - 1))%nat
      with (24 - Pos.to_nat (digits2_pos (p + 1)))%nat by lia.
    replace (-23 + Z.of_nat (Pos.to_nat (digits2_pos (p + 1)) - 1))
      with (Z.of_nat (Pos.to_nat (digits2_pos (p + 1))) - 24) by lia.
    reflexivity.
  - replace (Z.pos (digits2_pos (p + 1)) + Z.of_nat 23 + -23) with (Z.pos (digits2_pos (p + 1))) by lia.
    rewrite fexp_small by lia. lia.
  - lia.
  - lia.
Qed.

Lemma SF2Q_intFloat p :
  Z.pos (digits2_pos p) <= 24 -> (SF2Q (intFloat p) == inject_Z (Z.pos p))%Q.
Proof.
  intros Hd. pose proof (Pos2Z.is_pos (digits2_pos p)) as Hpos.
  unfold intFloat, SF2Q.
  destruct (Z.of_nat (Pos.to_nat (digits2_pos p)) - 24) as [|k|k] eqn:E; try lia.
  - replace (24 - Pos.to_nat (digits2_pos p))%nat with O by lia.
    unfold Qeq, inject_Z. simpl. lia.
  - unfold Qeq, inject_Z. cbn [Qnum Qden].
    rewrite iter_xO_value. rewrite Pos2Z.inj_pow.
    replace (Z.of_nat (24 - Pos.to_nat (digits2_pos p))) with (Z.pos k) by lia. lia.
Qed.

Lemma small_digits n : 0 < n < 2 ^ 24 -> Z.pos (digits2_pos (Z.to_pos n)) <= 24.
Proof. intros H. apply digits2_pos_le; [|lia]. rewrite Z2Pos.id; lia. Qed.

(** Counting by [increment] is exact up to 2^24 and stays there. *)
Lemma increment_counts n :
  Z.of_nat n <= 2 ^ 24 -> Nat.iter n increment F32.zero = F32.of_Z (Z.of_nat n).
Proof.
  induction n as [|n IH]; intros Hn; [reflexivity|].
  rewrite Nat.iter_succ, IH by lia.
  destruct n as [|n]; [reflexivity|].
  destruct (Z.eq_dec (Z.of_nat (S (S n))) (2 ^ 24)) as [E|E].
  - replace (Z.of_nat (S n)) with 16777215 by lia. rewrite E. vm_compute. reflexivity.
  - assert (Hs : 0 < Z.of_nat (S n) < 2 ^ 24) by lia.
    assert (Hs' : 0 < Z.of_nat (S (S n)) < 2 ^ 24) by lia.
    rewrite <- (Z2Pos.id (Z.of_nat (S n))) by lia.
    rewrite <- (Z2Pos.id (Z.of_nat (S (S n)))) by lia.
    rewrite !of_Z_intFloat by now apply small_digits.
    replace (Z.to_pos (Z.of_nat (S (S n)))) with (Z.to_pos (Z.of_nat (S n)) + 1)%positive by lia.
    apply increment_intFloat.
    + replace (Z.to_pos (Z.of_nat (S n)) + 1)%positive with (Z.to_pos (Z.of_nat (S (S n)))) by lia.
      now apply small_digits.
    + now apply small_digits.
Qed.

Lemma increment_saturates n :
  2 ^ 24 <= Z.of_nat n -> Nat.iter n increment F32.zero = F32.of_Z (2 ^ 24).
Proof.
  induction n as [|n IH]; intros Hn; [simpl in Hn; lia|].
  destruct (Z_lt_le_dec (Z.of_nat n) (2 ^ 24)) as [Hlt|Hge].
  - rewrite increment_counts by lia. f_equal. lia.
  - rewrite Nat.iter_succ, IH by assumption. vm_compute. reflexivity.
Qed.

Lemma of_Z_exact n : 0 <= n <= 2 ^ 24 -> (SF2Q (F32.of_Z n) == inject_Z n)%Q.
Proof.
  intros H. destruct (Z.eq_dec n 0) as [->|H0]; [reflexivity|].
  destruct (Z.eq_dec n (2 ^ 24)) as [->|H1]; [reflexivity|].
  rewrite <- (Z2Pos.id n) by lia.
  rewrite of_Z_intFloat by (apply small_digits; lia).
  apply SF2Q_intFloat. apply small_digits. lia.
Qed.

(** ** Height-Score Mapper *)

Lemma fold_left_concat {A B} (f : A -> B -> A) ls : forall acc,
  fold_left (fun acc l => fold_left f l acc) ls acc = fold_left f (concat ls) acc.
Proof.
  induction ls as [|l ls IH]; intros acc; simpl; [reflexivity|].
  now rewrite IH, fold_left_app.
Qed.

Lemma fold_left_mapped {A B C} (f : A -> B -> A) (g : C -> B) l : forall acc,
  fold_left f (map g l) acc = fold_left (fun a x => f a (g x)) l acc.
Proof. induction l as [|x l IH]; intros acc; simpl; auto. Qed.

Lemma mapHeightsToScores_flat readCounts heightScoreMap :
  mapHeightsToScores readCounts heightScoreMap
  = fold_left bumpHeight (allPositions readCounts) (Some heightScoreMap).
Proof.
  unfold mapHeightsToScores, allPositions. cbn [fold_left].
  unfold mapHeightsOfStrand, mapHeightsOfContig.
  rewrite fold_left_app.
  rewrite <- !fold_left_concat. rewrite !fold_left_mapped. reflexivity.
Qed.

Lemma fold_bumpHeight_None ps : fold_left bumpHeight ps None = None.
Proof. induction ps as [|p ps IH]; simpl; auto. Qed.

Lemma fold_bumpHeight_find ps : forall m m' h,
  fold_left bumpHeight ps (Some m) = Some m' ->
  smap_find h m'
  = match length (filter (hasHeight h) ps) with
    | O => smap_find h m
    | S c => Some (Nat.iter (S c) increment
                     (match smap_find h m with Some v => v | None => F32.zero end))
    end.
Proof.
  induction ps as [|p ps IH]; intros m m' h; simpl.
  - now intros [= <-].
  - unfold hasHeight at 1. destruct (roundedHeight p) as [k|] eqn:Ek.
    + intros H. rewrite (IH _ _ h H).
      destruct (N.eqb_spec k h) as [->|Hne].
      * rewrite smap_find_modify_same. simpl length.
        destruct (length (filter (hasHeight h) ps)) as [|c]; [reflexivity|].
        now rewrite <- Nat.iter_succ_r.
      * now rewrite smap_find_modify_other by congruence.
    + rewrite fold_bumpHeight_None. discriminate.
Qed.

Lemma fold_bumpHeight_total ps : forall m,
  Forall (fun p => roundedHeight p <> None) ps ->
  exists m', fold_left bumpHeight ps (Some m) = Some m'.
Proof.
  induction ps as [|p ps IH]; intros m H; simpl.
  - now exists m.
  - inversion H as [|? ? Hp Hps]; subst.
    destruct (roundedHeight p) as [k|]; [|contradiction]. now apply IH.
Qed.

(** the entries of the map that the Height-Score Mapper returns *)
Lemma mapHeightsToScores_entries readCounts :
  Forall (fun p => roundedHeight p <> None) (allPositions readCounts) ->
  exists heightScoreMap,
    mapHeightsToScores readCounts [] = Some heightScoreMap /\
    forall h,
      let c := heightCount h readCounts in
      (c = O -> smap_find h heightScoreMap = None) /\
      (c <> O -> smap_find h heightScoreMap = Some (Nat.iter c increment F32.zero)).
Proof.
  intros Hall.
  destruct (fold_bumpHeight_total _ [] Hall) as [m Hm].
  exists m. split; [now rewrite mapHeightsToScores_flat|].
  intros h c.
  pose proof (fold_bumpHeight_find _ _ _ h Hm) as Hf. fold (heightCount h readCounts) in Hf.
  fold c in Hf. cbn [smap_find] in Hf.
  split.
  - intros Hc. now rewrite Hc in Hf.
  - intros Hc. destruct c as [|c']; [contradiction | exact Hf].
Qed.

(** C6, amended.  When every height is in the range of [unsigned int], the
    Height-Score Mapper returns a map that has no entry for a height without
    positions and, for a height with [c] positions (both strands, all
    contigs, reads rounded half-up), the float obtained by adding 1 to 0 [c]
    times: exactly [c] as long as [c <= 2^24], and 2^24 from there on. *)
Theorem heightScoreMap_counts readCounts :
  Forall (fun p => roundedHeight p <> None) (allPositions readCounts) ->
  exists heightScoreMap,
    mapHeightsToScores readCounts [] = Some heightScoreMap /\
    forall h,
      let c := heightCount h readCounts in
      (c = O -> smap_find h heightScoreMap = None) /\
      (c <> O -> smap_find h heightScoreMap = Some (Nat.iter c increment F32.zero)) /\
      (c <> O -> Z.of_nat c <= 2 ^ 24 ->
       smap_find h heightScoreMap = Some (F32.of_Z (Z.of_nat c)) /\
       (SF2Q (F32.of_Z (Z.of_nat c)) == inject_Z (Z.of_nat c))%Q) /\
      (2 ^ 24 <= Z.of_nat c -> smap_find h heightScoreMap = Some (F32.of_Z (2 ^ 24))).
Proof.
  intros Hall.
  destruct (mapHeightsToScores_entries readCounts Hall) as (m & Hm & Hh).
  exists m. split; [exact Hm|].
  intros h c. destruct (Hh h) as [Hzero Hpos]. fold c in Hzero, Hpos.
  split; [exact Hzero|split; [exact Hpos|split]].
  - intros Hc Hle. split.
    + rewrite Hpos by assumption. now rewrite increment_counts.
    + apply of_Z_exact. lia.
  - intros Hge. rewrite Hpos.
    + now rewrite increment_saturates.
    + intros Hc. rewrite Hc in Hge. simpl in Hge. lia.
Qed.

Lemma manyGenome_positions n :
  allPositions (manyGenome n) = map (fun _ => mkPosition F32.one false) (List.seq 0 n).
Proof.
  unfold allPositions, manyGenome, manyPositions, smap_values.
  cbn [strandPlus strandMinus map concat fst snd]. rewrite !app_nil_r.
  now rewrite map_map.
Qed.

Lemma manyGenome_valid n :
  Forall (fun p => roundedHeight p <> None) (allPositions (manyGenome n)).
Proof.
  rewrite manyGenome_positions. apply Forall_forall. intros p Hp.
  apply in_map_iff in Hp. destruct Hp as (i & <- & _). discriminate.
Qed.

Lemma manyGenome_count n : heightCount 1 (manyGenome n) = n.
Proof.
  unfold heightCount. rewrite manyGenome_positions.
  transitivity (length (List.seq 0 n)); [|apply length_seq].
  induction (List.seq 0 n) as [|i l IH]; [reflexivity|].
  cbn [map filter]. change (hasHeight 1 (mkPosition F32.one false)) with true.
  cbn [length]. now rewrite IH.
Qed.

(** C6, counterexample.  With 2^24 + 1 positions of height 1 the entry for
    height 1 is the float 2^24: adding 1 to the float 2^24 gives 2^24. *)
Lemma exactHeightCount_counterexample : ~ exactHeightCountClaim.
Proof.
  intros H.
  destruct (mapHeightsToScores_entries (manyGenome (Z.to_nat (2 ^ 24 + 1))) (manyGenome_valid _))
    as (m & Hm & Hh).
  specialize (H _ m 1%N Hm).
  destruct (Hh 1%N) as (_ & Hpos).
  rewrite manyGenome_count in Hpos, H.
  rewrite Hpos in H by lia.
  rewrite increment_saturates in H by lia.
  destruct H as [_ H].
  rewrite Z2Nat.id in H by lia.
  clear - H. vm_compute in H. discriminate H.
Qed.

Lemma heightScoreMap_counts_witness :
  exists heightScoreMap,
    mapHeightsToScores (countsOfFile pairFile) [] = Some heightScoreMap /\
    smap_find 1 heightScoreMap = Some (F32.of_Z 2) /\
    smap_find 2 heightScoreMap = None.
Proof.
  destruct (heightScoreMap_counts (countsOfFile pairFile)) as (m & Hm & Hh).
  - repeat constructor; discriminate.
  - exists m. split; [exact Hm|]. split.
    + destruct (Hh 1%N) as (_ & _ & H & _).
      apply (proj1 (H ltac:(discriminate) ltac:(vm_compute; discriminate))).
    + destruct (Hh 2%N) as (H & _). now apply H.
Defined.

(** ** Rounding to nearest, on integers

    The values of floats and the exact results of the operations are
    measured in units of [2^-K], for a [K] so large that every float of
    the formats in use is an integer number of units. *)

(** ** Height-score bins

    The bin index is computed with three roundings (a division and a
    multiplication in binary32, an addition in binary64) and a truncation.
    Each of them is monotone; the proof goes through the integer that a
    rounding to nearest returns. *)

Lemma Zdigits2_bound z : 0 < z -> 2 ^ (Zdigits2 z - 1) <= z < 2 ^ Zdigits2 z.
Proof. destruct z as [|p|p]; try lia. intros _. apply digits2_pos_bound. Qed.

Lemma Zdigits2_nonneg z : 0 <= Zdigits2 z.
Proof. destruct z; simpl; lia. Qed.

Lemma Zdigits2_pos z : 0 < z -> 0 < Zdigits2 z.
Proof. destruct z; simpl; lia. Qed.

Lemma Zdigits2_le z n : 0 <= z < 2 ^ n -> 0 <= n -> Zdigits2 z <= n.
Proof.
  intros [H0 H] Hn. destruct z as [|p|p]; simpl; try lia.
  now apply digits2_pos_le.
Qed.

Lemma Zdigits2_ge z n : 2 ^ (n - 1) <= z -> 0 < z -> n <= Zdigits2 z.
Proof.
  intros H Hz. destruct (Zdigits2_bound z Hz) as [_ Hu].
  destruct (Z_le_gt_dec n (Zdigits2 z)) as [|Hgt]; [assumption|exfalso].
  pose proof (Zdigits2_nonneg z).
  assert (2 ^ Zdigits2 z <= 2 ^ (n - 1)) by (apply Z.pow_le_mono_r; lia). lia.
Qed.

Lemma Zdigits2_unique z d : 2 ^ (d - 1) <= z < 2 ^ d -> 0 < z -> Zdigits2 z = d.
Proof.
  intros [Hl Hu] Hz.
  assert (0 <= d).
  { destruct (Z_le_gt_dec 0 d); [assumption|]. rewrite Z.pow_neg_r in Hu by lia. lia. }
  pose proof (Zdigits2_le z d ltac:(lia) ltac:(lia)). pose proof (Zdigits2_ge z d Hl Hz). lia.
Qed.

Lemma Zdigits2_mono a b : 0 <= a <= b -> Zdigits2 a <= Zdigits2 b.
Proof.
  intros [Ha Hab]. destruct (Z.eq_dec a 0) as [->|Hn]; [apply Zdigits2_nonneg|].
  apply Zdigits2_le; [|apply Zdigits2_nonneg].
  destruct (Zdigits2_bound b ltac:(lia)). lia.
Qed.

Lemma roundQuotient_range N D : N / D <= roundQuotient N D <= N / D + 1.
Proof.
  unfold roundQuotient, round_nearest_even, locationOf.
  destruct (N mod D =? 0); [lia|]. destruct (2 * (N mod D) ?= D); [destruct (Z.even (N / D))| |]; lia.
Qed.

Lemma div_cross N1 D1 N2 D2 :
  0 < D1 -> 0 < D2 -> N1 * D2 <= N2 * D1 -> N1 / D1 <= N2 / D2.
Proof.
  intros H1 H2 H. apply Z.div_le_lower_bound; [assumption|].
  pose proof (Z.mul_div_le N1 D1 H1). nia.
Qed.

Lemma roundQuotient_mono N1 D1 N2 D2 :
  0 < D1 -> 0 < D2 -> N1 * D2 <= N2 * D1 -> roundQuotient N1 D1 <= roundQuotient N2 D2.
Proof.
  intros H1 H2 H. pose proof (div_cross _ _ _ _ H1 H2 H) as Hq.
  destruct (Z.eq_dec (N1 / D1) (N2 / D2)) as [E|NE].
  2:{ pose proof (roundQuotient_range N1 D1). pose proof (roundQuotient_range N2 D2). lia. }
  unfold roundQuotient, round_nearest_even, locationOf. rewrite <- E.
  pose proof (Z.div_mod N1 D1 ltac:(lia)) as M1. pose proof (Z.div_mod N2 D2 ltac:(lia)) as M2.
  pose proof (Z.mod_pos_bound N1 D1 H1) as B1. pose proof (Z.mod_pos_bound N2 D2 H2) as B2.
  rewrite <- E in M2.
  set (q := N1 / D1) in *. set (r1 := N1 mod D1) in *. set (r2 := N2 mod D2) in *.
  assert (Hr : r1 * D2 <= r2 * D1) by nia.
  destruct (Z.eqb_spec r1 0) as [Z1|Z1]; destruct (Z.eqb_spec r2 0) as [Z2|Z2].
  - lia.
  - destruct (2 * r2 ?= D2); [destruct (Z.even q)| |]; lia.
  - exfalso. nia.
  - destruct (Z.compare_spec (2 * r1) D1) as [C1|C1|C1];
      destruct (Z.compare_spec (2 * r2) D2) as [C2|C2|C2];
      try (destruct (Z.even q)); try lia; exfalso; nia.
Qed.

Lemma pow2_pos n : 0 < 2 ^ n \/ (n < 0 /\ 2 ^ n = 0).
Proof.
  destruct (Z_le_gt_dec 0 n); [left; apply Z.pow_pos_nonneg; lia|right; split; [lia|apply Z.pow_neg_r; lia]].
Qed.

Lemma pow2_split a b : 0 <= a -> 0 <= b -> 2 ^ (a + b) = 2 ^ a * 2 ^ b.
Proof. intros. apply Z.pow_add_r; lia. Qed.

Section RoundingOrder.
Variables prec emax K : Z.
Hypothesis prec_pos : 0 < prec.
Hypothesis scale_ok : 0 <= emin prec emax + K.

Lemma scaledExponent_nonneg N D : 0 <= scaledExponent prec emax K N D.
Proof. unfold scaledExponent. lia. Qed.

Lemma roundScaled_mono N1 D1 N2 D2 :
  0 <= N1 -> 0 < D1 -> 0 < D2 -> N1 * D2 <= N2 * D1 ->
  roundScaled prec emax K N1 D1 <= roundScaled prec emax K N2 D2.
Proof.
  intros HN H1 H2 H. pose proof (div_cross _ _ _ _ H1 H2 H) as HF.
  assert (HF1 : 0 <= N1 / D1) by (apply Z.div_pos; lia).
  pose proof (Zdigits2_mono _ _ (conj HF1 HF)) as Hg.
  unfold roundScaled, scaledExponent.
  set (g1 := Zdigits2 (N1 / D1)) in *. set (g2 := Zdigits2 (N2 / D2)) in *.
  assert (HE1 : 0 <= Z.max (g1 - prec) (emin prec emax + K)) by lia.
  assert (HE2 : 0 <= Z.max (g2 - prec) (emin prec emax + K)) by lia.
  assert (HE : Z.max (g1 - prec) (emin prec emax + K) <= Z.max (g2 - prec) (emin prec emax + K)) by lia.
  assert (HE2' : Z.max (g1 - prec) (emin prec emax + K) <> Z.max (g2 - prec) (emin prec emax + K) ->
                 Z.max (g2 - prec) (emin prec emax + K) = g2 - prec /\ g1 < g2) by lia.
  set (E1 := Z.max (g1 - prec) (emin prec emax + K)) in *.
  set (E2 := Z.max (g2 - prec) (emin prec emax + K)) in *.
  assert (P1 : 0 < 2 ^ E1) by (apply Z.pow_pos_nonneg; lia).
  assert (P2 : 0 < 2 ^ E2) by (apply Z.pow_pos_nonneg; lia).
  destruct (Z.eq_dec E1 E2) as [EE|NE].
  - rewrite <- EE. apply Z.mul_le_mono_nonneg_r; [lia|].
    apply roundQuotient_mono; nia.
  - destruct (HE2' NE) as [HE2'' Hg12]. clear HE2'.
    assert (Hg1 : 0 <= g1) by apply Zdigits2_nonneg.
    assert (HF2 : 0 < N2 / D2).
    { destruct (Z.eq_dec (N2 / D2) 0) as [Z0|]; [|lia]. unfold g2 in Hg12. rewrite Z0 in Hg12. simpl in Hg12. lia. }
    transitivity (2 ^ (g2 - 1)).
    + (* upper bound of the lower value *)
      pose proof (roundQuotient_range N1 (D1 * 2 ^ E1)) as [_ Hu].
      rewrite <- Z.div_div in Hu by lia.
      assert (Hlt : N1 / D1 < 2 ^ g1).
      { destruct (Z.eq_dec (N1 / D1) 0) as [Z0|].
        - rewrite Z0. apply Z.pow_pos_nonneg; lia.
        - apply Zdigits2_bound. lia. }
      assert (Hb : (N1 / D1 / 2 ^ E1 + 1) * 2 ^ E1 <= 2 ^ (g2 - 1)).
      { destruct (Z_le_gt_dec g1 E1) as [Hle|Hgt].
        - assert (2 ^ g1 <= 2 ^ E1) by (apply Z.pow_le_mono_r; lia).
          rewrite Z.div_small by lia.
          rewrite Z.mul_1_l. apply Z.pow_le_mono_r; lia.
        - assert (Hs : 2 ^ g1 = 2 ^ (g1 - E1) * 2 ^ E1).
          { rewrite <- Z.pow_add_r by lia. f_equal. lia. }
          assert (N1 / D1 / 2 ^ E1 < 2 ^ (g1 - E1)).
          { apply Z.div_lt_upper_bound; [lia|]. lia. }
          assert (2 ^ g1 <= 2 ^ (g2 - 1)) by (apply Z.pow_le_mono_r; lia).
          nia. }
      nia.
    + pose proof (roundQuotient_range N2 (D2 * 2 ^ E2)) as [Hl _].
      rewrite <- Z.div_div in Hl by lia.
      destruct (Zdigits2_bound _ HF2) as [Hlo _]. fold g2 in Hlo.
      assert (Hs : 2 ^ (g2 - 1) = 2 ^ (g2 - 1 - E2) * 2 ^ E2).
      { rewrite <- Z.pow_add_r by lia. f_equal. lia. }
      assert (2 ^ (g2 - 1 - E2) <= N2 / D2 / 2 ^ E2).
      { apply Z.div_le_lower_bound; [lia|]. lia. }
      nia.
Qed.

End RoundingOrder.

(** what the shifts of [binary_round_aux] compute *)

Lemma shr_m_of_loc m l : shr_m (shr_record_of_loc m l) = m.
Proof. destruct l as [|[]]; reflexivity. Qed.

Lemma loc_of_shr_record_of_loc m l : loc_of_shr_record (shr_record_of_loc m l) = l.
Proof. destruct l as [|[]]; reflexivity. Qed.

Lemma locationOf_scale r D c : 0 < c -> locationOf (r * c) (D * c) = locationOf r D.
Proof.
  intros Hc. unfold locationOf.
  destruct (Z.eqb_spec r 0) as [->|Hr].
  - reflexivity.
  - destruct (Z.eqb_spec (r * c) 0) as [H0|_]; [nia|].
    f_equal. rewrite Z.mul_assoc.
    destruct (Z.compare_spec (2 * r) D) as [C|C|C].
    + apply Z.compare_eq_iff. nia.
    + apply Z.compare_lt_iff. nia.
    + apply Z.compare_gt_iff. nia.
Qed.

Lemma roundQuotient_scale N D c : 0 < D -> 0 < c -> roundQuotient (N * c) (D * c) = roundQuotient N D.
Proof.
  intros HD Hc. unfold roundQuotient.
  rewrite Z.div_mul_cancel_r by lia. rewrite Z.mul_mod_distr_r by lia.
  now rewrite locationOf_scale.
Qed.

Lemma shr_1_step N D :
  0 <= N -> 0 < D ->
  shr_1 (shr_record_of_loc (N / D) (locationOf (N mod D) D))
  = shr_record_of_loc (N / (D * 2)) (locationOf (N mod (D * 2)) (D * 2)).
Proof.
  intros HN HD.
  rewrite <- Z.div_div by lia. rewrite Z.rem_mul_r by lia.
  pose proof (Z.mod_pos_bound N D HD) as Hr.
  assert (Hq : 0 <= N / D) by (apply Z.div_pos; lia).
  set (q := N / D) in *. set (r := N mod D) in *.
  assert (Hcases : (q / 2 = 0 /\ q mod 2 = 0 /\ q = 0) \/
                   (exists p, q = Z.pos p~0 /\ q / 2 = Z.pos p /\ q mod 2 = 0) \/
                   (exists p, q = Z.pos p~1 /\ q / 2 = Z.pos p /\ q mod 2 = 1) \/
                   (q = 1 /\ q / 2 = 0 /\ q mod 2 = 1)).
  { destruct q as [|[p|p|]|p]; try lia.
    - left. auto.
    - right. right. left. exists p. split; [reflexivity|].
      split; [symmetry; apply Z.div_unique with 1; lia|symmetry; apply Z.mod_unique with (Z.pos p); lia].
    - right. left. exists p. split; [reflexivity|].
      split; [symmetry; apply Z.div_unique with 0; lia|symmetry; apply Z.mod_unique with (Z.pos p); lia].
    - right. right. right. auto. }
  unfold locationOf.
  destruct Hcases as [(-> & -> & ->)|[(p & -> & -> & ->)|[(p & -> & -> & ->)|(-> & -> & ->)]]];
    rewrite ?Z.mul_0_r, ?Z.mul_1_r, ?Z.add_0_r;
    destruct (Z.eqb_spec r 0) as [R0|R0].
  - reflexivity.
  - replace (2 * r ?= D * 2) with Lt by (symmetry; apply Z.compare_lt_iff; lia).
    destruct (2 * r ?= D); reflexivity.
  - reflexivity.
  - replace (2 * r ?= D * 2) with Lt by (symmetry; apply Z.compare_lt_iff; lia).
    destruct (2 * r ?= D); reflexivity.
  - rewrite R0. simpl (0 + D). destruct (Z.eqb_spec D 0) as [|_]; [lia|].
    replace (2 * D ?= D * 2) with Eq by (symmetry; apply Z.compare_eq_iff; lia).
    reflexivity.
  - destruct (Z.eqb_spec (r + D) 0) as [|_]; [lia|].
    replace (2 * (r + D) ?= D * 2) with Gt by (symmetry; apply Z.compare_gt_iff; lia).
    destruct (2 * r ?= D); reflexivity.
  - rewrite R0. simpl (0 + D). destruct (Z.eqb_spec D 0) as [|_]; [lia|].
    replace (2 * D ?= D * 2) with Eq by (symmetry; apply Z.compare_eq_iff; lia).
    reflexivity.
  - destruct (Z.eqb_spec (r + D) 0) as [|_]; [lia|].
    replace (2 * (r + D) ?= D * 2) with Gt by (symmetry; apply Z.compare_gt_iff; lia).
    destruct (2 * r ?= D); reflexivity.
Qed.

Lemma shr_iter N D n :
  0 <= N -> 0 < D ->
  Nat.iter n shr_1 (shr_record_of_loc (N / D) (locationOf (N mod D) D))
  = shr_record_of_loc (N / (D * 2 ^ Z.of_nat n))
      (locationOf (N mod (D * 2 ^ Z.of_nat n)) (D * 2 ^ Z.of_nat n)).
Proof.
  intros HN HD. induction n as [|n IH].
  - simpl. now rewrite Z.mul_1_r.
  - rewrite Nat.iter_succ, IH.
    assert (0 < 2 ^ Z.of_nat n) by (apply Z.pow_pos_nonneg; lia).
    rewrite shr_1_step by nia.
    rewrite Nat2Z.inj_succ, Z.pow_succ_r by lia.
    replace (D * 2 ^ Z.of_nat n * 2) with (D * (2 * 2 ^ Z.of_nat n)) by lia.
    reflexivity.
Qed.

Lemma shr_spec N D e n :
  0 <= N -> 0 < D -> 0 <= n ->
  shr (shr_record_of_loc (N / D) (locationOf (N mod D) D)) e n
  = (shr_record_of_loc (N / (D * 2 ^ n)) (locationOf (N mod (D * 2 ^ n)) (D * 2 ^ n)), e + n).
Proof.
  intros HN HD Hn. unfold shr. destruct n as [|p|p]; try lia.
  - now rewrite Z.mul_1_r, Z.add_0_r.
  - rewrite iter_pos_nat, shr_iter by assumption. now rewrite positive_nat_Z.
Qed.

Lemma Zdigits2_div_pow q n :
  0 <= n -> 0 < q / 2 ^ n -> Zdigits2 (q / 2 ^ n) = Zdigits2 q - n.
Proof.
  intros Hn Hq.
  assert (P : 0 < 2 ^ n) by (apply Z.pow_pos_nonneg; lia).
  assert (Hq0 : 0 < q).
  { destruct (Z_le_gt_dec q 0); [|lia]. assert (q / 2 ^ n <= 0) by (apply Z.div_le_upper_bound; nia). lia. }
  destruct (Zdigits2_bound q Hq0) as [Hl Hu].
  assert (Hge : 2 ^ n <= q).
  { destruct (Z_le_gt_dec (2 ^ n) q); [assumption|]. rewrite Z.div_small in Hq by lia. lia. }
  assert (Hd : n < Zdigits2 q).
  { destruct (Z_le_gt_dec (Zdigits2 q) n); [|lia].
    assert (2 ^ Zdigits2 q <= 2 ^ n) by (apply Z.pow_le_mono_r; lia). lia. }
  apply Zdigits2_unique; [|assumption]. split.
  - apply Z.div_le_lower_bound; [assumption|].
    rewrite <- Z.pow_add_r by lia. replace (n + (Zdigits2 q - n - 1)) with (Zdigits2 q - 1) by lia. assumption.
  - apply Z.div_lt_upper_bound; [assumption|].
    rewrite <- Z.pow_add_r by lia. replace (n + (Zdigits2 q - n)) with (Zdigits2 q) by lia. assumption.
Qed.

Lemma Zdigits2_scaled A B s :
  0 < B -> 0 <= s -> 0 < A / B -> Zdigits2 (A * 2 ^ s / B) = Zdigits2 (A / B) + s.
Proof.
  intros HB Hs Hq.
  assert (P : 0 < 2 ^ s) by (apply Z.pow_pos_nonneg; lia).
  destruct (Zdigits2_bound _ Hq) as [Hl Hu].
  pose proof (Zdigits2_pos _ Hq) as Hd.
  set (d := Zdigits2 (A / B)) in *.
  assert (HlA : 2 ^ (d - 1) * B <= A).
  { pose proof (Z.mul_div_le A B HB). nia. }
  assert (HuA : A < 2 ^ d * B).
  { destruct (Z_lt_le_dec A (2 ^ d * B)) as [|Hge]; [assumption|].
    assert (2 ^ d <= A / B) by (apply Z.div_le_lower_bound; lia). lia. }
  assert (Hpos : 0 < A * 2 ^ s / B).
  { assert (2 ^ (d - 1) * 2 ^ s <= A * 2 ^ s / B) by (apply Z.div_le_lower_bound; nia).
    assert (0 < 2 ^ (d - 1)) by (apply Z.pow_pos_nonneg; lia). nia. }
  apply Zdigits2_unique; [|assumption]. split.
  - replace (d + s - 1) with ((d - 1) + s) by lia. rewrite Z.pow_add_r by lia.
    apply Z.div_le_lower_bound; nia.
  - rewrite Z.pow_add_r by lia. apply Z.div_lt_upper_bound; nia.
Qed.

Lemma shr_1_even z : 0 < z ->
  shr_1 (Build_shr_record (2 * z) false false) = Build_shr_record z false false.
Proof. destruct z; try lia. reflexivity. Qed.

Section RoundingValue.
Variables prec emax K : Z.
Hypothesis prec_pos : 0 < prec.
Hypothesis scale_ok : 0 <= emin prec emax + K.

Lemma roundScaled_value A B e :
  0 <= A -> 0 < B -> 0 <= e + K ->
  e <= fexp prec emax (Zdigits2 (A / B) + e) ->
  (A / B = 0 -> e <= emin prec emax) ->
  roundScaled prec emax K (A * 2 ^ (e + K)) B
  = roundQuotient A (B * 2 ^ (fexp prec emax (Zdigits2 (A / B) + e) - e))
    * 2 ^ (fexp prec emax (Zdigits2 (A / B) + e) + K).
Proof.
  intros HA HB Hs Hn Hq0. set (E := fexp prec emax (Zdigits2 (A / B) + e)) in *.
  assert (P : 0 < 2 ^ (e + K)) by (apply Z.pow_pos_nonneg; lia).
  assert (HsE : scaledExponent prec emax K (A * 2 ^ (e + K)) B = E + K).
  { unfold scaledExponent. destruct (Z.eq_dec (A / B) 0) as [Z0|NZ].
    - assert (HAB : A < B).
      { apply Z.div_small_iff in Z0; lia. }
      assert (Zdigits2 (A * 2 ^ (e + K) / B) <= e + K).
      { apply Zdigits2_le; [split; [apply Z.div_pos; nia|apply Z.div_lt_upper_bound; nia]|lia]. }
      specialize (Hq0 Z0). subst E. rewrite Z0 in *. simpl (Zdigits2 0) in *. unfold fexp in *. lia.
    - assert (0 <= A / B) by (apply Z.div_pos; lia).
      rewrite Zdigits2_scaled by lia. subst E. unfold fexp. lia. }
  unfold roundScaled. rewrite HsE. f_equal.
  replace (B * 2 ^ (E + K)) with (B * 2 ^ (E - e) * 2 ^ (e + K)).
  - apply roundQuotient_scale; [|assumption].
    assert (0 < 2 ^ (E - e)) by (apply Z.pow_pos_nonneg; lia). nia.
  - rewrite <- Z.mul_assoc, <- Z.pow_add_r by lia. do 2 f_equal. lia.
Qed.

Lemma binary_round_aux_spec A B e :
  0 <= A -> 0 < B -> 0 <= e + K ->
  e <= fexp prec emax (Zdigits2 (A / B) + e) ->
  (A / B = 0 -> e <= emin prec emax) ->
  binary_round_aux prec emax false (A / B) e (locationOf (A mod B) B) = S754_infinity false \/
  (finiteNonneg (binary_round_aux prec emax false (A / B) e (locationOf (A mod B) B)) = true /\
   valid_binary prec emax (binary_round_aux prec emax false (A / B) e (locationOf (A mod B) B)) = true /\
   scaledValue K (binary_round_aux prec emax false (A / B) e (locationOf (A mod B) B))
   = roundScaled prec emax K (A * 2 ^ (e + K)) B).
Proof.
  intros HA HB Hs Hn Hq0. rewrite roundScaled_value by assumption.
  unfold binary_round_aux, shr_fexp.
  set (E := fexp prec emax (Zdigits2 (A / B) + e)) in *.
  rewrite shr_spec by lia.
  cbv beta iota.
  rewrite shr_m_of_loc, loc_of_shr_record_of_loc.
  fold (roundQuotient A (B * 2 ^ (E - e))).
  replace (e + (E - e)) with E by lia.
  assert (Pn : 0 < 2 ^ (E - e)) by (apply Z.pow_pos_nonneg; lia).
  pose proof (roundQuotient_range A (B * 2 ^ (E - e))) as Hrange.
  assert (Hq' : A / (B * 2 ^ (E - e)) = A / B / 2 ^ (E - e)) by (rewrite Z.div_div; lia).
  assert (Hq'0 : 0 <= A / (B * 2 ^ (E - e))) by (apply Z.div_pos; nia).
  assert (HqAB : 0 <= A / B) by (apply Z.div_pos; lia).
  assert (HEmin : emin prec emax <= E) by (subst E; unfold fexp; lia).
  assert (F3 : A / (B * 2 ^ (E - e)) = 0 -> E = emin prec emax).
  { intros Z0. destruct (Z.eq_dec (A / B) 0) as [Z1|NZ].
    - specialize (Hq0 Z1). subst E. rewrite Z1. simpl (Zdigits2 0). unfold fexp. lia.
    - rewrite Hq' in Z0. apply Z.div_small_iff in Z0; [|lia].
      assert (Zdigits2 (A / B) <= E - e) by (apply Zdigits2_le; lia).
      subst E. unfold fexp in *. lia. }
  assert (F4 : 0 < A / (B * 2 ^ (E - e)) ->
               Zdigits2 (A / (B * 2 ^ (E - e))) + E = Zdigits2 (A / B) + e).
  { intros Hpos. rewrite Hq' in *. rewrite Zdigits2_div_pow by lia. lia. }
  set (q' := A / (B * 2 ^ (E - e))) in *.
  set (q'' := roundQuotient A (B * 2 ^ (E - e))) in *.
  destruct (Z.eq_dec q'' 0) as [Z2|NZ2].
  { (* the result is zero *)
    rewrite Z2. simpl (Zdigits2 0). rewrite Z.add_0_l.
    assert (E = emin prec emax) by (apply F3; lia).
    replace (fexp prec emax E - E) with 0 by (unfold fexp; lia).
    right. simpl. auto. }
  assert (Hq''pos : 0 < q'') by lia.
  pose proof (Zdigits2_bound _ Hq''pos) as Hb''.
  pose proof (Zdigits2_pos _ Hq''pos) as Hd''.
  destruct (Z.eq_dec (fexp prec emax (Zdigits2 q'' + E)) E) as [C|NC].
  - (* no carry out of the format *)
    rewrite C, Z.sub_diag. unfold shr. cbv beta iota. rewrite shr_m_of_loc.
    destruct q'' as [|m|m] eqn:Eq; try lia.
    destruct (Z.leb_spec E (emax - prec)) as [Hle|Hgt]; [right|left; reflexivity].
    split; [reflexivity|]. split; [|reflexivity].
    unfold valid_binary, bounded, canonical_mantissa. simpl (Zdigits2 (Z.pos m)) in C.
    rewrite C, Z.eqb_refl. simpl. apply Z.leb_le. assumption.
  - (* the rounded mantissa has one digit more *)
    assert (Hpos' : 0 < q').
    { destruct (Z.eq_dec q' 0) as [Z0|]; [|lia]. exfalso.
      assert (q'' = 1) by lia. specialize (F3 Z0).
      apply NC. replace q'' with 1 by lia. simpl (Zdigits2 1). unfold fexp. lia. }
    specialize (F4 Hpos').
    pose proof (Zdigits2_bound _ Hpos') as Hb'.
    assert (Hcan : fexp prec emax (Zdigits2 q' + E) = E) by (rewrite F4; reflexivity).
    assert (Hd1 : Zdigits2 q' <= Zdigits2 q'') by (apply Zdigits2_mono; lia).
    assert (Hd2 : Zdigits2 q'' <= Zdigits2 q' + 1).
    { apply Zdigits2_le; [|pose proof (Zdigits2_nonneg q'); lia].
      rewrite Z.pow_add_r by (pose proof (Zdigits2_nonneg q'); lia). lia. }
    assert (Hd3 : Zdigits2 q'' = Zdigits2 q' + 1).
    { destruct (Z.eq_dec (Zdigits2 q'') (Zdigits2 q')) as [Ed|]; [|lia].
      exfalso. apply NC. rewrite Ed. assumption. }
    assert (Hprec : Zdigits2 q' = prec /\ fexp prec emax (Zdigits2 q'' + E) = E + 1).
    { rewrite Hd3 in *. unfold fexp in *. lia. }
    destruct Hprec as [Hp HE1].
    assert (Hq''v : q'' = 2 * 2 ^ (prec - 1)).
    { rewrite Hd3, Hp in Hb''. rewrite Hp in Hb'.
      replace (prec + 1 - 1) with prec in Hb'' by lia.
      replace (2 * 2 ^ (prec - 1)) with (2 ^ Z.succ (prec - 1)) by (rewrite Z.pow_succ_r; lia).
      replace (Z.succ (prec - 1)) with prec by lia. lia. }
    rewrite HE1. replace (E + 1 - E) with 1 by lia.
    unfold shr. cbv beta iota. unfold iter_pos, shr_record_of_loc.
    assert (Ppow : 0 < 2 ^ (prec - 1)) by (apply Z.pow_pos_nonneg; lia).
    rewrite Hq''v. rewrite shr_1_even by assumption.
    unfold shr_m.
    destruct (2 ^ (prec - 1)) as [|m|m] eqn:Em; try lia.
    destruct (Z.leb_spec (E + 1) (emax - prec)) as [Hle|Hgt]; [right|left; reflexivity].
    split; [reflexivity|]. split.
    + unfold valid_binary, bounded, canonical_mantissa.
      assert (Hdm : Z.pos (digits2_pos m) = prec).
      { change (Z.pos (digits2_pos m)) with (Zdigits2 (Z.pos m)). rewrite <- Em.
        apply Zdigits2_unique; [|lia]. split; [lia|].
        apply Z.pow_lt_mono_r; lia. }
      rewrite Hdm. replace (fexp prec emax (prec + (E + 1))) with (E + 1) by (unfold fexp; lia).
      rewrite Z.eqb_refl. simpl. apply Z.leb_le. assumption.
    + unfold scaledValue. replace (E + 1 + K) with (Z.succ (E + K)) by lia.
      rewrite Z.pow_succ_r by lia. lia.
Qed.

End RoundingValue.

(** the operations of the program on values that are not negative: the
    result is the exact result, rounded *)

Lemma roundScaled_scale prec emax K N D c :
  0 <= emin prec emax + K ->
  0 < D -> 0 < c -> roundScaled prec emax K (N * c) (D * c) = roundScaled prec emax K N D.
Proof.
  intros HK HD Hc. unfold roundScaled, scaledExponent. rewrite Z.div_mul_cancel_r by lia.
  set (E := Z.max (Zdigits2 (N / D) - prec) (emin prec emax + K)).
  assert (P : 0 < 2 ^ E) by (apply Z.pow_pos_nonneg; lia).
  f_equal. replace (D * c * 2 ^ E) with (D * 2 ^ E * c) by lia.
  apply roundQuotient_scale; nia.
Qed.

Lemma roundScaled_zero prec emax K D : roundScaled prec emax K 0 D = 0.
Proof. unfold roundScaled, roundQuotient, Z.div, Z.modulo. reflexivity. Qed.

Lemma valid_finite_facts prec emax s m e :
  valid_binary prec emax (S754_finite s m e) = true ->
  emin prec emax <= e <= emax - prec /\
  Z.pos (digits2_pos m) <= prec /\
  (emin prec emax < e -> Z.pos (digits2_pos m) = prec).
Proof.
  unfold valid_binary, bounded, canonical_mantissa. intros H.
  apply andb_true_iff in H. destruct H as [H1 H2].
  apply Z.eqb_eq in H1. apply Z.leb_le in H2. unfold fexp in H1. lia.
Qed.

Lemma shl_align_spec m e e' :
  snd (shl_align m e e') = Z.min e e' /\
  Z.pos (fst (shl_align m e e')) = Z.pos m * 2 ^ (e - Z.min e e') /\
  Z.pos (digits2_pos (fst (shl_align m e e'))) = Z.pos (digits2_pos m) + (e - Z.min e e').
Proof.
  unfold shl_align. destruct (e' - e) as [|d|d] eqn:Ed; cbn [fst snd].
  - replace (Z.min e e') with e by lia. rewrite Z.sub_diag, Z.mul_1_r. lia.
  - replace (Z.min e e') with e by lia. rewrite Z.sub_diag, Z.mul_1_r. lia.
  - replace (Z.min e e') with e' by lia.
    rewrite pos_iter_nat, iter_xO_value, digits2_pos_shift, positive_nat_Z.
    replace (e - e') with (Z.pos d) by lia. lia.
Qed.

Lemma div_eucl_div_mod a b : Z.div_eucl a b = (a / b, a mod b).
Proof. unfold Z.div, Z.modulo. now destruct (Z.div_eucl a b). Qed.

Lemma new_location_locationOf B r : 0 < B -> 0 <= r < B -> new_location B r = locationOf r B.
Proof.
  intros HB Hr. unfold new_location, new_location_even, new_location_odd, locationOf.
  destruct (Z.even B) eqn:Ev; [reflexivity|].
  destruct (Z.eqb_spec r 0) as [|Hr0]; [reflexivity|]. f_equal.
  assert (Hodd : Z.odd B = true) by (rewrite <- Z.negb_even, Ev; reflexivity).
  apply Z.odd_spec in Hodd. destruct Hodd as [k Hk].
  destruct (Z.compare_spec (2 * r + 1) B) as [C|C|C];
    destruct (Z.compare_spec (2 * r) B) as [C'|C'|C']; try reflexivity; lia.
Qed.

Lemma shifted_mantissa m s :
  0 <= s ->
  match s with 0 => m | Z.pos _ => Z.shiftl m s | Z.neg _ => 0 end = m * 2 ^ s.
Proof.
  intros Hs. destruct s as [|p|p]; [lia| |lia].
  now rewrite Z.shiftl_mul_pow2 by lia.
Qed.

Section Operations.
Variables prec emax K : Z.
Hypothesis prec_pos : 0 < prec.
Hypothesis prec_lt_emax : prec < emax.
Hypothesis scale_large : 2 * emax + 2 * prec <= K.

Lemma scale_covers_emin : 0 <= emin prec emax + K.
Proof. unfold emin. lia. Qed.

Lemma binary_round_spec m e :
  0 <= e + K ->
  roundsTo prec emax K (binary_round prec emax false m e) (Z.pos m * 2 ^ (e + K)) 1.
Proof.
  pose proof scale_covers_emin as scale_ok.
  intros He. unfold binary_round.
  destruct (shl_align_spec m e (fexp prec emax (Z.pos (digits2_pos m) + e))) as (S1 & S2 & S3).
  destruct (shl_align m e (fexp prec emax (Z.pos (digits2_pos m) + e))) as [mz ez].
  cbn [fst snd] in *.
  pose proof (binary_round_aux_spec prec emax K prec_pos scale_covers_emin (Z.pos mz) 1 ez) as H.
  rewrite Z.div_1_r, Z.mod_1_r in H. change (locationOf 0 1) with loc_Exact in H.
  assert (Hmin : emin prec emax <= fexp prec emax (Z.pos (digits2_pos m) + e)) by (unfold fexp; lia).
  unfold roundsTo.
  replace (Z.pos m * 2 ^ (e + K)) with (Z.pos mz * 2 ^ (ez + K)).
  - apply H; try lia.
    change (Zdigits2 (Z.pos mz)) with (Z.pos (digits2_pos mz)). rewrite S3.
    replace (Z.pos (digits2_pos m) + (e - Z.min e (fexp prec emax (Z.pos (digits2_pos m) + e))) + ez)
      with (Z.pos (digits2_pos m) + e) by lia. lia.
  - rewrite S2, <- Z.mul_assoc, <- Z.pow_add_r by lia. do 2 f_equal. lia.
Qed.

Lemma SFmul_spec x y :
  finiteNonneg x = true -> finiteNonneg y = true ->
  valid_binary prec emax x = true -> valid_binary prec emax y = true ->
  roundsTo prec emax K (SFmul prec emax x y) (scaledValue K x * scaledValue K y) (2 ^ K).
Proof.
  pose proof scale_covers_emin as scale_ok.
  intros Fx Fy Vx Vy.
  assert (PK : 0 < 2 ^ K) by (apply Z.pow_pos_nonneg; lia).
  assert (Hz : forall s N, N = 0 -> roundsTo prec emax K (S754_zero s) N (2 ^ K)).
  { intros s N ->. right. rewrite roundScaled_zero. auto. }
  destruct x as [sx|[]| |[] mx ex]; try discriminate; destruct y as [sy|[]| |[] my ey]; try discriminate;
    try (apply Hz; simpl; lia).
  cbn [SFmul xorb].
  destruct (valid_finite_facts _ _ _ _ _ Vx) as (Ex & Dx & Cx).
  destruct (valid_finite_facts _ _ _ _ _ Vy) as (Ey & Dy & Cy).
  pose proof (binary_round_aux_spec prec emax K prec_pos scale_covers_emin (Z.pos (mx * my)) 1 (ex + ey)) as H.
  rewrite Z.div_1_r, Z.mod_1_r in H. change (locationOf 0 1) with loc_Exact in H.
  unfold roundsTo.
  replace (roundScaled prec emax K
             (scaledValue K (S754_finite false mx ex) * scaledValue K (S754_finite false my ey))
             (2 ^ K))
    with (roundScaled prec emax K (Z.pos (mx * my) * 2 ^ (ex + ey + K)) 1).
  - apply H; try lia; try (unfold emin in *; lia).
    change (Zdigits2 (Z.pos (mx * my))) with (Z.pos (digits2_pos (mx * my))).
    assert (Hd : Z.pos (digits2_pos mx) + Z.pos (digits2_pos my) - 1 <= Z.pos (digits2_pos (mx * my))).
    { change (Z.pos (digits2_pos (mx * my))) with (Zdigits2 (Z.pos (mx * my))).
      apply Zdigits2_ge; [|lia].
      destruct (digits2_pos_bound mx) as [Lx _]. destruct (digits2_pos_bound my) as [Ly _].
      replace (Z.pos (digits2_pos mx) + Z.pos (digits2_pos my) - 1 - 1)
        with ((Z.pos (digits2_pos mx) - 1) + (Z.pos (digits2_pos my) - 1)) by lia.
      rewrite Z.pow_add_r by lia. rewrite Pos2Z.inj_mul.
      assert (0 < 2 ^ (Z.pos (digits2_pos mx) - 1)) by (apply Z.pow_pos_nonneg; lia).
      assert (0 < 2 ^ (Z.pos (digits2_pos my) - 1)) by (apply Z.pow_pos_nonneg; lia).
      nia. }
    unfold fexp, emin in *. lia.
  - rewrite <- (roundScaled_scale prec emax K _ 1 (2 ^ K)) by (try apply scale_covers_emin; lia). f_equal; [|lia].
    unfold scaledValue. rewrite Pos2Z.inj_mul.
    replace (ex + ey + K) with ((ex + K) + ey) by lia.
    assert (E1 : 2 ^ (ex + K + ey) * 2 ^ K = 2 ^ (ex + K) * 2 ^ (ey + K)).
    { rewrite <- !Z.pow_add_r by (unfold emin in *; lia). f_equal. lia. }
    nia.
Qed.

Lemma SFdiv_spec x y :
  finiteNonneg x = true -> 0 < scaledValue K y ->
  valid_binary prec emax x = true -> valid_binary prec emax y = true ->
  roundsTo prec emax K (SFdiv prec emax x y) (scaledValue K x * 2 ^ K) (scaledValue K y).
Proof.
  pose proof scale_covers_emin as scale_ok.
  intros Fx Py Vx Vy.
  assert (PK : 0 < 2 ^ K) by (apply Z.pow_pos_nonneg; lia).
  destruct y as [sy|sy| |[] my ey]; try (simpl in Py; lia).
  destruct x as [sx|[]| |[] mx ex]; try discriminate.
  { right. cbn [SFdiv scaledValue]. rewrite Z.mul_0_l, roundScaled_zero. auto. }
  cbn [SFdiv xorb].
  destruct (valid_finite_facts _ _ _ _ _ Vx) as (Ex & Dx & Cx).
  destruct (valid_finite_facts _ _ _ _ _ Vy) as (Ey & Dy & Cy).
  unfold SFdiv_core_binary.
  change (Zdigits2 (Z.pos mx)) with (Z.pos (digits2_pos mx)).
  change (Zdigits2 (Z.pos my)) with (Z.pos (digits2_pos my)).
  set (d1 := Z.pos (digits2_pos mx)) in *. set (d2 := Z.pos (digits2_pos my)) in *.
  set (e' := Z.min (fexp prec emax (d1 + ex - (d2 + ey))) (ex - ey)).
  set (s := ex - ey - e').
  assert (Hs : 0 <= s) by (unfold s, e'; lia).
  assert (Hm' : match s with 0 => Z.pos mx | Z.pos _ => Z.shiftl (Z.pos mx) s | Z.neg _ => 0 end
                = Z.pos mx * 2 ^ s).
  { apply shifted_mantissa. assumption. }
  cbv zeta. rewrite Hm', div_eucl_div_mod.
  assert (Ps : 0 < 2 ^ s) by (apply Z.pow_pos_nonneg; lia).
  rewrite new_location_locationOf by (try lia; apply Z.mod_pos_bound; lia).
  pose proof (binary_round_aux_spec prec emax K prec_pos scale_covers_emin (Z.pos mx * 2 ^ s) (Z.pos my) e') as H.
  unfold roundsTo.
  replace (roundScaled prec emax K (scaledValue K (S754_finite false mx ex) * 2 ^ K)
             (scaledValue K (S754_finite false my ey)))
    with (roundScaled prec emax K (Z.pos mx * 2 ^ s * 2 ^ (e' + K)) (Z.pos my)).
  - destruct (digits2_pos_bound mx) as [Lx Ux]. destruct (digits2_pos_bound my) as [Ly Uy].
    fold d1 in Lx, Ux. fold d2 in Ly, Uy.
    assert (Hd1 : 0 < d1) by (unfold d1; lia). assert (Hd2 : 0 < d2) by (unfold d2; lia).
    assert (He'K : 0 <= e' + K) by (unfold e', fexp, emin in *; lia).
    (* a quotient of zero only in the subnormal range *)
    assert (Hq0 : Z.pos mx * 2 ^ s / Z.pos my = 0 -> d1 + s <= d2).
    { intros Z0. apply Z.div_small_iff in Z0; [|lia].
      destruct (Z_le_gt_dec (d1 + s) d2) as [|Hgt]; [assumption|exfalso].
      assert (2 ^ d2 <= 2 ^ (d1 - 1 + s)) by (apply Z.pow_le_mono_r; lia).
      rewrite Z.pow_add_r in * by lia. nia. }
    assert (Hqd : 0 < Z.pos mx * 2 ^ s / Z.pos my -> d1 + s - d2 <= Zdigits2 (Z.pos mx * 2 ^ s / Z.pos my)).
    { intros Hpos. destruct (Z_le_gt_dec (d1 + s) d2) as [Hle|Hgt].
      - pose proof (Zdigits2_pos _ Hpos). lia.
      - apply Zdigits2_ge; [|assumption].
        apply Z.div_le_lower_bound; [lia|].
        assert (E1 : 2 ^ (d1 - 1) * 2 ^ s = Z.pos my * 0 + 2 ^ (d1 + s - d2 - 1) * 2 ^ d2).
        { rewrite <- !Z.pow_add_r by lia. rewrite Z.mul_0_r, Z.add_0_l. f_equal. lia. }
        assert (0 <= 2 ^ (d1 + s - d2 - 1)) by (apply Z.pow_nonneg; lia).
        nia. }
    assert (HqAB : 0 <= Z.pos mx * 2 ^ s / Z.pos my) by (apply Z.div_pos; nia).
    apply H; try nia; try assumption.
    + destruct (Z.eq_dec (Z.pos mx * 2 ^ s / Z.pos my) 0) as [Z0|NZ].
      * specialize (Hq0 Z0). rewrite Z0. simpl (Zdigits2 0). unfold s, e', fexp, emin in *. lia.
      * specialize (Hqd ltac:(lia)). unfold s, e', fexp, emin in *. lia.
    + intros Z0. specialize (Hq0 Z0). unfold s, e', fexp, emin in *. lia.
  - rewrite <- (roundScaled_scale prec emax K _ (Z.pos my) (2 ^ (ey + K)))
      by (try apply scale_covers_emin; try lia; apply Z.pow_pos_nonneg; unfold emin in *; lia).
    f_equal. unfold scaledValue.
    assert (He'K : 0 <= e' + K) by (unfold e', fexp, emin in *; lia).
    rewrite <- !Z.mul_assoc, <- !Z.pow_add_r by (unfold emin in *; lia).
    do 2 f_equal. unfold s. lia.
Qed.

Lemma SFadd_spec x y :
  finiteNonneg x = true -> finiteNonneg y = true -> 0 < scaledValue K x -> 0 < scaledValue K y ->
  valid_binary prec emax x = true -> valid_binary prec emax y = true ->
  roundsTo prec emax K (SFadd prec emax x y) (scaledValue K x + scaledValue K y) 1.
Proof.
  pose proof scale_covers_emin as scale_ok.
  intros Fx Fy Px Py Vx Vy.
  destruct x as [sx|[]| |[] mx ex]; try discriminate; try (simpl in Px; lia).
  destruct y as [sy|[]| |[] my ey]; try discriminate; try (simpl in Py; lia).
  destruct (valid_finite_facts _ _ _ _ _ Vx) as (Ex & Dx & Cx).
  destruct (valid_finite_facts _ _ _ _ _ Vy) as (Ey & Dy & Cy).
  cbn [SFadd cond_Zopp].
  destruct (shl_align_spec mx ex (Z.min ex ey)) as (_ & X2 & _).
  destruct (shl_align_spec my ey (Z.min ex ey)) as (_ & Y2 & _).
  replace (Z.min ex (Z.min ex ey)) with (Z.min ex ey) in X2 by lia.
  replace (Z.min ey (Z.min ex ey)) with (Z.min ex ey) in Y2 by lia.
  rewrite <- Pos2Z.inj_add. cbn [binary_normalize].
  pose proof (binary_round_spec (fst (shl_align mx ex (Z.min ex ey)) + fst (shl_align my ey (Z.min ex ey)))
                (Z.min ex ey)) as H.
  replace (scaledValue K (S754_finite false mx ex) + scaledValue K (S754_finite false my ey))
    with (Z.pos (fst (shl_align mx ex (Z.min ex ey)) + fst (shl_align my ey (Z.min ex ey)))
          * 2 ^ (Z.min ex ey + K)).
  - apply H. unfold emin in *. lia.
  - rewrite Pos2Z.inj_add, X2, Y2. unfold scaledValue.
    rewrite Z.mul_add_distr_r, <- !Z.mul_assoc, <- !Z.pow_add_r by (unfold emin in *; lia).
    do 2 f_equal; f_equal; lia.
Qed.

End Operations.

(** order, truncation and finiteness *)

Lemma scaledValue_nonneg K x : 0 <= scaledValue K x.
Proof.
  destruct x as [| | |[] m e]; cbn [scaledValue]; try lia.
Qed.

Lemma scaledValue_pos K s m e : 0 <= e + K -> finiteNonneg (S754_finite s m e) = true ->
  0 < scaledValue K (S754_finite s m e).
Proof.
  intros He F. destruct s; [discriminate|]. cbn [scaledValue].
  assert (0 < 2 ^ (e + K)) by (apply Z.pow_pos_nonneg; lia). nia.
Qed.

Lemma SFleb_scaledValue prec emax K x y :
  0 < prec -> 0 <= emin prec emax + K ->
  finiteNonneg x = true -> finiteNonneg y = true ->
  valid_binary prec emax x = true -> valid_binary prec emax y = true ->
  SFleb x y = true -> scaledValue K x <= scaledValue K y.
Proof.
  intros Hp HK Fx Fy Vx Vy H.
  destruct x as [sx|[]| |[] mx ex]; try discriminate; try apply scaledValue_nonneg.
  destruct y as [sy|[]| |[] my ey]; try discriminate.
  destruct (valid_finite_facts _ _ _ _ _ Vx) as (Ex & Dx & Cx).
  destruct (valid_finite_facts _ _ _ _ _ Vy) as (Ey & Dy & Cy).
  unfold SFleb, SFcompare in H. unfold scaledValue.
  destruct (Z.compare_spec ex ey) as [E|L|G].
  - subst ey. change (Pos.compare_cont Eq mx my) with (mx ?= my)%positive in H.
    assert (0 < 2 ^ (ex + K)) by (apply Z.pow_pos_nonneg; lia).
    destruct (Pos.compare_spec mx my); try discriminate; nia.
  - destruct (digits2_pos_bound mx) as [_ Ux]. destruct (digits2_pos_bound my) as [Ly _].
    rewrite (Cy ltac:(lia)) in Ly.
    assert (Z.pos mx < 2 * 2 ^ (prec - 1)).
    { replace (2 * 2 ^ (prec - 1)) with (2 ^ Z.succ (prec - 1)) by (rewrite Z.pow_succ_r; lia).
      replace (Z.succ (prec - 1)) with prec by lia.
      assert (2 ^ Z.pos (digits2_pos mx) <= 2 ^ prec) by (apply Z.pow_le_mono_r; lia). lia. }
    assert (P : 0 < 2 ^ (ex + K)) by (apply Z.pow_pos_nonneg; lia).
    assert (E2 : 2 ^ (ey + K) = 2 ^ (ey - ex - 1) * (2 * 2 ^ (ex + K))).
    { rewrite <- Z.pow_succ_r, <- Z.pow_add_r by lia. f_equal. lia. }
    assert (0 < 2 ^ (ey - ex - 1)) by (apply Z.pow_pos_nonneg; lia).
    rewrite E2. nia.
  - discriminate.
Qed.

Lemma truncate_scaledValue K m e :
  0 <= K -> 0 <= e + K ->
  truncate (S754_finite false m e) = Some (scaledValue K (S754_finite false m e) / 2 ^ K).
Proof.
  intros HK He. unfold truncate, scaledValue. f_equal.
  assert (PK : 0 < 2 ^ K) by (apply Z.pow_pos_nonneg; lia).
  destruct e as [|p|p].
  - rewrite Z.shiftl_0_r, Z.add_0_l, Z.div_mul; lia.
  - rewrite Z.shiftl_mul_pow2, Z.pow_add_r, Z.mul_assoc, Z.div_mul; lia.
  - rewrite Z.shiftr_div_pow2 by lia.
    replace (2 ^ K) with (2 ^ Z.pos p * 2 ^ (Z.neg p + K)).
    + rewrite Z.div_mul_cancel_r; [reflexivity|lia|].
      assert (0 < 2 ^ (Z.neg p + K)) by (apply Z.pow_pos_nonneg; lia). lia.
    + rewrite <- Z.pow_add_r by lia. f_equal. lia.
Qed.

Lemma roundsTo_finite prec emax K x N D :
  roundsTo prec emax K x N D -> is_finite x = true ->
  finiteNonneg x = true /\ valid_binary prec emax x = true /\ scaledValue K x = roundScaled prec emax K N D.
Proof. intros [->|H] F; [discriminate|assumption]. Qed.

Lemma to_int_finite a z : to_int a = Some z -> is_finite a = true.
Proof. destruct a; try reflexivity; discriminate. Qed.

Lemma add_half_finite D : is_finite (F64.add F64.lit_0_5 D) = true -> is_finite D = true.
Proof. destruct D as [|[]| |]; try reflexivity; discriminate. Qed.

Lemma double_of_float_finite m : is_finite (double_of_float m) = true -> is_finite m = true.
Proof. destruct m; try reflexivity; discriminate. Qed.

Lemma mul_finite d c : is_finite (F32.mul d c) = true -> is_finite d = true /\ is_finite c = true.
Proof.
  destruct d as [|[]| |]; destruct c as [|[]| |]; try discriminate; auto.
Qed.

Lemma div_finite l m : is_finite (F32.div l m) = true -> is_finite l = true.
Proof.
  destruct l as [|[]| |]; destruct m as [|[]| |]; try discriminate; auto.
Qed.

Lemma roundScaled_nonneg prec emax K N D :
  0 <= emin prec emax + K -> 0 <= N -> 0 < D -> 0 <= roundScaled prec emax K N D.
Proof.
  intros HK HN HD. unfold roundScaled.
  assert (HE : 0 <= scaledExponent prec emax K N D) by (unfold scaledExponent; lia).
  assert (P : 0 < 2 ^ scaledExponent prec emax K N D) by (apply Z.pow_pos_nonneg; lia).
  pose proof (roundQuotient_range N (D * 2 ^ scaledExponent prec emax K N D)) as [Hl _].
  assert (0 <= N / (D * 2 ^ scaledExponent prec emax K N D)) by (apply Z.div_pos; nia).
  nia.
Qed.

Lemma to_int_range a z : to_int a = Some z -> truncate a = Some z /\ - 2 ^ 31 <= z < 2 ^ 31.
Proof.
  unfold to_int. destruct (truncate a) as [t|]; [|discriminate].
  destruct (Z.leb_spec (- 2 ^ 31) t); destruct (Z.ltb_spec t (2 ^ 31)); simpl; try discriminate.
  intros [= <-]. auto.
Qed.

Lemma leb_finiteNonneg x y :
  finiteNonneg x = true -> is_finite y = true -> SFleb x y = true -> finiteNonneg y = true.
Proof.
  destruct x as [|[]| |[]]; try discriminate; destruct y as [|[]| |[]]; try discriminate; reflexivity.
Qed.

Lemma of_Z_nonneg z :
  0 <= z ->
  F32.of_Z z = S754_infinity false \/ (finiteNonneg (F32.of_Z z) = true /\ F32.valid (F32.of_Z z) = true).
Proof.
  intros Hz. destruct z as [|p|p]; try lia.
  - right. auto.
  - unfold F32.of_Z, F32.valid, F32.prec, F32.emax, binary_normalize.
    destruct (binary_round_spec 24 128 2200 ltac:(lia) ltac:(lia) ltac:(lia) p 0 ltac:(lia)) as [H|(H1 & H2 & _)]; auto.
Qed.

Section Isotone.
Variable K : Z.
Hypothesis K_large : 2154 <= K.

(** The integer that the cast of lines 448-451 yields for the logarithm
    [l]: the composition of the roundings of the quotient, the product, the
    conversion to double and the sum with 0.5, truncated. *)
Lemma score_chain l max c z :
  F32.valid l = true -> F32.valid max = true ->
  (c = S754_infinity false \/ (finiteNonneg c = true /\ F32.valid c = true)) ->
  (is_finite l = true -> finiteNonneg l = true) ->
  0 < scaledValue K max ->
  to_int (F64.add F64.lit_0_5 (double_of_float (F32.mul (F32.div l max) c))) = Some z ->
  finiteNonneg l = true /\ 0 <= z /\
  let w := roundScaled 53 1024 K
             (roundScaled 24 128 K
                (roundScaled 24 128 K (scaledValue K l * 2 ^ K) (scaledValue K max)
                 * scaledValue K c) (2 ^ K)) 1 in
  (w = 0 /\ z = 0) \/
  (0 < w /\ z = roundScaled 53 1024 K (scaledValue K F64.lit_0_5 + w) 1 / 2 ^ K).
Proof.
  intros Vl Vmax Hc Hl Pmax Hz.
  destruct (to_int_range _ _ Hz) as [Ht Hr].
  pose proof (to_int_finite _ _ Hz) as Fa.
  pose proof (add_half_finite _ Fa) as FD.
  pose proof (double_of_float_finite _ FD) as Fm.
  destruct (mul_finite _ _ Fm) as [Fd Fc].
  pose proof (div_finite _ _ Fd) as Fl. specialize (Hl Fl).
  destruct Hc as [->|[Fc' Vc]]; [discriminate|].
  assert (PK : 0 < 2 ^ K) by (apply Z.pow_pos_nonneg; lia).
  destruct (roundsTo_finite _ _ _ _ _ _
              (SFdiv_spec 24 128 K ltac:(lia) ltac:(lia) ltac:(lia) l max Hl Pmax Vl Vmax) Fd)
    as (Fd' & Vd & Sd).
  destruct (roundsTo_finite _ _ _ _ _ _
              (SFmul_spec 24 128 K ltac:(lia) ltac:(lia) ltac:(lia) _ c Fd' Fc' Vd Vc) Fm)
    as (Fm' & Vm & Sm).
  rewrite Sd in Sm. change (SFmul 24 128) with F32.mul in *. change (SFdiv 24 128) with F32.div in *.
  split; [assumption|]. cbv zeta. rewrite <- Sm.
  destruct (F32.mul (F32.div l max) c) as [s| | |s mm em]; try discriminate.
  { (* the score is zero *)
    split; [|left]; cbn [scaledValue]; rewrite ?roundScaled_zero; vm_compute in Hz; injection Hz as <-; auto; try lia. }
  destruct s; [discriminate|].
  destruct (valid_finite_facts _ _ _ _ _ Vm) as (Em & _ & _).
  cbn [double_of_float] in *.
  destruct (roundsTo_finite _ _ _ _ _ _
              (binary_round_spec 53 1024 K ltac:(lia) ltac:(lia) ltac:(lia) mm em
                 ltac:(unfold emin in Em; lia)) FD)
    as (FD' & VD & SD).
  change (Z.pos mm * 2 ^ (em + K)) with (scaledValue K (S754_finite false mm em)) in SD.
  rewrite <- SD.
  unfold F64.prec, F64.emax in *.
  destruct (binary_round 53 1024 false mm em) as [sD| | |sD mD eD] eqn:ED; try discriminate.
  { split; [|left]; cbn [scaledValue]; vm_compute in Hz; injection Hz as <-; auto; try lia. }
  destruct sD; [discriminate|].
  destruct (valid_finite_facts _ _ _ _ _ VD) as (EeD & _ & _).
  assert (PD : 0 < scaledValue K (S754_finite false mD eD)).
  { apply scaledValue_pos; [unfold emin in EeD; lia|reflexivity]. }
  assert (Ph : 0 < scaledValue K F64.lit_0_5).
  { apply (scaledValue_pos K false 4503599627370496 (-53)); [lia|reflexivity]. }
  destruct (roundsTo_finite _ _ _ _ _ _
              (SFadd_spec 53 1024 K ltac:(lia) ltac:(lia) ltac:(lia) F64.lit_0_5
                 (S754_finite false mD eD) eq_refl FD' Ph PD eq_refl VD) Fa)
    as (Fa' & Va & Sa).
  change (SFadd 53 1024) with F64.add in *.
  rewrite <- Sa.
  assert (Hz' : z = scaledValue K (F64.add F64.lit_0_5 (S754_finite false mD eD)) / 2 ^ K).
  { destruct (F64.add F64.lit_0_5 (S754_finite false mD eD)) as [sa| | |sa ma ea]; try discriminate.
    - simpl in Ht. injection Ht as <-. reflexivity.
    - destruct sa; [discriminate|].
      destruct (valid_finite_facts _ _ _ _ _ Va) as (Ea & _ & _).
      rewrite (truncate_scaledValue K) in Ht by (unfold emin in Ea; lia).
      now injection Ht as <-. }
  split.
  - rewrite Hz'. apply Z.div_pos; [apply scaledValue_nonneg|assumption].
  - right. split; assumption.
Qed.

End Isotone.

Lemma score_with_infinite_max l c z :
  to_int (F64.add F64.lit_0_5
            (double_of_float (F32.mul (F32.div l (S754_infinity false)) c))) = Some z ->
  z = 0.
Proof.
  destruct l as [sl|sl| |sl ml el]; destruct c as [sc|sc| |sc mc ec]; intros H;
    vm_compute in H; try discriminate; now injection H as <-.
Qed.

Lemma bin_of_int z : 0 <= z < 2 ^ 31 -> N.to_nat (unsigned_of_int z) = Z.to_nat z.
Proof.
  intros H. unfold unsigned_of_int. rewrite Z.mod_small by lia. apply Z_N_nat.
Qed.

(** the coarse logarithm is a logarithm in the sense of [Log10Spec]: its
    values on the binary exponents of binary32 are checked one by one *)

Lemma checkFrom_spec n : forall lo P,
  checkFrom lo n P = true -> forall k, lo <= k < lo + Z.of_nat n -> P k = true.
Proof.
  induction n as [|n IH]; intros lo P H k Hk; [lia|].
  cbn [checkFrom] in H. apply andb_true_iff in H. destruct H as [H0 H1].
  destruct (Z.eq_dec k lo) as [->|Hne]; [assumption|].
  apply (IH (lo + 1) P H1). lia.
Qed.

Lemma binaryExponent_range s m e :
  F32.valid (S754_finite s m e) = true -> -149 <= binaryExponent (S754_finite s m e) <= 127.
Proof.
  intros V. destruct (valid_finite_facts 24 128 s m e V) as (E & D & _).
  unfold binaryExponent, emin in *. lia.
Qed.

Lemma leb_binaryExponent m1 e1 m2 e2 :
  F32.valid (S754_finite false m1 e1) = true -> F32.valid (S754_finite false m2 e2) = true ->
  F32.leb (S754_finite false m1 e1) (S754_finite false m2 e2) = true ->
  binaryExponent (S754_finite false m1 e1) <= binaryExponent (S754_finite false m2 e2).
Proof.
  intros V1 V2 H.
  destruct (valid_finite_facts 24 128 false m1 e1 V1) as (E1 & D1 & C1).
  destruct (valid_finite_facts 24 128 false m2 e2 V2) as (E2 & D2 & C2).
  unfold F32.leb, SFleb, SFcompare in H. unfold binaryExponent.
  destruct (Z.compare_spec e1 e2) as [E|L|G]; try discriminate.
  - subst e2. change (Pos.compare_cont Eq m1 m2) with (m1 ?= m2)%positive in H.
    assert (Z.pos m1 <= Z.pos m2) by (destruct (Pos.compare_spec m1 m2); try discriminate; lia).
    pose proof (Zdigits2_mono (Z.pos m1) (Z.pos m2) ltac:(lia)) as Hd. simpl in Hd. lia.
  - specialize (C2 ltac:(lia)). lia.
Qed.

Lemma coarse_table_valid :
  checkFrom (-149) 277 (fun k => F32.valid (coarseOfExponent k)) = true.
Proof. vm_compute. reflexivity. Qed.

Lemma coarse_table_monotone :
  checkFrom 0 128 (fun k =>
    let t := coarseOfExponent k in
    F32.leb t (S754_infinity false) &&
    checkFrom k (Z.to_nat (128 - k)) (fun j => F32.leb t (coarseOfExponent j))) = true.
Proof. vm_compute. reflexivity. Qed.

Lemma log10f_coarse_spec : Log10Spec log10f_coarse.
Proof.
  split.
  - reflexivity.
  - reflexivity.
  - intros x V. destruct x as [s|[]| |[] m e]; try reflexivity.
    apply (checkFrom_spec _ _ _ coarse_table_valid (binaryExponent (S754_finite false m e))).
    pose proof (binaryExponent_range _ _ _ V). lia.
  - intros x y Vx Vy H1 H.
    destruct x as [sx|[]| |[] mx ex]; try discriminate.
    + destruct y as [sy|[]| |[] my ey]; try discriminate. reflexivity.
    + pose proof (leb_binaryExponent 8388608 (-23) mx ex eq_refl Vx H1) as K0.
      change (binaryExponent (S754_finite false 8388608 (-23))) with 0 in K0.
      pose proof (binaryExponent_range _ _ _ Vx) as Kx.
      assert (Kr : 0 <= binaryExponent (S754_finite false mx ex) < 0 + Z.of_nat 128) by lia.
      pose proof (checkFrom_spec _ _ _ coarse_table_monotone _ Kr) as T.
      cbv zeta beta in T. apply andb_true_iff in T. destruct T as [T1 T2].
      destruct y as [sy|[]| |[] my ey]; try discriminate.
      * exact T1.
      * pose proof (leb_binaryExponent _ _ _ _ Vx Vy H) as Kxy.
        pose proof (binaryExponent_range _ _ _ Vy) as Ky.
        apply (checkFrom_spec _ _ _ T2). lia.
Qed.

(** a finite value divided by itself is 1 *)
Lemma div_self s m e : F32.div (S754_finite s m e) (S754_finite s m e) = F32.one.
Proof.
  unfold F32.div, SFdiv, SFdiv_core_binary.
  rewrite !Z.sub_diag.
  change (Z.min (fexp F32.prec F32.emax 0) 0) with (-24).
  change (0 - -24) with 24. cbv zeta.
  rewrite Z.shiftl_mul_pow2 by lia. rewrite div_eucl_div_mod.
  rewrite Z.mul_comm, Z.div_mul, Z.mod_mul by lia.
  assert (Hl : new_location (Z.pos m) 0 = loc_Exact).
  { unfold new_location. destruct (Z.even (Z.pos m)); reflexivity. }
  rewrite Hl. now destruct s.
Qed.

(** The two ends of the scale, for every logarithm with log10(1) = +0: a
    product of 1 is put in bin 0, and the product that [maxHeightScore] is
    the logarithm of (the frequency of the lowest height, squared) in the
    last bin. *)
Lemma heightScoreBin_ends log10f p s m e :
  log10f F32.one = F32.zero -> log10f p = S754_finite s m e ->
  heightScoreBinOf log10f (log10f p) F32.one 1000 = Some 0%nat /\
  heightScoreBinOf log10f (log10f p) p 1000 = Some 999%nat.
Proof.
  intros H1 Hp. unfold heightScoreBinOf. rewrite H1, Hp, div_self. split.
  - destruct s; vm_compute; reflexivity.
  - vm_compute. reflexivity.
Qed.

(** C3, counterexample.  The lowest stack height occurs twice, so that
    [maxHeightScore = log10(2 * 2)]: a pair of product 1 is put in bin 0 and
    a pair of product 4 in bin 999; the lower product has the lower bin. *)
Lemma antitoneBin_counterexample :
  maxHeightScoreOf log10f_coarse twoStacks = Some (log10f_coarse (F32.of_Z 4)) /\
  heightScoreBinOf log10f_coarse (log10f_coarse (F32.of_Z 4)) F32.one 1000 = Some 0%nat /\
  heightScoreBinOf log10f_coarse (log10f_coarse (F32.of_Z 4)) (F32.of_Z 4) 1000 = Some 999%nat /\
  ~ antitoneBinClaim log10f_coarse.
Proof.
  assert (H1 : heightScoreBinOf log10f_coarse (log10f_coarse (F32.of_Z 4)) F32.one 1000 = Some 0%nat)
    by (vm_compute; reflexivity).
  assert (H2 : heightScoreBinOf log10f_coarse (log10f_coarse (F32.of_Z 4)) (F32.of_Z 4) 1000
               = Some 999%nat) by (vm_compute; reflexivity).
  repeat split; try assumption; try reflexivity.
  intros C.
  specialize (C (log10f_coarse (F32.of_Z 4)) F32.one (F32.of_Z 4) 1000%nat 0%nat 999%nat
                eq_refl H1 H2).
  clear - C. lia.
Qed.

(** C3 (amended): the height-score bin index is isotone in the product of
    the stack-height frequencies.  For every logarithm that is monotone from 1
    on with log10(1) = +0, and every positive [maxHeightScore]: of two hits
    with products [1 <= p1 <= p2] whose bin indexes are defined, the one with
    the lower product gets the lower (or the same) bin index -- rarer
    combinations land in lower bins, not in higher ones. *)
Theorem height_score_bin_isotone log10f maxHeightScore p1 p2 bins b1 b2 :
  Log10Spec log10f ->
  F32.valid maxHeightScore = true -> F32.ltb F32.zero maxHeightScore = true ->
  F32.valid p1 = true -> F32.valid p2 = true ->
  F32.leb F32.one p1 = true -> F32.leb p1 p2 = true ->
  heightScoreBinOf log10f maxHeightScore p1 bins = Some b1 ->
  heightScoreBinOf log10f maxHeightScore p2 bins = Some b2 ->
  (b1 <= b2)%nat.
Proof.
  intros Hlog Vmax Pmax V1 V2 H1 H12 B1 B2.
  (* the values are measured in units of 2^-K, K large enough for binary64 *)
  assert (HK : exists K, 2154 <= K) by (exists 2200; lia).
  destruct HK as [K HK].
  unfold heightScoreBinOf in B1, B2.
  set (c := F32.of_Z (size_t (Z.of_nat bins - 1))) in *.
  destruct (to_int _) as [z1|] eqn:Z1 in B1; [|discriminate]. injection B1 as <-.
  destruct (to_int _) as [z2|] eqn:Z2 in B2; [|discriminate]. injection B2 as <-.
  assert (Hc : c = S754_infinity false \/ (finiteNonneg c = true /\ F32.valid c = true)).
  { apply of_Z_nonneg. unfold size_t. apply Z.mod_pos_bound. lia. }
  pose proof (log10_valid _ Hlog p1 V1) as Vl1. pose proof (log10_valid _ Hlog p2 V2) as Vl2.
  pose proof (log10_monotone _ Hlog F32.one p1 eq_refl V1 eq_refl H1) as L01.
  rewrite (log10_one _ Hlog) in L01.
  pose proof (log10_monotone _ Hlog p1 p2 V1 V2 H1 H12) as L12.
  destruct (to_int_range _ _ Z1) as [_ R1]. destruct (to_int_range _ _ Z2) as [_ R2].
  assert (Hz : z1 <= z2 /\ 0 <= z1).
  { destruct maxHeightScore as [s|s| |s m e]; try discriminate.
    - destruct s; [discriminate|].
      rewrite (score_with_infinite_max _ _ _ Z1), (score_with_infinite_max _ _ _ Z2). lia.
    - destruct s; [discriminate|].
      destruct (valid_finite_facts 24 128 false m e Vmax) as (Em & _ & _).
      assert (Pm : 0 < scaledValue K (S754_finite false m e)).
      { apply scaledValue_pos; [unfold emin in Em; lia|reflexivity]. }
      destruct (score_chain K HK _ _ _ _ Vl1 Vmax Hc
                  (fun F => leb_finiteNonneg F32.zero _ eq_refl F L01) Pm Z1) as (Fl1 & N1 & C1).
      destruct (score_chain K HK _ _ _ _ Vl2 Vmax Hc
                  (fun F => leb_finiteNonneg _ _ Fl1 F L12) Pm Z2) as (Fl2 & N2 & C2).
      cbv zeta in C1, C2.
      assert (Sl : scaledValue K (log10f p1) <= scaledValue K (log10f p2)).
      { apply (SFleb_scaledValue 24 128); try assumption; unfold emin; lia. }
      assert (PK : 0 < 2 ^ K) by (apply Z.pow_pos_nonneg; lia).
      pose proof (scaledValue_nonneg K (log10f p1)) as S0.
      pose proof (scaledValue_nonneg K c) as Sc.
      assert (E32 : 0 <= emin 24 128 + K) by (unfold emin; lia).
      assert (E64 : 0 <= emin 53 1024 + K) by (unfold emin; lia).
      set (vmax := scaledValue K (S754_finite false m e)) in *.
      (* the quotient by maxHeightScore *)
      assert (M1 : roundScaled 24 128 K (scaledValue K (log10f p1) * 2 ^ K) vmax
                   <= roundScaled 24 128 K (scaledValue K (log10f p2) * 2 ^ K) vmax).
      { apply roundScaled_mono; try lia.
        apply Z.mul_le_mono_nonneg_r; [lia|]. apply Z.mul_le_mono_nonneg_r; lia. }
      assert (M1' : 0 <= roundScaled 24 128 K (scaledValue K (log10f p1) * 2 ^ K) vmax).
      { apply roundScaled_nonneg; try lia; nia. }
      set (r1 := roundScaled 24 128 K (scaledValue K (log10f p1) * 2 ^ K) vmax) in *.
      set (r2 := roundScaled 24 128 K (scaledValue K (log10f p2) * 2 ^ K) vmax) in *.
      (* the product with the number of bins *)
      assert (M2 : roundScaled 24 128 K (r1 * scaledValue K c) (2 ^ K)
                   <= roundScaled 24 128 K (r2 * scaledValue K c) (2 ^ K)).
      { apply roundScaled_mono; try lia.
        apply Z.mul_le_mono_nonneg_r; [lia|]. apply Z.mul_le_mono_nonneg_r; lia. }
      assert (M2' : 0 <= roundScaled 24 128 K (r1 * scaledValue K c) (2 ^ K)).
      { apply roundScaled_nonneg; try lia; nia. }
      set (s1 := roundScaled 24 128 K (r1 * scaledValue K c) (2 ^ K)) in *.
      set (s2 := roundScaled 24 128 K (r2 * scaledValue K c) (2 ^ K)) in *.
      (* the conversion to double, the sum with 0.5 and the truncation *)
      assert (M3 : roundScaled 53 1024 K s1 1 <= roundScaled 53 1024 K s2 1).
      { apply roundScaled_mono; try lia. }
      assert (M3' : 0 <= roundScaled 53 1024 K s1 1).
      { apply roundScaled_nonneg; try lia. }
      set (w1 := roundScaled 53 1024 K s1 1) in *. set (w2 := roundScaled 53 1024 K s2 1) in *.
      pose proof (scaledValue_nonneg K F64.lit_0_5) as Sh.
      destruct C1 as [[W1 ->]|[W1 ->]]; [lia|].
      destruct C2 as [[W2 ->]|[W2 ->]]; [lia|].
      split; [|assumption].
      apply Z.div_le_mono; [assumption|].
      apply roundScaled_mono; try lia. }
  destruct Hz as [Hle H0].
  rewrite !bin_of_int by lia. apply Z2Nat.inj_le; lia.
Qed.

Lemma height_score_bin_isotone_witness :
  heightScoreBinOf log10f_coarse (log10f_coarse (F32.of_Z 4)) F32.one 1000 = Some 0%nat /\
  heightScoreBinOf log10f_coarse (log10f_coarse (F32.of_Z 4)) (F32.of_Z 4) 1000 = Some 999%nat /\
  (0 <= 999)%nat.
Proof.
  assert (H1 : heightScoreBinOf log10f_coarse (log10f_coarse (F32.of_Z 4)) F32.one 1000 = Some 0%nat)
    by (vm_compute; reflexivity).
  assert (H2 : heightScoreBinOf log10f_coarse (log10f_coarse (F32.of_Z 4)) (F32.of_Z 4) 1000
               = Some 999%nat) by (vm_compute; reflexivity).
  split; [exact H1|]. split; [exact H2|].
  apply (height_score_bin_isotone log10f_coarse (log10f_coarse (F32.of_Z 4)) F32.one (F32.of_Z 4)
           1000 0 999 log10f_coarse_spec); try reflexivity; assumption.
Defined.

(** ** Stack Accumulator: skipped records, failures and several files *)

Lemma countRead_not_counted minReadLength maxReadLength countMultiHits record readCounts :
  isCounted minReadLength maxReadLength countMultiHits record = false ->
  countRead minReadLength maxReadLength countMultiHits record readCounts = Some readCounts.
Proof.
  unfold isCounted, countRead. intros H.
  destruct (passesFilters record minReadLength maxReadLength); [|reflexivity].
  destruct (F32.leb _ _); [reflexivity|discriminate].
Qed.

(** X1.  A record that is unmapped, too short, too long or of weight [<= 0] is
    skipped: the file without these records leaves the same counts and the
    same return value. *)
Theorem skipped_records_can_be_removed minReadLength maxReadLength countMultiHits records :
  forall readCounts,
    countReadsInBamFile (map Some records) readCounts minReadLength maxReadLength countMultiHits
    = countReadsInBamFile
        (map Some (filter (isCounted minReadLength maxReadLength countMultiHits) records))
        readCounts minReadLength maxReadLength countMultiHits.
Proof.
  induction records as [|record records IH]; intros readCounts; [reflexivity|].
  cbn [map filter].
  destruct (isCounted minReadLength maxReadLength countMultiHits record) eqn:E.
  - cbn [map countReadsInBamFile].
    destruct (countRead _ _ _ record readCounts); [apply IH|reflexivity].
  - cbn [countReadsInBamFile]. rewrite (countRead_not_counted _ _ _ _ _ E). apply IH.
Qed.

(** X2.  A record that cannot be read ends the function with return value 1: the
    counts are those of the records before it, and no record after it is
    looked at. *)
Theorem read_failure_returns_1 minReadLength maxReadLength countMultiHits records rest :
  forall readCounts,
    countReadsInBamFile (map Some records ++ None :: rest) readCounts
      minReadLength maxReadLength countMultiHits
    = match countReadsInBamFile (map Some records) readCounts
              minReadLength maxReadLength countMultiHits with
      | Some (_, readCounts') => Some (1, readCounts')
      | None => None
      end.
Proof.
  induction records as [|record records IH]; intros readCounts; [reflexivity|].
  cbn [map app countReadsInBamFile].
  destruct (countRead _ _ _ record readCounts) as [readCounts'|]; [apply IH|reflexivity].
Qed.

(** ** Stack Accumulator: reads of the plus strand *)

(** X3.  For a record of the plus strand that passes the filters with a positive
    weight, the key of the position is the alignment start (as an unsigned
    32-bit number), and the flag is raised exactly when the base after a
    leading soft-clip is T or t.  The weight is added to the reads of that
    position and nothing else changes. *)
Theorem plus_strand_position_and_uridine minReadLength maxReadLength countMultiHits record
    readCounts c0 cs :
  hasFlagRC record = false ->
  passesFilters record minReadLength maxReadLength = true ->
  F32.leb (readWeight countMultiHits record) F32.zero = false ->
  cigar record = c0 :: cs ->
  let clipped := if ascii_eqb (operation c0) "S"%char then Z.of_N (count c0) else 0 in
  clipped < Z.of_nat (length (seq record)) ->
  let contig := uint32 (rID record) in
  let key := uint32 (beginPos record) in
  let old := positionAt (strandPlus readCounts) contig key in
  (0 <= beginPos record < 2 ^ 32 -> Z.of_N key = beginPos record) /\
  exists base readCounts',
    nth_error (seq record) (Z.to_nat clipped) = Some base /\
    countRead minReadLength maxReadLength countMultiHits record readCounts = Some readCounts' /\
    strandMinus readCounts' = strandMinus readCounts /\
    positionAt (strandPlus readCounts') contig key
      = mkPosition (F32.add (reads old) (readWeight countMultiHits record))
                   (isThymine base || UAt5PrimeEnd old) /\
    forall contig' pos', (contig', pos') <> (contig, key) ->
      positionAt (strandPlus readCounts') contig' pos'
      = positionAt (strandPlus readCounts) contig' pos'.
Proof.
  intros Hrc Hpass Hw Hcig clipped Hclip contig key old. split.
  - intros Hrange. unfold key, uint32. rewrite Z.mod_small by lia. lia.
  - assert (H0 : 0 <= clipped) by (unfold clipped; destruct (ascii_eqb _ _); lia).
    assert (Hi : (Z.to_nat clipped < length (seq record))%nat) by lia.
    apply nth_error_Some in Hi.
    destruct (nth_error (seq record) (Z.to_nat clipped)) as [base|] eqn:E; [|contradiction].
    exists base. eexists. split; [reflexivity|].
    unfold countRead. rewrite Hpass. change (F32.of_Z 0) with F32.zero.
    rewrite Hw, Hrc, Hcig. fold clipped.
    assert (Hseq : seqAt (seq record) clipped = Some base).
    { unfold seqAt. rewrite E.
      destruct (Z.leb_spec 0 clipped); [|lia].
      destruct (Z.ltb_spec clipped (Z.of_nat (length (seq record)))); [reflexivity|lia]. }
    rewrite Hseq. fold key contig.
    split; [reflexivity|]. simpl. split; [reflexivity|]. split.
    + rewrite positionAt_bumpStrand_same. unfold bumpPosition. fold old.
      now destruct (isThymine base).
    + intros contig' pos' Hne. now apply positionAt_bumpStrand_other.
Qed.

Lemma plus_strand_position_and_uridine_witness :
  exists readCounts',
    countRead 1 1000 multiHitsWeighted plusRecord emptyGenome = Some readCounts' /\
    positionAt (strandPlus readCounts') 0 100 = mkPosition F32.one true.
Proof.
  destruct (plus_strand_position_and_uridine 1 1000 multiHitsWeighted plusRecord emptyGenome
              (mkCigar "S"%char 1) [mkCigar "M"%char 2])
    as (_ & base & readCounts' & Hbase & Hrun & _ & Hpos & _);
    [reflexivity | reflexivity | reflexivity | reflexivity | reflexivity |].
  exists readCounts'. split; [exact Hrun|].
  injection Hbase as <-. exact Hpos.
Defined.

(** ** Stack Accumulator: the stack heights are positive *)

Lemma roundScaled_exact prec emax K m e :
  0 < prec -> 0 <= emin prec emax + K ->
  valid_binary prec emax (S754_finite false m e) = true ->
  roundScaled prec emax K (Z.pos m * 2 ^ (e + K)) 1 = Z.pos m * 2 ^ (e + K).
Proof.
  intros Hp HK V. destruct (valid_finite_facts _ _ _ _ _ V) as (E & D & C).
  assert (Hcan : fexp prec emax (Z.pos (digits2_pos m) + e) = e).
  { unfold valid_binary, bounded, canonical_mantissa in V.
    apply andb_true_iff in V. destruct V as [V _]. now apply Z.eqb_eq in V. }
  rewrite roundScaled_value; try lia; rewrite Z.div_1_r;
    change (Zdigits2 (Z.pos m)) with (Z.pos (digits2_pos m)); rewrite ?Hcan; try lia.
  rewrite Z.sub_diag, Z.mul_1_r. unfold roundQuotient.
  rewrite Z.div_1_r, Z.mod_1_r. reflexivity.
Qed.

Lemma positive_finite_cases x :
  positiveHeight x = true ->
  x = S754_infinity false \/ exists m e, x = S754_finite false m e.
Proof. destruct x as [|[]| |[] m e]; try discriminate; eauto. Qed.

(** adding a positive weight to a new or a positive stack *)
Lemma add_positive x w :
  x = F32.zero \/ (positiveHeight x = true /\ F32.valid x = true) ->
  positiveHeight w = true -> F32.valid w = true ->
  positiveHeight (F32.add x w) = true /\ F32.valid (F32.add x w) = true.
Proof.
  intros Hx Pw Vw.
  destruct Hx as [->|[Px Vx]].
  { destruct w as [|[]| |[] m e]; try discriminate; auto. }
  destruct (positive_finite_cases _ Px) as [->|(mx & ex & ->)].
  { destruct w as [|[]| |[] m e]; try discriminate; auto. }
  destruct (positive_finite_cases _ Pw) as [->|(mw & ew & ->)]; [auto|].
  assert (HK : exists K, 2154 <= K) by (exists 2200; lia). destruct HK as [K HK].
  destruct (valid_finite_facts 24 128 false mx ex Vx) as (Ex & _).
  destruct (valid_finite_facts 24 128 false mw ew Vw) as (Ew & _).
  assert (Psx : 0 < scaledValue K (S754_finite false mx ex))
    by (apply scaledValue_pos; [unfold emin in Ex; lia|reflexivity]).
  assert (Psw : 0 < scaledValue K (S754_finite false mw ew))
    by (apply scaledValue_pos; [unfold emin in Ew; lia|reflexivity]).
  destruct (SFadd_spec 24 128 K ltac:(lia) ltac:(lia) ltac:(lia)
              (S754_finite false mx ex) (S754_finite false mw ew)
              eq_refl eq_refl Psx Psw Vx Vw) as [E|(F & V & S)].
  - unfold F32.add, F32.prec, F32.emax. rewrite E. auto.
  - unfold F32.add, F32.prec, F32.emax, F32.valid. split; [|exact V].
    assert (M : scaledValue K (S754_finite false mx ex)
                <= scaledValue K (SFadd 24 128 (S754_finite false mx ex) (S754_finite false mw ew))).
    { rewrite S.
      assert (Ex' : roundScaled 24 128 K (scaledValue K (S754_finite false mx ex)) 1
                    = scaledValue K (S754_finite false mx ex))
        by (apply roundScaled_exact; try assumption; unfold emin; lia).
      etransitivity; [apply Z.eq_le_incl; symmetry; exact Ex'|].
      apply roundScaled_mono; unfold emin; lia. }
    destruct (SFadd 24 128 (S754_finite false mx ex) (S754_finite false mw ew))
      as [|[]| |[] m e]; try discriminate; try reflexivity.
    cbn [scaledValue] in *. lia.
Qed.

Lemma readWeight_positive countMultiHits record :
  F32.leb (readWeight countMultiHits record) (F32.of_Z 0) = false ->
  positiveHeight (readWeight countMultiHits record) = true /\
  F32.valid (readWeight countMultiHits record) = true.
Proof.
  unfold readWeight. destruct countMultiHits; try (intros _; split; reflexivity).
  - (* weighted *)
    set (n := match tagNH record with Some n => n | None => 1%N end).
    assert (HK : exists K, 2154 <= K) by (exists 2200; lia). destruct HK as [K HK].
    assert (Hq : F64.div F64.one (F64.of_N n) = S754_infinity false \/
                 (exists s, F64.div F64.one (F64.of_N n) = S754_zero s) \/
                 (exists m e, F64.div F64.one (F64.of_N n) = S754_finite false m e /\
                              -1074 <= e)).
    { unfold F64.of_N, F64.of_Z, binary_normalize.
      destruct (Z.of_N n) as [|p|p] eqn:En; try lia; [left; reflexivity|].
      destruct (binary_round_spec 53 1024 K ltac:(lia) ltac:(lia) ltac:(lia) p 0 ltac:(lia))
        as [E|(F & V & _)]; unfold F64.prec, F64.emax.
      - rewrite E. right. left. now exists false.
      - destruct (binary_round 53 1024 false p 0) as [s|s| |s m e] eqn:Eb; try discriminate.
        + pose proof (binary_round_sign 53 1024 false p 0) as Hs.
          rewrite Eb in Hs. simpl in Hs. subst s. left. reflexivity.
        + destruct s; [discriminate|].
          destruct (valid_finite_facts 53 1024 false m e V) as (Ee & _).
          assert (Ps : 0 < scaledValue K (S754_finite false m e))
            by (apply scaledValue_pos; [unfold emin in Ee; lia|reflexivity]).
          destruct (SFdiv_spec 53 1024 K ltac:(lia) ltac:(lia) ltac:(lia)
                      F64.one (S754_finite false m e) eq_refl Ps eq_refl V) as [E|(F' & V' & _)].
          * left. exact E.
          * unfold F64.div, F64.prec, F64.emax.
            destruct (SFdiv 53 1024 F64.one (S754_finite false m e)) as [s'|s'| |s' m' e'] eqn:Ed;
              try discriminate.
            -- right. left. now exists s'.
            -- destruct s'; [discriminate|]. right. right. exists m', e'. split; [reflexivity|].
               destruct (valid_finite_facts 53 1024 false m' e' V') as (Ee' & _).
               unfold emin in Ee'. lia. }
    intros Hw.
    destruct Hq as [E|[(s & E)|(m & e & E & Hm)]]; rewrite E in *.
    + split; reflexivity.
    + discriminate.
    + cbn [float_of_double] in *.
      destruct (binary_round_spec 24 128 K ltac:(lia) ltac:(lia) ltac:(lia) m e ltac:(lia))
        as [E'|(F & V & _)]; unfold F32.prec, F32.emax in *.
      * rewrite E'. split; reflexivity.
      * split; [|exact V].
        destruct (binary_round 24 128 false m e) as [s|[]| |[] m' e']; try discriminate; reflexivity.
  - (* discard *)
    destruct (_ =? 1)%N; [intros _; split; reflexivity|discriminate].
Qed.

Lemma Forall_values_modify {V} (P : V -> Prop) d f k (m : smap V) :
  Forall P (smap_values m) -> (forall v, P v -> P (f v)) -> P (f d) ->
  Forall P (smap_values (smap_modify d f k m)).
Proof.
  intros Hm Hf Hd. unfold smap_values in *.
  induction m as [|[k' v] m IH]; cbn [smap_modify map].
  - constructor; [exact Hd|constructor].
  - inversion Hm as [|? ? Hv Hm']; subst.
    destruct (N.compare k k'); cbn [map].
    + constructor; [now apply Hf|assumption].
    + constructor; [exact Hd|]. constructor; assumption.
    + constructor; [assumption|]. now apply IH.
Qed.

Lemma Forall_positions_bumpStrand (P : TCountsPosition -> Prop) w uridine contig pos s :
  Forall P (concat (map smap_values (smap_values s))) ->
  (forall p, P p -> P (bumpPosition w uridine p)) ->
  P (bumpPosition w uridine TCountsPosition0) ->
  Forall P (concat (map smap_values (smap_values (bumpStrand w uridine contig pos s)))).
Proof.
  intros Hs Hp H0. apply Forall_concat. apply Forall_map.
  apply Forall_concat in Hs. rewrite Forall_map in Hs.
  unfold bumpStrand.
  apply (Forall_values_modify (fun c => Forall P (smap_values c))); [assumption| |].
  - intros c Hc. now apply Forall_values_modify.
  - now apply (Forall_values_modify P TCountsPosition0 _ pos []).
Qed.

Lemma countRead_positive minReadLength maxReadLength countMultiHits record readCounts readCounts' :
  stackHeightsPositive readCounts ->
  countRead minReadLength maxReadLength countMultiHits record readCounts = Some readCounts' ->
  stackHeightsPositive readCounts'.
Proof.
  intros Hinv. unfold countRead.
  destruct (passesFilters _ _ _); [|now intros [= <-]].
  destruct (F32.leb _ _) eqn:Hw; [now intros [= <-]|].
  destruct (readWeight_positive _ _ Hw) as [Pw Vw].
  unfold stackHeightsPositive, allPositions in *. apply Forall_app in Hinv.
  destruct Hinv as [Hplus Hminus].
  assert (Hstep : forall uridine p,
             p = TCountsPosition0 \/
             (positiveHeight (reads p) = true /\ F32.valid (reads p) = true) ->
             positiveHeight (reads (bumpPosition (readWeight countMultiHits record) uridine p)) = true /\
             F32.valid (reads (bumpPosition (readWeight countMultiHits record) uridine p)) = true).
  { intros uridine p Hp. unfold bumpPosition. cbn [reads].
    apply add_positive; [|assumption|assumption].
    destruct Hp as [->|Hp]; [left; reflexivity|right; exact Hp]. }
  destruct (hasFlagRC record).
  - destruct (seqAt _ _); [|discriminate]. intros [= <-]. cbn [strandPlus strandMinus].
    apply Forall_app. split; [assumption|].
    apply Forall_positions_bumpStrand; auto.
  - destruct (cigar record); [discriminate|].
    destruct (seqAt _ _); [|discriminate]. intros [= <-]. cbn [strandPlus strandMinus].
    apply Forall_app. split; [|assumption].
    apply Forall_positions_bumpStrand; auto.
Qed.

(** X4.  Every stack the Stack Accumulator creates or raises has a height that is
    positive: a positive finite float or +infinity, never zero, negative
    or not a number.  The property holds of the counts after every file when
    it holds before (it does of the empty counts). *)
Theorem stack_heights_stay_positive minReadLength maxReadLength countMultiHits bamFile :
  forall readCounts code readCounts',
    stackHeightsPositive readCounts ->
    countReadsInBamFile bamFile readCounts minReadLength maxReadLength countMultiHits
    = Some (code, readCounts') ->
    stackHeightsPositive readCounts'.
Proof.
  induction bamFile as [|[record|] bamFile IH]; intros readCounts code readCounts' Hinv H;
    cbn [countReadsInBamFile] in H.
  - now injection H as _ <-.
  - destruct (countRead _ _ _ record readCounts) as [rc|] eqn:E; [|discriminate].
    apply (IH rc code readCounts'); [|assumption].
    now apply (countRead_positive _ _ _ _ _ _ Hinv E).
  - now injection H as _ <-.
Qed.

Lemma stack_heights_stay_positive_witness : stackHeightsPositive (countsOfFile halfFile).
Proof.
  apply (stack_heights_stay_positive 1 1000 multiHitsWeighted (map Some halfFile)
           emptyGenome 0 (countsOfFile halfFile)).
  - constructor.
  - reflexivity.
Defined.

(** ** Overlap Grouper: what the scan does to the height-score map *)

Lemma gainsZeroKeys_refl m : gainsZeroKeys m m.
Proof. intros k. now left. Qed.

Lemma gainsZeroKeys_trans a b c : gainsZeroKeys a b -> gainsZeroKeys b c -> gainsZeroKeys a c.
Proof.
  intros Hab Hbc k. destruct (Hab k) as [E1|[E1 E1']]; destruct (Hbc k) as [E2|[E2 E2']].
  - left. congruence.
  - right. split; congruence.
  - right. split; congruence.
  - congruence.
Qed.

Lemma gainsZeroKeys_index k m : gainsZeroKeys m (fst (smap_index F32.zero k m)).
Proof.
  intros k'. unfold smap_index. cbn [fst].
  destruct (N.eq_dec k' k) as [->|Hne].
  - rewrite smap_find_modify_same. destruct (smap_find k m); [now left|now right].
  - left. now apply smap_find_modify_other.
Qed.

Lemma fold_gainsZeroKeys {A} (step : GroupState -> A -> GroupState) l :
  (forall st a, gainsZeroKeys (fst st) (fst (step st a))) ->
  forall st, gainsZeroKeys (fst st) (fst (fold_left step l st)).
Proof.
  intros Hstep. induction l as [|a l IH]; intros st; cbn [fold_left].
  - apply gainsZeroKeys_refl.
  - eapply gainsZeroKeys_trans; [apply Hstep|apply IH].
Qed.

Lemma countOverlap_gainsZeroKeys log10f maxHeightScore meanHeight maxHeight heightScorePlus
    plus st hit :
  gainsZeroKeys (fst st)
    (fst (countOverlap log10f maxHeightScore meanHeight maxHeight heightScorePlus plus st hit)).
Proof.
  unfold countOverlap. destruct st as [h [c|]]; destruct hit as [o [minus|]];
    try apply gainsZeroKeys_refl.
  destruct (to_unsigned_int (reads minus)) as [key|]; [|apply gainsZeroKeys_refl].
  pose proof (gainsZeroKeys_index key h) as Hk.
  destruct (smap_index F32.zero key h) as [h' v]. cbn [fst] in *.
  destruct (heightScoreBinOf _ _ _ _); exact Hk.
Qed.

Lemma countPosition_gainsZeroKeys log10f maxHeightScore contigMinus st position :
  gainsZeroKeys (fst st) (fst (countPosition log10f maxHeightScore contigMinus st position)).
Proof.
  unfold countPosition. destruct st as [h [c|]]; [|apply gainsZeroKeys_refl].
  destruct (scanVicinity contigMinus (fst position)) as [[stacks sumHeight] maxHeight].
  destruct (F32.ltb F32.zero maxHeight); [|apply gainsZeroKeys_refl].
  destruct (to_unsigned_int (reads (snd position))) as [key|]; [|apply gainsZeroKeys_refl].
  pose proof (gainsZeroKeys_index key h) as Hk.
  destruct (smap_index F32.zero key h) as [h' v]. cbn [fst] in *.
  eapply gainsZeroKeys_trans; [exact Hk|].
  apply (fold_gainsZeroKeys _ _ (countOverlap_gainsZeroKeys _ _ _ _ _ _) (h', Some c)).
Qed.

(** X5.  The scan never changes or removes an entry of the height-score map: every
    key keeps its value, and a key that the scan adds (a height that is looked
    up with [operator[]] and is not in the map) has the value 0. *)
Theorem height_score_map_gains_only_zeros log10f readCounts heightScoreMap :
  gainsZeroKeys heightScoreMap (fst (countStacksByGroup log10f readCounts heightScoreMap)).
Proof.
  unfold countStacksByGroup.
  destruct (maxHeightScoreOf log10f heightScoreMap) as [maxHeightScore|];
    [|apply gainsZeroKeys_refl].
  apply (fold_gainsZeroKeys (countContig log10f maxHeightScore readCounts) _)
    with (st := (heightScoreMap, Some (emptyCounts HEIGHT_SCORE_BINS))).
  intros st [contig contigPlus]. unfold countContig. cbn [fst snd].
  destruct (smap_find contig (strandMinus readCounts)) as [contigMinus|];
    [|apply gainsZeroKeys_refl].
  apply fold_gainsZeroKeys. intros st' position. apply countPosition_gainsZeroKeys.
Qed.

(** ** Overlap Grouper: stacks without a partner *)

Lemma scanVicinity_none contigMinus p :
  (forall overlap, (overlap <= MAX_ARBITRARY_OVERLAP)%nat ->
     smap_find (uint32 (Z.of_N p + Z.of_nat overlap)) contigMinus = None) ->
  scanVicinity contigMinus p = (repeat None 21, F32.zero, F32.zero).
Proof.
  intros H. unfold scanVicinity.
  change (List.seq MIN_ARBITRARY_OVERLAP (MAX_ARBITRARY_OVERLAP - MIN_ARBITRARY_OVERLAP + 1))
    with (List.seq 0 21).
  assert (G : forall n start acc,
             (start + n <= 21)%nat ->
             fold_left
               (fun '(stacks, mean, maxHeight) overlap =>
                  match smap_find (uint32 (Z.of_N p + Z.of_nat overlap)) contigMinus with
                  | Some s => (stacks ++ [Some s], F32.add mean (reads s),
                               if F32.ltb maxHeight (reads s) then reads s else maxHeight)
                  | None => (stacks ++ [None], mean, maxHeight)
                  end)
               (List.seq start n) (acc, F32.zero, F32.zero)
             = (acc ++ repeat None n, F32.zero, F32.zero)).
  { induction n as [|n IH]; intros start acc Hn; cbn [List.seq fold_left repeat].
    - now rewrite app_nil_r.
    - rewrite H by (unfold MAX_ARBITRARY_OVERLAP; lia).
      rewrite IH by lia. now rewrite <- app_assoc. }
  apply (G 21%nat 0%nat []). lia.
Qed.

Lemma countPosition_isolated log10f maxHeightScore contigMinus st position :
  (forall overlap, (overlap <= MAX_ARBITRARY_OVERLAP)%nat ->
     smap_find (uint32 (Z.of_N (fst position) + Z.of_nat overlap)) contigMinus = None) ->
  countPosition log10f maxHeightScore contigMinus st position = st.
Proof.
  intros H. unfold countPosition. destruct st as [h [c|]]; [|reflexivity].
  now rewrite (scanVicinity_none _ _ H).
Qed.

Lemma fold_left_fixed {A B} (step : B -> A -> B) l st :
  (forall a, In a l -> step st a = st) -> fold_left step l st = st.
Proof.
  induction l as [|a l IH]; intros H; cbn [fold_left]; [reflexivity|].
  rewrite H by (left; reflexivity). apply IH. intros a' Ha'. apply H. now right.
Qed.

(** X6.  A stack of the plus strand without any stack 0 to 20 nt downstream on the
    minus strand of its contig contributes nothing and looks nothing up: when
    this holds of all stacks, the histogram is all zeros and the height-score
    map is returned as it was. *)
Theorem stacks_without_partner_are_skipped log10f readCounts heightScoreMap :
  heightScoreMap <> [] ->
  noStackInVicinity readCounts ->
  countStacksByGroup log10f readCounts heightScoreMap
  = (heightScoreMap, Some (emptyCounts HEIGHT_SCORE_BINS)).
Proof.
  intros Hne Hiso. unfold countStacksByGroup.
  destruct heightScoreMap as [|[k0 f0] rest]; [contradiction|]. cbn [maxHeightScoreOf].
  apply fold_left_fixed. intros [contig contigPlus] Hin. unfold countContig. cbn [fst snd].
  destruct (smap_find contig (strandMinus readCounts)) as [contigMinus|] eqn:Em; [|reflexivity].
  apply fold_left_fixed. intros [p position] Hp.
  apply countPosition_isolated. intros overlap Ho. cbn [fst].
  now apply (Hiso contig contigPlus contigMinus p position overlap).
Qed.

Lemma stacks_without_partner_are_skipped_witness :
  groupFile log10f_coarse plusOnlyFile
  = (heightsOfFile plusOnlyFile, Some (emptyCounts HEIGHT_SCORE_BINS)).
Proof.
  apply (stacks_without_partner_are_skipped log10f_coarse (countsOfFile plusOnlyFile)
           (heightsOfFile plusOnlyFile)).
  - intros E. vm_compute in E. discriminate E.
  - intros contig contigPlus contigMinus p position overlap _ Hm.
    vm_compute in Hm. discriminate Hm.
Defined.

(** ** Overlap Grouper: a file without stacks *)

Lemma countsOfFile_nothing_counted records :
  Forall (fun record => isCounted 1 1000 multiHitsWeighted record = false) records ->
  countsOfFile records = emptyGenome.
Proof.
  intros H. unfold countsOfFile.
  assert (E : forall readCounts,
             countReadsInBamFile (map Some records) readCounts 1 1000 multiHitsWeighted
             = Some (0, readCounts)).
  { induction H as [|record records Hr _ IH]; intros readCounts; [reflexivity|].
    cbn [map countReadsInBamFile]. rewrite (countRead_not_counted _ _ _ _ _ Hr). apply IH. }
  now rewrite E.
Qed.

(** X7.  When no record of the file is counted (an empty file, or unmapped reads
    only), the height-score map is empty and the scan dereferences [begin()]
    of the empty map at line 407: its behaviour is undefined. *)
Theorem file_without_stacks_is_undefined log10f records :
  Forall (fun record => isCounted 1 1000 multiHitsWeighted record = false) records ->
  heightsOfFile records = [] /\ groupFile log10f records = ([], None).
Proof.
  intros H. unfold groupFile, heightsOfFile. rewrite (countsOfFile_nothing_counted _ H).
  split; reflexivity.
Qed.

Lemma file_without_stacks_is_undefined_witness :
  groupFile log10f_coarse [unmappedRecord] = ([], None).
Proof.
  apply (file_without_stacks_is_undefined log10f_coarse [unmappedRecord]).
  repeat constructor.
Defined.

(** ** Overlap Grouper: a contribution at the ping-pong overlap *)



(** ** Overlap Grouper: the cells of the histogram *)

Lemma nth_error_Forall {A} (P : A -> Prop) l n a :
  Forall P l -> nth_error l n = Some a -> P a.
Proof. intros H E. apply nth_error_In in E. rewrite Forall_forall in H. auto. Qed.

Lemma nth_error_length_cases {A} (l : list A) n :
  ((n < length l)%nat /\ exists a, nth_error l n = Some a) \/
  ((length l <= n)%nat /\ nth_error l n = None).
Proof.
  destruct (nth_error l n) as [a|] eqn:E.
  - left. split; [apply nth_error_Some; congruence|eauto].
  - right. split; [now apply nth_error_None|reflexivity].
Qed.

(** X9.  Whenever the scan completes, the histogram has the cells
    [overlap][bin][i][j][k] with [overlap < 21], [bin < 1000] and [i, j, k < 2]
    and no others, and every cell holds +0, a positive value or +infinity. *)
Theorem grouper_histogram_cells log10f readCounts heightScoreMap counts overlap bin i j k :
  snd (countStacksByGroup log10f readCounts heightScoreMap) = Some counts ->
  if ((overlap <? 21) && (bin <? HEIGHT_SCORE_BINS) && (i <? 2) && (j <? 2) && (k <? 2))%nat
  then exists x, cellAt overlap bin i j k counts = Some x /\ nonneg x = true
  else cellAt overlap bin i j k counts = None.
Proof.
  intros H. apply countStacksByGroup_raw in H. destruct H as [[Hlen Hcols] Hcells].
  unfold cellAt, allCells in *.
  destruct (nth_error_length_cases counts overlap) as [[Lo (a & Ea)]|[Lo Ea]]; rewrite Ea, Hlen in *.
  2:{ destruct (Nat.ltb_spec overlap 21); [lia|reflexivity]. }
  destruct (Nat.ltb_spec overlap 21); [|lia]. cbn [andb].
  destruct (nth_error_Forall _ _ _ _ Hcols Ea) as [La Ha].
  pose proof (nth_error_Forall _ _ _ _ Hcells Ea) as Ca.
  destruct (nth_error_length_cases a bin) as [[Lb (b & Eb)]|[Lb Eb]]; rewrite Eb, La in *.
  2:{ destruct (Nat.ltb_spec bin HEIGHT_SCORE_BINS); [lia|reflexivity]. }
  destruct (Nat.ltb_spec bin HEIGHT_SCORE_BINS); [|lia]. cbn [andb].
  destruct (nth_error_Forall _ _ _ _ Ha Eb) as [L2 Hb].
  pose proof (nth_error_Forall _ _ _ _ Ca Eb) as Cb.
  destruct (nth_error_length_cases b i) as [[Li (c & Ec)]|[Li Ec]]; rewrite Ec, L2 in *.
  2:{ destruct (Nat.ltb_spec i 2); [lia|reflexivity]. }
  destruct (Nat.ltb_spec i 2); [|lia]. cbn [andb].
  destruct (nth_error_Forall _ _ _ _ Hb Ec) as [L3 Hc].
  pose proof (nth_error_Forall _ _ _ _ Cb Ec) as Cc.
  destruct (nth_error_length_cases c j) as [[Lj (d & Ed)]|[Lj Ed]]; rewrite Ed, L3 in *.
  2:{ destruct (Nat.ltb_spec j 2); [lia|reflexivity]. }
  destruct (Nat.ltb_spec j 2); [|lia]. cbn [andb].
  pose proof (nth_error_Forall _ _ _ _ Hc Ed) as L4. cbn beta in L4.
  pose proof (nth_error_Forall _ _ _ _ Cc Ed) as Cd.
  destruct (nth_error_length_cases d k) as [[Lk (x & Ex)]|[Lk Ex]]; rewrite Ex, L4 in *.
  2:{ destruct (Nat.ltb_spec k 2); [lia|reflexivity]. }
  destruct (Nat.ltb_spec k 2); [|lia].
  exists x. split; [reflexivity|]. exact (nth_error_Forall _ _ _ _ Cd Ex).
Qed.

Lemma grouper_histogram_cells_witness :
  exists counts x,
    snd (groupFile log10f_coarse pairFile) = Some counts /\
    cellAt 10 999 0 0 0 counts = Some x /\ nonneg x = true.
Proof.
  assert (E : exists counts, snd (groupFile log10f_coarse pairFile) = Some counts)
    by (vm_compute; eexists; reflexivity).
  destruct E as [counts E]. exists counts.
  destruct (grouper_histogram_cells log10f_coarse (countsOfFile pairFile) (heightsOfFile pairFile)
              counts 10 999 0 0 0 E) as (x & Hx & Hn).
  exists x. auto.
Defined.

(** ** Bin Collapser: the number of bins *)

Lemma length_collapseSlices slices : forall acc,
  (length (collapseSlices acc slices)
   <= length slices + match acc with Some _ => 1 | None => 0 end)%nat /\
  (slices <> [] -> 0 < length (collapseSlices acc slices))%nat.
Proof.
  induction slices as [|s rest IH]; intros acc.
  - split; [destruct acc; simpl; lia|contradiction].
  - cbn [collapseSlices].
    set (a := addSlice match acc with Some a => a | None => zeroSlice end s).
    destruct (emptyCount a =? 0)%nat.
    + destruct (IH None) as [H _]. cbn [length] in *. split; [destruct acc; lia|lia].
    + destruct (IH (Some a)) as [H H']. cbn [length] in *. split; [destruct acc; lia|].
      intros _. destruct rest as [|s' rest']; [simpl; lia|]. apply H'. discriminate.
Qed.

(** X10.  The Bin Collapser returns a histogram of the same shape with at least one
    bin (when it was given one) and at most as many bins as it was given. *)
Theorem collapseBins_bin_count n counts :
  rectangular n counts ->
  rectangular (binCount (collapseBins counts)) (collapseBins counts) /\
  (binCount (collapseBins counts) <= n)%nat /\
  ((0 < n)%nat -> (0 < binCount (collapseBins counts))%nat).
Proof.
  intros R. destruct (collapseBins_slices n counts R) as [R' Hs].
  split; [exact R'|].
  pose proof (length_slicesOf (collapseBins counts)) as L. rewrite Hs in L.
  pose proof (length_slicesOf counts) as L0. rewrite (rectangular_binCount _ _ R) in L0.
  destruct (length_collapseSlices (slicesOf counts) None) as [H1 H2].
  rewrite L, L0 in *. split; [lia|].
  intros Hn. apply H2. intros E. rewrite E in L0. simpl in L0. lia.
Qed.

Lemma collapseBins_bin_count_witness :
  (0 < binCount (collapseBins fullCounts) <= 3)%nat.
Proof.
  destruct (collapseBins_bin_count 3 fullCounts (proj1 fullCounts_raw)) as (_ & H1 & H2).
  split; [apply H2; lia|exact H1].
Defined.

(** ** Bin Collapser: the histograms it leaves as they are *)

Lemma list_sum_zero_iff l : list_sum l = O <-> Forall (fun n => n = O) l.
Proof.
  split; [apply list_sum_zero|].
  induction 1 as [|n l Hn _ IH]; simpl; lia.
Qed.

Lemma emptyCells_zero_iff c : emptyCells c = O <-> Forall (fun x => isEmptyCell x = false) c.
Proof.
  split; [apply emptyCells_zero|].
  unfold emptyCells. induction 1 as [|x c Hx _ IH]; simpl; [reflexivity|now rewrite Hx].
Qed.

Lemma emptyBinCells_zero_iff b :
  emptyBinCells b = O <-> Forall (Forall (Forall (fun x => isEmptyCell x = false))) b.
Proof.
  split; [apply emptyBinCells_zero|].
  intros H. unfold emptyBinCells. apply list_sum_zero_iff. rewrite Forall_map.
  eapply Forall_impl; [|exact H]. intros r Hr. unfold emptyRows.
  apply list_sum_zero_iff. rewrite Forall_map.
  eapply Forall_impl; [|exact Hr]. intros c. apply emptyCells_zero_iff.
Qed.

Lemma emptyCountFrom_zero_iff s : forall o,
  emptyCountFrom o s = O <->
  (forall i, (i < length s)%nat -> (o + i)%nat <> PING_PONG_OVERLAP ->
             emptyBinCells (nth i s []) = O).
Proof.
  induction s as [|b s IH]; intros o.
  - split; [intros _ i Hi; simpl in Hi; lia|reflexivity].
  - cbn [emptyCountFrom length]. split.
    + intros H i Hi Hne. now apply (emptyCountFrom_zero (b :: s) o i).
    + intros H.
      assert (H0 : (if (o =? PING_PONG_OVERLAP)%nat then O else emptyBinCells b) = O).
      { destruct (Nat.eqb_spec o PING_PONG_OVERLAP) as [|Hne]; [reflexivity|].
        apply (H 0%nat); [lia|]. now rewrite Nat.add_0_r. }
      rewrite H0. apply IH. intros i Hi Hne.
      apply (H (S i)); [lia|]. lia.
Qed.

Lemma Forall_cells_nth (P : float -> Prop) (b : TBin) :
  binShape b ->
  (Forall (Forall (Forall P)) b <->
   forall i j k, (i < 2)%nat -> (j < 2)%nat -> (k < 2)%nat ->
                 P (nth k (nth j (nth i b []) []) F32.zero)).
Proof.
  intros Sb. split.
  - intros H i j k Hi Hj Hk. destruct (binShape_nth b i j Sb Hi Hj) as (H1 & H2 & H3).
    rewrite Forall_forall in H. specialize (H _ (nth_In b [] H1)).
    rewrite Forall_forall in H. specialize (H _ (nth_In _ [] H2)).
    rewrite Forall_forall in H. apply H. apply nth_In. lia.
  - intros H. destruct Sb as [Lb Sb]. rewrite Forall_forall in Sb.
    apply Forall_forall. intros r Hr. destruct (In_nth _ _ [] Hr) as (i & Hi & <-).
    destruct (Sb _ (nth_In b [] Hi)) as [Lr Sr]. rewrite Forall_forall in Sr.
    apply Forall_forall. intros c Hc. destruct (In_nth _ _ [] Hc) as (j & Hj & <-).
    pose proof (Sr _ (nth_In _ [] Hj)) as Lc.
    apply Forall_forall. intros x Hx. destruct (In_nth _ _ F32.zero Hx) as (k & Hk & <-).
    apply H; lia.
Qed.

Lemma emptyCount_backgroundFilled n counts bin :
  rectangular n counts -> (bin < n)%nat ->
  (emptyCount (sliceAt bin counts) = O <-> backgroundFilled counts bin).
Proof.
  intros [Lc Fc] Hb. unfold emptyCount. rewrite emptyCountFrom_zero_iff.
  rewrite length_sliceAt, Lc. unfold backgroundFilled.
  assert (Hshape : forall overlap, (overlap < 21)%nat ->
                     binShape (nth bin (nth overlap counts []) [])).
  { intros overlap Ho. rewrite Forall_forall in Fc.
    assert (Hin : In (nth overlap counts []) counts) by (apply nth_In; lia).
    destruct (Fc _ Hin) as [Lg Fg]. rewrite Forall_forall in Fg.
    apply Fg. apply nth_In. lia. }
  split.
  - intros H overlap i j k Ho Hne Hi Hj Hk.
    specialize (H overlap Ho Hne). rewrite nth_sliceAt in H.
    apply emptyBinCells_zero_iff in H.
    apply (proj1 (Forall_cells_nth _ _ (Hshape overlap Ho)) H i j k Hi Hj Hk).
  - intros H overlap Ho Hne. rewrite nth_sliceAt.
    apply emptyBinCells_zero_iff. apply (Forall_cells_nth _ _ (Hshape overlap Ho)).
    intros i j k Hi Hj Hk. exact (H overlap i j k Ho Hne Hi Hj Hk).
Qed.

(** X11.  The histograms that the Bin Collapser returns unchanged are those in
    which every bin but the last has no cell [<= 0] at a background
    overlap. *)
Theorem collapseBins_fixed_points n counts :
  rawHistogram n counts ->
  (collapseBins counts = counts <->
   forall bin, (S bin < n)%nat -> backgroundFilled counts bin).
Proof.
  intros Raw. pose proof (proj1 Raw) as R.
  destruct (collapseBins_slices n counts R) as [R' Hs].
  pose proof (rectangular_binCount _ _ R) as Hn. split.
  - intros E bin Hb. apply (emptyCount_backgroundFilled n counts bin R); [lia|].
    rewrite <- E at 1. apply (collapseBins_full n counts bin R). rewrite E, Hn. exact Hb.
  - intros H.
    assert (Hid : collapseSlices None (slicesOf counts) = slicesOf counts).
    { apply collapseSlices_idempotent; [now apply (rawHistogram_slices n)|].
      intros c Hc. rewrite length_slicesOf, Hn in Hc.
      rewrite nth_slicesOf by lia.
      apply (emptyCount_backgroundFilled n counts c R); [lia|]. now apply H. }
    rewrite Hid in Hs.
    assert (Hm : binCount (collapseBins counts) = n).
    { rewrite <- (length_slicesOf (collapseBins counts)), Hs, length_slicesOf. exact Hn. }
    rewrite Hm in R'. exact (slices_ext n _ _ R' R Hs).
Qed.

Lemma collapseBins_fixed_points_witness :
  collapseBins fullCounts = fullCounts <->
  forall bin, (S bin < 3)%nat -> backgroundFilled fullCounts bin.
Proof. exact (collapseBins_fixed_points 3 fullCounts fullCounts_raw). Defined.

(** ** Bin Collapser: a background cell that is never filled *)

Lemma zero_cell_not_full a overlap i j k :
  cleanSlice a ->
  (overlap < 21)%nat -> overlap <> PING_PONG_OVERLAP ->
  (i < 2)%nat -> (j < 2)%nat -> (k < 2)%nat ->
  cellOfSlice a overlap i j k = F32.zero -> emptyCount a <> O.
Proof.
  intros (La & Sa & _) Ho Hne Hi Hj Hk Hz Hfull.
  assert (Hoa : (overlap < length a)%nat) by lia.
  pose proof (emptyCountFrom_zero a O overlap Hfull Hoa Hne) as He.
  apply emptyBinCells_zero_iff in He.
  rewrite Forall_forall in Sa. pose proof (Sa _ (nth_In a [] Hoa)) as Sb.
  pose proof (proj1 (Forall_cells_nth _ _ Sb) He i j k Hi Hj Hk) as Hc.
  unfold cellOfSlice in Hz. rewrite Hz in Hc. discriminate Hc.
Qed.

Lemma collapseSlices_never_full overlap i j k slices :
  (overlap < 21)%nat -> overlap <> PING_PONG_OVERLAP ->
  (i < 2)%nat -> (j < 2)%nat -> (k < 2)%nat ->
  Forall cleanSlice slices ->
  Forall (fun s => cellOfSlice s overlap i j k = F32.zero) slices ->
  forall a, cleanSlice a -> cellOfSlice a overlap i j k = F32.zero ->
            length (collapseSlices (Some a) slices) = 1%nat.
Proof.
  intros Ho Hne Hi Hj Hk Hclean Hzero.
  induction slices as [|s rest IH]; intros a Ca Za; [reflexivity|].
  inversion Hclean as [|? ? Cs Crest]; subst. inversion Hzero as [|? ? Zs Zrest]; subst.
  cbn [collapseSlices].
  assert (Ca' : cleanSlice (addSlice a s)) by now apply addSlice_clean.
  assert (Za' : cellOfSlice (addSlice a s) overlap i j k = F32.zero).
  { destruct Ca as (La & Sa & _). destruct Cs as (Ls & Ss & _).
    rewrite cellOfSlice_addSlice by assumption. now rewrite Za, Zs. }
  pose proof (zero_cell_not_full _ _ _ _ _ Ca' Ho Hne Hi Hj Hk Za') as Hnf.
  apply Nat.eqb_neq in Hnf. rewrite Hnf. now apply IH.
Qed.

(** X12.  When one cell of a background overlap is 0 in every bin (a combination
    that no arbitrary overlap was seen with), the Bin Collapser never finds a
    bin complete and merges the whole histogram into one bin. *)
Theorem unseen_background_collapses_all n counts overlap i j k :
  rawHistogram n counts -> (0 < n)%nat ->
  (overlap < 21)%nat -> overlap <> PING_PONG_OVERLAP ->
  (i < 2)%nat -> (j < 2)%nat -> (k < 2)%nat ->
  (forall bin, (bin < n)%nat -> cell counts overlap bin i j k = F32.zero) ->
  binCount (collapseBins counts) = 1%nat.
Proof.
  intros Raw Hn Ho Hne Hi Hj Hk Hz. pose proof (proj1 Raw) as R.
  destruct (collapseBins_slices n counts R) as [_ Hs].
  rewrite <- length_slicesOf, Hs.
  pose proof (rawHistogram_slices n counts Raw) as Hclean.
  assert (Hzero : Forall (fun s => cellOfSlice s overlap i j k = F32.zero) (slicesOf counts)).
  { unfold slicesOf. rewrite (rectangular_binCount _ _ R). apply Forall_map.
    apply Forall_forall. intros bin Hin. apply in_seq in Hin.
    rewrite <- cell_sliceAt. apply Hz. lia. }
  destruct (slicesOf counts) as [|s rest] eqn:E.
  - exfalso. pose proof (length_slicesOf counts) as L.
    rewrite E, (rectangular_binCount _ _ R) in L. simpl in L. lia.
  - rewrite collapseSlices_begin.
    apply (collapseSlices_never_full overlap i j k); try assumption.
    + apply zeroSlice_clean.
    + apply cellOfSlice_zeroSlice.
Qed.

Lemma holeCounts_raw : rawHistogram 2 holeCounts.
Proof. repeat constructor. Qed.

Lemma unseen_background_collapses_all_witness : binCount (collapseBins holeCounts) = 1%nat.
Proof.
  apply (unseen_background_collapses_all 2 holeCounts 3 0 0 0 holeCounts_raw); try lia.
  - discriminate.
  - intros [|[|bin]] Hb; [reflexivity|reflexivity|lia].
Defined.

(** ** Bin Collapser: the ping-pong overlap has no say in the merging *)

Lemma agreeOutsideSignal_length {A} (a b : list A) : forall o,
  agreeOutsideSignal o a b -> length a = length b.
Proof.
  revert b. induction a as [|x a IH]; intros [|y b] o H; simpl in *; try tauto.
  destruct H as [_ H]. f_equal. exact (IH _ _ H).
Qed.

Lemma agreeOutsideSignal_nth {A} (d : A) (a b : list A) : forall o i,
  agreeOutsideSignal o a b -> (o + i)%nat <> PING_PONG_OVERLAP -> nth i a d = nth i b d.
Proof.
  revert b. induction a as [|x a IH]; intros [|y b] o i H Hne; simpl in *; try tauto.
  destruct H as [Hxy H]. destruct i as [|i].
  - apply Hxy. now rewrite Nat.add_0_r in Hne.
  - apply (IH b (S o) i H). lia.
Qed.

Lemma agreeOutsideSignal_of_nth {A} (d : A) (a b : list A) : forall o,
  length a = length b ->
  (forall i, (i < length a)%nat -> (o + i)%nat <> PING_PONG_OVERLAP -> nth i a d = nth i b d) ->
  agreeOutsideSignal o a b.
Proof.
  revert b. induction a as [|x a IH]; intros [|y b] o L H; simpl in *; try discriminate; auto.
  split.
  - intros Hne. apply (H 0%nat); [lia|]. now rewrite Nat.add_0_r.
  - apply IH; [lia|]. intros i Hi Hne. apply (H (S i)); [lia|]. lia.
Qed.

Lemma agreeOutsideSignal_map {A B} (f : A -> B) (a b : list A) : forall o,
  agreeOutsideSignal o a b -> agreeOutsideSignal o (map f a) (map f b).
Proof.
  revert b. induction a as [|x a IH]; intros [|y b] o H; simpl in *; try tauto.
  destruct H as [Hxy H]. split; [intros Hne; f_equal; auto|auto].
Qed.

Lemma agreeOutsideSignal_zipInto {A B} (f : A -> B -> A) (a a' : list A) : forall (s s' : list B) o,
  agreeOutsideSignal o a a' -> agreeOutsideSignal o s s' ->
  agreeOutsideSignal o (zipInto f a s) (zipInto f a' s').
Proof.
  revert a'. induction a as [|x a IH]; intros [|x' a'] [|y s] [|y' s'] o Ha Hs;
    simpl in *; try tauto.
  destruct Ha as [Hx Ha]. destruct Hs as [Hy Hs]. split.
  - intros Hne. now rewrite Hx, Hy.
  - now apply IH.
Qed.

Lemma agreeOutsideSignal_emptyCount (a b : Slice) : forall o,
  agreeOutsideSignal o a b -> emptyCountFrom o a = emptyCountFrom o b.
Proof.
  revert b. induction a as [|x a IH]; intros [|y b] o H; simpl in *; try tauto.
  destruct H as [Hxy H]. rewrite (IH _ _ H).
  destruct (Nat.eqb_spec o PING_PONG_OVERLAP) as [|Hne]; [reflexivity|]. now rewrite Hxy.
Qed.

Lemma agreeOutsideSignal_refl {A} (a : list A) : forall o, agreeOutsideSignal o a a.
Proof. induction a as [|x a IH]; intros o; simpl; auto. Qed.

Lemma collapseSlices_agree slices : forall slices' acc acc',
  Forall2 (agreeOutsideSignal 0) slices slices' ->
  match acc, acc' with
  | Some a, Some a' => agreeOutsideSignal 0 a a'
  | None, None => True
  | _, _ => False
  end ->
  Forall2 (agreeOutsideSignal 0) (collapseSlices acc slices) (collapseSlices acc' slices').
Proof.
  induction slices as [|s rest IH]; intros slices' acc acc' Hs Hacc;
    inversion Hs as [|? s' ? rest' Hss Hrest]; subst.
  - destruct acc, acc'; simpl; try contradiction; repeat constructor; assumption.
  - assert (Hstep : forall a a', agreeOutsideSignal 0 a a' ->
        Forall2 (agreeOutsideSignal 0)
          (if (emptyCount (addSlice a s) =? 0)%nat
           then addSlice a s :: collapseSlices None rest
           else collapseSlices (Some (addSlice a s)) rest)
          (if (emptyCount (addSlice a' s') =? 0)%nat
           then addSlice a' s' :: collapseSlices None rest'
           else collapseSlices (Some (addSlice a' s')) rest')).
    { intros a a' Ha0.
      assert (Ha : agreeOutsideSignal 0 (addSlice a s) (addSlice a' s'))
        by (unfold addSlice; now apply agreeOutsideSignal_zipInto).
      unfold emptyCount. rewrite (agreeOutsideSignal_emptyCount _ _ _ Ha).
      destruct (emptyCountFrom 0 (addSlice a' s') =? 0)%nat.
      - constructor; [assumption|]. now apply IH.
      - now apply IH. }
    destruct acc as [a|], acc' as [a'|]; try contradiction; cbn [collapseSlices].
    + now apply Hstep.
    + apply Hstep. apply agreeOutsideSignal_refl.
Qed.

(** X13.  The counts at the ping-pong overlap have no say in the merging: two
    histograms that differ at the ping-pong overlap only are collapsed into
    the same number of bins, and into the same counts at every background
    overlap. *)
Theorem signal_does_not_steer_collapsing n counts counts' :
  rectangular n counts -> rectangular n counts' ->
  (forall overlap, overlap <> PING_PONG_OVERLAP -> nth overlap counts [] = nth overlap counts' []) ->
  binCount (collapseBins counts) = binCount (collapseBins counts') /\
  forall overlap, overlap <> PING_PONG_OVERLAP ->
    nth overlap (collapseBins counts) [] = nth overlap (collapseBins counts') [].
Proof.
  intros R R' Hsame.
  destruct (collapseBins_slices n counts R) as [Rc Hs].
  destruct (collapseBins_slices n counts' R') as [Rc' Hs'].
  assert (Hcols : agreeOutsideSignal 0 counts counts').
  { apply (agreeOutsideSignal_of_nth []); [destruct R as [L _], R' as [L' _]; exact (eq_trans L (eq_sym L'))|].
    intros i _ Hne. now apply Hsame. }
  assert (Hslices : Forall2 (agreeOutsideSignal 0) (slicesOf counts) (slicesOf counts')).
  { unfold slicesOf. rewrite (rectangular_binCount _ _ R), (rectangular_binCount _ _ R').
    induction (List.seq 0 n) as [|bin l IH]; cbn [map]; constructor; [|exact IH].
    unfold sliceAt. now apply agreeOutsideSignal_map. }
  assert (Hout : Forall2 (agreeOutsideSignal 0) (slicesOf (collapseBins counts))
                              (slicesOf (collapseBins counts'))).
  { rewrite Hs, Hs'. apply collapseSlices_agree; [exact Hslices|exact I]. }
  assert (Hm : binCount (collapseBins counts) = binCount (collapseBins counts')).
  { rewrite <- !length_slicesOf. exact (Forall2_length Hout). }
  split; [exact Hm|].
  intros overlap Hne.
  destruct (Nat.lt_ge_cases overlap 21) as [Ho|Ho].
  2:{ destruct Rc as [Lc _], Rc' as [Lc' _]. rewrite !nth_overflow by lia. reflexivity. }
  assert (Hlen : forall m c, rectangular m c -> length (nth overlap c []) = m).
  { intros m c [Lc Fc]. rewrite Forall_forall in Fc.
    apply (Fc (nth overlap c [])). apply nth_In. lia. }
  pose proof (Hlen _ _ Rc) as E1. pose proof (Hlen _ _ Rc') as E1'.
  apply (nth_ext _ _ [] []).
  - exact (eq_trans E1 (eq_trans Hm (eq_sym E1'))).
  - intros bin Hb. assert (Hb' : (bin < binCount (collapseBins counts))%nat)
      by exact (eq_ind _ (fun m => (bin < m)%nat) Hb _ E1).
    clear Hb. rename Hb' into Hb.
    rewrite <- !nth_sliceAt.
    rewrite <- (nth_slicesOf (collapseBins counts)) by lia.
    rewrite <- (nth_slicesOf (collapseBins counts')) by lia.
    assert (Hagree : agreeOutsideSignal 0 (nth bin (slicesOf (collapseBins counts)) [])
                                          (nth bin (slicesOf (collapseBins counts')) [])).
    { assert (Hbl : (bin < length (slicesOf (collapseBins counts)))%nat)
        by (rewrite length_slicesOf; exact Hb).
      revert Hout Hbl. generalize (slicesOf (collapseBins counts)) (slicesOf (collapseBins counts')).
      clear. intros l l' Hout. revert bin.
      induction Hout as [|x y l l' Hxy _ IH]; intros bin Hbl; [simpl in Hbl; lia|].
      destruct bin as [|bin]; [exact Hxy|]. apply IH. simpl in Hbl. lia. }
    apply (agreeOutsideSignal_nth [] _ _ 0 overlap Hagree). exact Hne.
Qed.

Lemma fullCountsOtherSignal_rectangular : rectangular 3 fullCountsOtherSignal.
Proof. split; [reflexivity|]. repeat constructor. Qed.

Lemma signal_does_not_steer_collapsing_witness :
  binCount (collapseBins fullCounts) = binCount (collapseBins fullCountsOtherSignal).
Proof.
  apply (signal_does_not_steer_collapsing 3 fullCounts fullCountsOtherSignal
           (proj1 fullCounts_raw) fullCountsOtherSignal_rectangular).
  intros overlap Hne.
  do 10 (destruct overlap as [|overlap]; [reflexivity|]).
  destruct overlap as [|overlap]; [now elim Hne|].
  do 10 (destruct overlap as [|overlap]; [reflexivity|]).
  now destruct overlap.
Defined.

(** ** Plots *)

Lemma forEach_indexed {A St} (body : nat -> A -> St -> option St) v : forall from s,
  forEach body from v s = foldOpt (fun s e => body (fst e) (snd e) s) (indexed from v) s.
Proof.
  induction v as [|a v IH]; intros from s; [reflexivity|].
  unfold indexed. cbn [forEach length List.seq combine foldOpt fst snd].
  destruct (body from a s); [apply IH|reflexivity].
Qed.

Lemma foldOpt_app {E St} (f : St -> E -> option St) l1 l2 : forall s,
  foldOpt f (l1 ++ l2) s = match foldOpt f l1 s with Some s' => foldOpt f l2 s' | None => None end.
Proof.
  induction l1 as [|e l1 IH]; intros s; [reflexivity|].
  cbn [app foldOpt]. destruct (f s e); [apply IH|reflexivity].
Qed.

Lemma foldOpt_flat_map {E X St} (f : St -> E -> option St) (h : X -> list E) l : forall s,
  foldOpt f (flat_map h l) s = foldOpt (fun s x => foldOpt f (h x) s) l s.
Proof.
  induction l as [|x l IH]; intros s; [reflexivity|].
  cbn [flat_map foldOpt]. rewrite foldOpt_app.
  destruct (foldOpt f (h x) s); [apply IH|reflexivity].
Qed.

Lemma foldOpt_ext {E St} (f g : St -> E -> option St) l :
  (forall s e, f s e = g s e) -> forall s, foldOpt f l s = foldOpt g l s.
Proof.
  intros H. induction l as [|e l IH]; intros s; [reflexivity|].
  cbn [foldOpt]. rewrite H. destruct (g s e); [apply IH|reflexivity].
Qed.

(** the four inner loops, as one pass over the cells of the overlap *)
Lemma sumBars_column dimension overlap a histograms0 :
  forEach (fun i b =>
    forEach (fun j c =>
      forEach (fun k d =>
        forEach (fun l x => addToBar dimension overlap i j k l x) 0 d) 0 c) 0 b) 0 a histograms0
  = foldOpt (fun H e => updateAt overlap (fun h => rowStep h e) H)
      (cellsWithBars dimension a) histograms0.
Proof.
  unfold cellsWithBars.
  rewrite forEach_indexed, foldOpt_flat_map. apply foldOpt_ext. intros H1 ib.
  rewrite forEach_indexed, foldOpt_flat_map. apply foldOpt_ext. intros H2 jc.
  rewrite forEach_indexed, foldOpt_flat_map. apply foldOpt_ext. intros H3 kd.
  rewrite forEach_indexed, foldOpt_flat_map. apply foldOpt_ext. intros H4 lx.
  unfold addToBar. destruct (barOf dimension (fst ib) (fst jc) (fst kd) (fst lx)) as [bar|];
    [|reflexivity].
  cbn [foldOpt]. unfold rowStep. cbn [fst snd].
  now destruct (updateAt overlap _ H4).
Qed.

Lemma updateAt_ext {A} (f g : A -> option A) n v :
  (forall a, f a = g a) -> updateAt n f v = updateAt n g v.
Proof.
  intros H. revert n. induction v as [|a v IH]; intros [|n]; simpl; try reflexivity.
  - now rewrite H.
  - now rewrite IH.
Qed.

Lemma updateAt_id {A} n (v : list A) : (n < length v)%nat -> updateAt n Some v = Some v.
Proof.
  revert n. induction v as [|a v IH]; intros [|n] H; simpl in *; try lia; [reflexivity|].
  rewrite IH by lia. reflexivity.
Qed.

Lemma updateAt_bind {A} (f g : A -> option A) n v :
  updateAt n (fun a => match f a with Some a' => g a' | None => None end) v
  = match updateAt n f v with Some v' => updateAt n g v' | None => None end.
Proof.
  revert n. induction v as [|a v IH]; intros [|n]; simpl; try reflexivity.
  - destruct (f a); reflexivity.
  - rewrite IH. destruct (updateAt n f v); reflexivity.
Qed.

Lemma foldOpt_updateAt {E A} (step : A -> E -> option A) overlap ev : forall H,
  (overlap < length H)%nat ->
  foldOpt (fun H e => updateAt overlap (fun h => step h e) H) ev H
  = updateAt overlap (foldOpt step ev) H.
Proof.
  induction ev as [|e ev IH]; intros H Ho.
  - cbn [foldOpt]. symmetry. exact (updateAt_id overlap H Ho).
  - cbn [foldOpt].
    transitivity (updateAt overlap
                    (fun h => match step h e with Some h' => foldOpt step ev h' | None => None end) H);
      [|apply updateAt_ext; intros h; reflexivity].
    rewrite updateAt_bind.
    destruct (updateAt overlap (fun h => step h e) H) as [H'|] eqn:Eq; [|reflexivity].
    apply IH. now rewrite (updateAt_length _ _ _ _ Eq).
Qed.

Lemma updateAt_app {A} (f : A -> option A) pre h rows :
  updateAt (length pre) f (pre ++ h :: rows) = option_map (fun h' => pre ++ h' :: rows) (f h).
Proof.
  induction pre as [|p pre IH]; simpl.
  - reflexivity.
  - rewrite IH. now destruct (f h).
Qed.

(** the loop over the overlaps, when its body rewrites row [overlap] only *)
Lemma forEach_rows {A R} (body : nat -> A -> list R -> option (list R))
      (F : A -> R -> option R) (G : A -> R) cols rows :
  (forall overlap a H, (overlap < length H)%nat -> body overlap a H = updateAt overlap (F a) H) ->
  Forall2 (fun a h => F a h = Some (G a)) cols rows ->
  forall pre, forEach body (length pre) cols (pre ++ rows) = Some (pre ++ map G cols).
Proof.
  intros Hbody HF. induction HF as [|a h cols rows Hah _ IH]; intros pre; [reflexivity|].
  cbn [forEach map]. rewrite Hbody by (rewrite length_app; simpl; lia).
  rewrite updateAt_app, Hah. cbn [option_map].
  replace (pre ++ G a :: rows) with ((pre ++ [G a]) ++ rows) by now rewrite <- app_assoc.
  replace (S (length pre)) with (length (pre ++ [G a])) by (rewrite length_app; simpl; lia).
  rewrite IH. now rewrite <- app_assoc.
Qed.

Lemma valuesAt_cons bar e ev :
  valuesAt bar (e :: ev) = if (fst e =? bar)%nat then snd e :: valuesAt bar ev else valuesAt bar ev.
Proof. unfold valuesAt. cbn [filter]. now destruct (fst e =? bar)%nat. Qed.

(** the cells of one overlap, added to a row of bars *)
Lemma foldOpt_rowStep ev : forall h,
  Forall (fun e => (fst e < length h)%nat) ev ->
  exists h', foldOpt rowStep ev h = Some h' /\ length h' = length h /\
             forall bar, nth bar h' F32.zero
                         = fold_left F32.add (valuesAt bar ev) (nth bar h F32.zero).
Proof.
  induction ev as [|e ev IH]; intros h Hev.
  - exists h. repeat split; reflexivity.
  - inversion Hev as [|? ? He Hev']; subst. cbn [foldOpt].
    destruct (rowStep h e) as [h1|] eqn:E.
    + pose proof (updateAt_length _ _ _ _ E) as L1.
      destruct (updateAt_Some _ _ _ _ E) as (y & y' & Hy & Hy' & Hn & Hother).
      injection Hy' as <-.
      destruct (IH h1) as (h' & Hh' & L' & Hbars).
      { rewrite L1. exact Hev'. }
      exists h'. split; [exact Hh'|]. split; [congruence|].
      intros bar. rewrite Hbars, valuesAt_cons.
      destruct (Nat.eqb_spec (fst e) bar) as [<-|Hne].
      * cbn [fold_left]. f_equal.
        rewrite (nth_error_nth _ _ _ Hn), (nth_error_nth _ _ _ Hy). reflexivity.
      * f_equal. unfold nth. fold (@nth float).
        assert (Hb : nth_error h1 bar = nth_error h bar) by (apply Hother; congruence).
        destruct (nth_error h bar) as [z|] eqn:Ez.
        -- now rewrite (nth_error_nth _ _ _ Hb), (nth_error_nth _ _ _ Ez).
        -- apply nth_error_None in Hb. apply nth_error_None in Ez.
           now rewrite !nth_overflow by assumption.
    + exfalso. unfold rowStep in E.
      assert (Hsome : forall (v : list float) n, (n < length v)%nat ->
                updateAt n (fun y => Some (F32.add y (snd e))) v <> None).
      { clear. induction v as [|a v IHv]; intros [|n] Hn; simpl in *; try lia; try discriminate.
        specialize (IHv n). destruct (updateAt n _ v); [discriminate|]. exfalso. apply IHv; [lia|reflexivity]. }
      exact (Hsome h (fst e) He E).
Qed.

Lemma In_indexed {A} (v : list A) : forall from e,
  In e (indexed from v) -> (from <= fst e < from + length v)%nat /\ In (snd e) v.
Proof.
  intros from [i x] H. unfold indexed in H. split.
  - apply in_combine_l in H. apply in_seq in H. exact H.
  - apply in_combine_r in H. exact H.
Qed.

Lemma cellsWithBars_in_range dimension n a :
  length a = n -> Forall binShape a ->
  Forall (fun e => (fst e < barsAlong dimension n)%nat) (cellsWithBars dimension a).
Proof.
  intros La Sa. rewrite Forall_forall in Sa. unfold cellsWithBars.
  apply Forall_flat_map, Forall_forall. intros ib Hib.
  apply In_indexed in Hib. destruct Hib as [Hi Hb]. destruct (Sa _ Hb) as [Lb Sb].
  rewrite Forall_forall in Sb.
  apply Forall_flat_map, Forall_forall. intros jc Hjc.
  apply In_indexed in Hjc. destruct Hjc as [Hj Hc]. destruct (Sb _ Hc) as [Lc Sc].
  rewrite Forall_forall in Sc.
  apply Forall_flat_map, Forall_forall. intros kd Hkd.
  apply In_indexed in Hkd. destruct Hkd as [Hk Hd]. pose proof (Sc _ Hd) as Ld.
  apply Forall_flat_map, Forall_forall. intros lx Hlx.
  apply In_indexed in Hlx. destruct Hlx as [Hl _].
  assert (Hlt : forall i m len : nat, (0 <= i < 0 + len)%nat -> len = m -> (i < m)%nat)
    by (intros; lia).
  destruct dimension as [|[|[|[|dimension]]]]; cbn [barOf barsAlong];
    [apply Forall_cons; [cbn [fst]|apply Forall_nil] .. | apply Forall_nil].
  - exact (Hlt _ _ _ Hi La).
  - exact (Hlt _ _ _ Hj Lb).
  - exact (Hlt _ _ _ Hk Lc).
  - exact (Hlt _ _ _ Hl Ld).
Qed.

Lemma histogramBars_rectangular n counts dimension :
  rectangular n counts -> (0 < n)%nat ->
  histogramBars counts dimension = Some (barsAlong dimension n).
Proof.
  intros [L F] Hn.
  destruct counts as [|a counts]; [discriminate|].
  inversion F as [|? ? [La Sa] _]; subst.
  destruct a as [|b a]; [simpl in Hn; lia|].
  inversion Sa as [|? ? [Lb Sb] _]; subst.
  destruct b as [|c b]; [discriminate|].
  inversion Sb as [|? ? [Lc Sc] _]; subst.
  destruct c as [|d c]; [discriminate|].
  inversion Sc as [|? ? Ld _]; subst.
  destruct dimension as [|[|[|[|dimension]]]]; cbn [histogramBars front option_map barsAlong];
    congruence.
Qed.

Lemma histograms_rows n counts dimension :
  rectangular n counts -> (0 < n)%nat ->
  exists rows,
    histograms counts dimension = Some rows /\
    Forall2 (fun a h =>
               length h = barsAlong dimension n /\
               forall bar, nth bar h F32.zero = barSum dimension a bar) counts rows.
Proof.
  intros R Hn. unfold histograms. rewrite (histogramBars_rectangular n counts dimension R Hn).
  set (bars := barsAlong dimension n).
  unfold sumBars.
  assert (Hrows : exists G,
             Forall2 (fun a h => foldOpt rowStep (cellsWithBars dimension a) h = Some (G a))
                     counts (repeat (repeat F32.zero bars) (length counts)) /\
             Forall (fun a => length (G a) = bars /\
                              forall bar, nth bar (G a) F32.zero = barSum dimension a bar) counts).
  { exists (fun a => match foldOpt rowStep (cellsWithBars dimension a) (repeat F32.zero bars) with
                     | Some h => h
                     | None => []
                     end).
    destruct R as [_ F]. clear Hn.
    induction F as [|a counts [La Sa] _ [IH1 IH2]]; cbn [length repeat]; split; constructor;
      try assumption.
    - destruct (foldOpt_rowStep (cellsWithBars dimension a) (repeat F32.zero bars))
        as (h' & Hh' & _).
      { rewrite repeat_length. now apply cellsWithBars_in_range. }
      now rewrite Hh'.
    - destruct (foldOpt_rowStep (cellsWithBars dimension a) (repeat F32.zero bars))
        as (h' & Hh' & L' & Hbars).
      { rewrite repeat_length. now apply cellsWithBars_in_range. }
      rewrite Hh'. rewrite repeat_length in L'. split; [exact L'|].
      intros bar. rewrite Hbars, nth_repeat. reflexivity. }
  destruct Hrows as (G & HG & Hrows).
  exists (map G counts). split.
  - exact (forEach_rows _ (fun a => foldOpt rowStep (cellsWithBars dimension a)) G counts
             (repeat (repeat F32.zero bars) (length counts))
             (fun overlap a H Ho =>
                eq_trans (sumBars_column dimension overlap a H)
                         (foldOpt_updateAt rowStep overlap _ H Ho))
             HG []).
  - clear - Hrows. induction Hrows as [|a counts' Ha _ IH]; cbn [map]; constructor; assumption.
Qed.

Lemma Forall2_map_eq {A B} (f : A -> B) l : forall l',
  Forall2 (fun a b => b = f a) l l' -> l' = map f l.
Proof.
  induction l as [|a l IH]; intros l' H; inversion H; subst; [reflexivity|].
  cbn [map]. f_equal. now apply IH.
Qed.

(** X14.  Each bar that [plotHistograms] plots for an overlap is the sum of the
    cells of that overlap whose index along the plotted dimension is the bar,
    added one after the other in the order of their indices, starting from 0.
    A histogram of [n >= 1] bins gets 21 rows of [n] bars along dimension 0
    and of 2 bars along dimensions 1 to 3; along a dimension above 3 the rows
    are empty. *)
Theorem plotted_bars_are_sums_in_index_order n counts dimension :
  rectangular n counts -> (0 < n)%nat ->
  histograms counts dimension
  = Some (map (fun a => map (barSum dimension a) (List.seq 0 (barsAlong dimension n))) counts).
Proof.
  intros R Hn. destruct (histograms_rows n counts dimension R Hn) as (rows & -> & Hrows).
  f_equal. apply Forall2_map_eq. clear R.
  induction Hrows as [|a h counts' rows' [Lh Hbars] _ IH]; [constructor|].
  constructor; [|exact IH].
  apply (nth_ext _ _ F32.zero F32.zero).
  - now rewrite length_map, length_seq.
  - intros bar Hb. rewrite Hbars.
    rewrite (nth_indep _ F32.zero (barSum dimension a 0%nat))
      by (rewrite length_map, length_seq; lia).
    rewrite (map_nth (barSum dimension a)), seq_nth by lia. reflexivity.
Qed.

Lemma plotted_bars_are_sums_in_index_order_witness :
  histograms fullCounts 1
  = Some (map (fun a => map (barSum 1 a) (List.seq 0 (barsAlong 1 3))) fullCounts).
Proof.
  apply (plotted_bars_are_sums_in_index_order 3 fullCounts 1 (proj1 fullCounts_raw)). lia.
Defined.

Lemma map_snd_indexed {A} (v : list A) : forall from, map snd (indexed from v) = v.
Proof.
  induction v as [|a v IH]; intros from; [reflexivity|].
  unfold indexed. cbn [length List.seq combine map snd]. f_equal. apply IH.
Qed.

Lemma flat_map_indexed {A B} (f : A -> list B) (v : list A) : forall from,
  flat_map (fun e => f (snd e)) (indexed from v) = flat_map f v.
Proof.
  induction v as [|a v IH]; intros from; [reflexivity|].
  unfold indexed. cbn [length List.seq combine flat_map snd]. f_equal. apply IH.
Qed.

Lemma flat_map_pair {A B} (i : A) (f : B -> list float) (v : list B) :
  flat_map (fun x => map (pair i) (f x)) v = map (pair i) (flat_map f v).
Proof.
  induction v as [|x v IH]; [reflexivity|].
  cbn [flat_map]. now rewrite IH, map_app.
Qed.

Lemma valuesAt_app bar l1 l2 : valuesAt bar (l1 ++ l2) = valuesAt bar l1 ++ valuesAt bar l2.
Proof. unfold valuesAt. now rewrite filter_app, map_app. Qed.

Lemma valuesAt_pair bar i (cells : list float) :
  valuesAt bar (map (pair i) cells) = if (i =? bar)%nat then cells else [].
Proof.
  induction cells as [|x cells IH]; [now destruct (i =? bar)%nat|].
  cbn [map]. rewrite valuesAt_cons, IH. cbn [fst snd]. now destruct (i =? bar)%nat.
Qed.

(** along dimension 0 the cells of a bar are the cells of the bin *)
Lemma valuesAt_bins bar (a : TGroupedStackCounts) : forall from,
  valuesAt bar (flat_map (fun ib => map (pair (fst ib)) (binCells (snd ib))) (indexed from a))
  = if ((from <=? bar) && (bar <? from + length a))%nat then binCells (nth (bar - from) a []) else [].
Proof.
  induction a as [|b a IH]; intros from.
  - cbn [length]. replace (bar <? from + 0)%nat with (bar <? from)%nat by (f_equal; lia).
    destruct (Nat.leb_spec from bar), (Nat.ltb_spec bar from); try reflexivity; lia.
  - unfold indexed. cbn [length List.seq combine flat_map fst snd].
    fold (indexed (S from) a). rewrite valuesAt_app, valuesAt_pair, IH.
    destruct (Nat.eqb_spec from bar) as [->|Hne].
    + rewrite Nat.sub_diag. cbn [nth].
      destruct (Nat.leb_spec (S bar) bar); [lia|]. cbn [andb]. rewrite app_nil_r.
      destruct (Nat.leb_spec bar bar); [|lia].
      destruct (Nat.ltb_spec bar (bar + S (length a))); [reflexivity|lia].
    + cbn [app].
      destruct (Nat.leb_spec (S from) bar), (Nat.leb_spec from bar); try lia; cbn [andb];
        try reflexivity.
      replace (bar <? from + S (length a))%nat with (bar <? S from + length a)%nat
        by (f_equal; lia).
      destruct (bar <? S from + length a)%nat; [|reflexivity].
      replace (bar - from)%nat with (S (bar - S from)) by lia. reflexivity.
Qed.

Lemma flat_map_map_concat {A B} (f : A -> B) (l : list (list A)) :
  flat_map (map f) l = map f (concat l).
Proof. now rewrite flat_map_concat_map, concat_map. Qed.

Lemma cellsWithBars_bins (a : TGroupedStackCounts) :
  cellsWithBars 0 a
  = flat_map (fun ib => map (pair (fst ib)) (binCells (snd ib))) (indexed 0 a).
Proof.
  unfold cellsWithBars. apply flat_map_ext. intros [i b]. cbn [fst snd barOf].
  assert (H1 : forall d : list float,
             flat_map (fun lx => [(i, snd lx)]) (indexed 0 d) = map (pair i) d).
  { intros d. rewrite (flat_map_indexed (fun x => [(i, x)]) d 0).
    induction d as [|x d IH]; [reflexivity|]. cbn [flat_map map app]. now rewrite IH. }
  assert (H2 : forall c : list (list float),
             flat_map (fun kd => flat_map (fun lx => [(i, snd lx)]) (indexed 0 (snd kd)))
                      (indexed 0 c) = map (pair i) (concat c)).
  { intros c.
    rewrite (flat_map_indexed (fun d => flat_map (fun lx => [(i, snd lx)]) (indexed 0 d)) c 0).
    rewrite <- flat_map_map_concat. apply flat_map_ext. exact H1. }
  rewrite (flat_map_indexed
             (fun c => flat_map (fun kd => flat_map (fun lx => [(i, snd lx)]) (indexed 0 (snd kd)))
                                (indexed 0 c)) b 0).
  rewrite (flat_map_ext _ _ H2). unfold binCells.
  induction b as [|c b IH]; [reflexivity|].
  cbn [flat_map concat]. now rewrite IH, concat_app, map_app.
Qed.

(** X15.  In the plot of the height scores (dimension 0) the bar of a bin is the
    sum of the eight cells of the bin, added in the order of their indices
    starting from 0; there is one bar for every bin of every overlap. *)
Theorem height_score_bars_are_bin_totals n counts :
  rectangular n counts -> (0 < n)%nat ->
  histograms counts 0
  = Some (map (map (fun b => fold_left F32.add (binCells b) F32.zero)) counts).
Proof.
  intros R Hn. destruct (histograms_rows n counts 0 R Hn) as (rows & -> & Hrows).
  f_equal. apply Forall2_map_eq.
  destruct R as [_ F].
  induction Hrows as [|a h counts' rows' [Lh Hbars] _ IH]; [constructor|].
  constructor; [|apply IH; now inversion F].
  inversion F as [|? ? [La _] _]; subst.
  cbn [barsAlong] in Lh.
  apply (nth_ext _ _ F32.zero F32.zero).
  - now rewrite length_map.
  - intros bar Hb. rewrite Hbars. unfold barSum.
    rewrite cellsWithBars_bins, valuesAt_bins.
    destruct (Nat.leb_spec 0 bar); [|lia].
    destruct (Nat.ltb_spec bar (0 + length a)); [|lia]. cbn [andb]. rewrite Nat.sub_0_r.
    rewrite (nth_indep _ F32.zero (fold_left F32.add (binCells []) F32.zero))
      by (rewrite length_map; lia).
    now rewrite (map_nth (fun b => fold_left F32.add (binCells b) F32.zero)).
Qed.

Lemma height_score_bars_are_bin_totals_witness :
  histograms fullCounts 0
  = Some (map (map (fun b => fold_left F32.add (binCells b) F32.zero)) fullCounts).
Proof.
  apply (height_score_bars_are_bin_totals 3 fullCounts (proj1 fullCounts_raw)). lia.
Defined.

(** ** The command line *)

Lemma get_last s : forall c,
  String.get (String.length s - 1) s = Some c ->
  exists directory, s = String.append directory (String.String c String.EmptyString).
Proof.
  induction s as [|a s IH]; intros c H; [discriminate|].
  destruct s as [|b s'].
  - cbn in H. injection H as <-. now exists String.EmptyString.
  - assert (E : String.get (String.length (String.String a (String.String b s')) - 1)
                  (String.String a (String.String b s'))
                = String.get (String.length (String.String b s') - 1) (String.String b s')).
    { cbn [String.length]. rewrite !Nat.sub_succ, !Nat.sub_0_r. reflexivity. }
    rewrite E in H. destruct (IH c H) as [directory Hd].
    exists (String.String a directory). cbn [String.append]. now rewrite <- Hd.
Qed.

(** X16.  When [parseCommandLine] returns [PARSE_OK], the options are consistent:
    the minimum read length is not above the maximum; the input files are
    [/dev/stdin] alone when the option [input] has no value, and otherwise the
    values of the option in their order, with [/dev/stdin] in place of every
    value [-]; so there is at least one input file and none of them is named
    [-]; the output directory is empty or ends with the path separator; and
    the verbosity is 0 or 3. *)
Theorem accepted_options_are_consistent parserResult parser options0 options :
  parseCommandLine parserResult parser options0 = (PARSE_OK, options) ->
  (minReadLength options <= maxReadLength options)%N /\
  (parsedInput parser = [] -> inputFiles options = ["/dev/stdin"%string]) /\
  (parsedInput parser <> [] ->
   inputFiles options
   = map (fun value => if String.eqb value "-"%string then "/dev/stdin"%string else value)
         (parsedInput parser)) /\
  length (inputFiles options) = Nat.max 1 (length (parsedInput parser)) /\
  ~ In "-"%string (inputFiles options) /\
  (output options = ""%string \/
   exists directory,
     output options = String.append directory (String.String PATH_SEPARATOR String.EmptyString)) /\
  (verbosity options = 0%N \/ verbosity options = 3%N).
Proof.
  unfold parseCommandLine. intros H.
  destruct parserResult; try discriminate H.
  destruct (N.ltb_spec (parsedMaxReadLength parser) (parsedMinReadLength parser)) as [Hlt|Hle];
    [discriminate H|].
  injection H as <-. cbn [minReadLength maxReadLength inputFiles output verbosity].
  split; [exact Hle|]. split; [|split; [|split; [|split; [|split]]]].
  - intros ->. reflexivity.
  - destruct (parsedInput parser) as [|value values]; [intros Hne; now elim Hne|].
    intros _. reflexivity.
  - destruct (parsedInput parser) as [|value values]; [reflexivity|].
    cbv iota. cbn [length]. rewrite length_map. unfold CharString. lia.
  - destruct (parsedInput parser) as [|value values].
    + intros [E|[]]. discriminate E.
    + assert (Hf : forall v : CharString,
                 (if String.eqb v "-"%string then "/dev/stdin"%string else v) <> "-"%string).
      { intros v. destruct (String.eqb_spec v "-"%string) as [->|Hne]; [discriminate|exact Hne]. }
      cbv iota. intros [E|Hin]; [exact (Hf _ E)|].
      apply in_map_iff in Hin. destruct Hin as (v & Hv & _). exact (Hf _ Hv).
  - destruct (Nat.ltb_spec 0 (String.length (parsedOutput parser))) as [Hpos|Hzero]; cbn [andb].
    + unfold lastDiffersFrom.
      destruct (String.get (String.length (parsedOutput parser) - 1) (parsedOutput parser))
        as [c|] eqn:E.
      * destruct (Ascii.eqb_spec c PATH_SEPARATOR) as [->|Hne]; cbn [negb].
        -- right. now apply get_last.
        -- right. now exists (parsedOutput parser).
      * right. now exists (parsedOutput parser).
    + left. destruct (parsedOutput parser); [reflexivity|simpl in Hzero; lia].
  - destruct (isSetVerbose parser); auto.
Qed.

Lemma accepted_options_are_consistent_witness :
  inputFiles (snd (parseCommandLine PARSE_OK exampleParser defaultOptions))
  = ["/dev/stdin"%string; "reads.sam"%string] /\
  output (snd (parseCommandLine PARSE_OK exampleParser defaultOptions)) = "out/"%string /\
  inputFiles (snd (parseCommandLine PARSE_OK (mkParser false [] "unique"%string 1 1 1000
                                                ""%string false false) defaultOptions))
  = ["/dev/stdin"%string].
Proof.
  destruct (accepted_options_are_consistent PARSE_OK exampleParser defaultOptions
              (snd (parseCommandLine PARSE_OK exampleParser defaultOptions)) eq_refl)
    as (_ & _ & Hfiles & _).
  destruct (accepted_options_are_consistent PARSE_OK
              (mkParser false [] "unique"%string 1 1 1000 ""%string false false) defaultOptions
              (snd (parseCommandLine PARSE_OK
                      (mkParser false [] "unique"%string 1 1 1000 ""%string false false)
                      defaultOptions)) eq_refl)
    as (_ & Hstdin & _).
  split; [|split].
  - rewrite Hfiles by discriminate. reflexivity.
  - reflexivity.
  - apply Hstdin. reflexivity.
Defined.

(** ** The stopwatch *)

(** X17.  [main] calls the stopwatch in pairs.  When the clock of the first call is
    not 0 and the second call comes less than 2^32 seconds later, the first
    call returns 0 and the second one the seconds between the two calls, and
    the stopwatch is idle again.  With verbosity 3 or more the first call
    prints the operation; the second one prints the elapsed seconds when they
    are not 0, and an empty operation otherwise. *)
Theorem stopwatch_times_an_operation operation verbosity t1 t2 :
  t1 <> 0 -> t1 <= t2 < t1 + 2 ^ 32 ->
  let first := stopwatch operation verbosity t1 0 in
  let second := stopwatch_stop verbosity t2 (snd first) in
  fst (fst first) = 0%N /\
  fst (fst second) = Z.to_N (t2 - t1) /\
  snd second = 0 /\
  ((3 <= verbosity)%N ->
   snd (fst first) = messageOperation operation /\
   snd (fst second) = if t1 <? t2 then messageDone (Z.to_N (t2 - t1))
                      else messageOperation ""%string).
Proof.
  intros Ht1 Ht2. unfold stopwatch_stop, stopwatch. cbn [fst snd Z.eqb negb].
  apply Z.eqb_neq in Ht1. rewrite Ht1. cbn [negb].
  assert (E : uint32 (t2 - t1) = Z.to_N (t2 - t1)).
  { unfold uint32. rewrite Z.mod_small by lia. reflexivity. }
  rewrite E. split; [reflexivity|]. split; [reflexivity|]. split; [reflexivity|].
  intros Hv. apply N.leb_le in Hv. rewrite Hv. split; [reflexivity|].
  destruct (Z.ltb_spec t1 t2) as [Hlt|Hge].
  - destruct (N.ltb_spec 0 (Z.to_N (t2 - t1))) as [_|Hz]; [reflexivity|lia].
  - destruct (N.ltb_spec 0 (Z.to_N (t2 - t1))) as [Hz|_]; [lia|reflexivity].
Qed.

Lemma stopwatch_times_an_operation_witness :
  fst (fst (stopwatch_stop 3 1700000007
              (snd (stopwatch "Binning stacks"%string 3 1700000000 0)))) = 7%N.
Proof.
  destruct (stopwatch_times_an_operation "Binning stacks"%string 3 1700000000 1700000007)
    as (_ & H & _); [discriminate|lia|exact H].
Defined.

(** ** [main]: the @SQ lines of several files *)

Lemma compareNameStores_differ l1 l2 : compareNameStores l1 l2 true = true.
Proof. destruct l1, l2; reflexivity. Qed.

Lemma compareNameStores_spec l1 : forall l2,
  compareNameStores l1 l2 false || negb (length l1 =? length l2)%nat = false <-> l1 = l2.
Proof.
  induction l1 as [|name l1 IH]; intros [|tempName l2]; cbn [compareNameStores length].
  - split; reflexivity.
  - split; discriminate.
  - split; discriminate.
  - destruct (String.eqb_spec name tempName) as [->|Hne]; cbn [negb].
    + change (S (length l1) =? S (length l2))%nat with (length l1 =? length l2)%nat.
      rewrite IH. split; [now intros ->|now intros [= ->]].
    + rewrite compareNameStores_differ. split; [discriminate|]. intros [= E _]. now elim Hne.
Qed.

Lemma rememberNameStore_Some bamNameStore fileNameStore result :
  rememberNameStore bamNameStore fileNameStore = Some result ->
  (bamNameStore = [] /\ result = fileNameStore) \/
  (bamNameStore <> [] /\ fileNameStore = bamNameStore /\ result = bamNameStore).
Proof.
  unfold rememberNameStore. destruct bamNameStore as [|name rest].
  - cbn [length Nat.eqb]. intros [= <-]. now left.
  - change (length (name :: rest) =? 0)%nat with false. cbv iota.
    destruct (compareNameStores (name :: rest) fileNameStore false
              || negb (length (name :: rest) =? length fileNameStore)%nat) eqn:E;
      [discriminate|].
    apply compareNameStores_spec in E. subst fileNameStore.
    intros [= <-]. right. repeat split. discriminate.
Qed.

(** X18.  The @SQ lines of a file are accepted in two cases only: no @SQ line was
    seen before, and those of the file are adopted without a comparison; or
    they are, entry by entry, the ones seen before. *)
Theorem name_stores_must_be_equal bamNameStore fileNameStore result :
  rememberNameStore bamNameStore fileNameStore = Some result <->
  (bamNameStore = [] /\ result = fileNameStore) \/
  (bamNameStore <> [] /\ fileNameStore = bamNameStore /\ result = bamNameStore).
Proof.
  unfold rememberNameStore.
  destruct bamNameStore as [|name rest].
  - cbn [length Nat.eqb]. split.
    + intros [= <-]. now left.
    + intros [[_ ->]|[H _]]; [reflexivity|now elim H].
  - change (length (name :: rest) =? 0)%nat with false. cbv iota.
    destruct (compareNameStores (name :: rest) fileNameStore false
              || negb (length (name :: rest) =? length fileNameStore)%nat) eqn:E.
    + split; [discriminate|]. intros [[H _]|(_ & -> & _)]; [discriminate H|].
      assert (E' := proj2 (compareNameStores_spec (name :: rest) (name :: rest)) eq_refl).
      rewrite E' in E. discriminate E.
    + apply compareNameStores_spec in E. subst fileNameStore. split.
      * intros [= <-]. right. repeat split. discriminate.
      * intros [[H _]|(_ & _ & ->)]; [discriminate H|reflexivity].
Qed.

Lemma readInputFiles_nameStores options bamFiles : forall readCounts bamNameStore readCounts' final,
  readInputFiles bamFiles options readCounts bamNameStore = Some (Some (readCounts', final)) ->
  exists k, (k <= length bamFiles)%nat /\
    (bamNameStore <> [] -> k = 0%nat /\ final = bamNameStore) /\
    map nameStore bamFiles = repeat [] k ++ repeat final (length bamFiles - k).
Proof.
  induction bamFiles as [|bamFile rest IH]; intros readCounts bamNameStore readCounts' final H.
  - injection H as _ <-. exists 0%nat. repeat split; auto.
  - cbn [readInputFiles] in H.
    destruct (isGood bamFile); cbn [negb] in H; [|discriminate H].
    destruct (countReadsInBamFile _ _ _ _ _) as [[code counts]|]; [|discriminate H].
    destruct (negb (code =? 0)); [discriminate H|].
    destruct (rememberNameStore bamNameStore (nameStore bamFile)) as [stored|] eqn:E;
      [|discriminate H].
    destruct (IH _ _ _ _ H) as (k & Hk & Hstored & Hmap).
    apply rememberNameStore_Some in E.
    destruct E as [[-> ->]|(Hne & Hfile & ->)].
    + destruct (nameStore bamFile) as [|name names] eqn:En.
      * exists (S k). cbn [length map repeat app Nat.sub]. rewrite En, Hmap.
        split; [lia|]. split; [intros Hc; now elim Hc|reflexivity].
      * destruct Hstored as [-> ->]; [discriminate|].
        exists 0%nat. cbn [length map] in *. rewrite En, Hmap, !Nat.sub_0_r.
        split; [lia|]. split; [intros Hc; now elim Hc|reflexivity].
    + destruct (Hstored Hne) as [-> ->].
      exists 0%nat. cbn [length map] in *. rewrite Hfile, Hmap, !Nat.sub_0_r.
      split; [lia|]. split; [intros _; now split|reflexivity].
Qed.

(** ** [main]: several input files *)

Lemma countReadsInBamFile_0 minReadLength maxReadLength countMultiHits bamFile :
  forall readCounts readCounts',
    countReadsInBamFile bamFile readCounts minReadLength maxReadLength countMultiHits
    = Some (0, readCounts') ->
    Forall (fun record => record <> None) bamFile /\
    forall rest,
      countReadsInBamFile (bamFile ++ rest) readCounts minReadLength maxReadLength countMultiHits
      = countReadsInBamFile rest readCounts' minReadLength maxReadLength countMultiHits.
Proof.
  induction bamFile as [|[record|] bamFile IH]; intros readCounts readCounts' H.
  - injection H as <-. split; [constructor|reflexivity].
  - cbn [countReadsInBamFile] in H.
    destruct (countRead _ _ _ record readCounts) as [counts|] eqn:E; [|discriminate H].
    destruct (IH _ _ H) as [Hall Happ]. split; [constructor; [discriminate|exact Hall]|].
    intros rest. cbn [app countReadsInBamFile]. rewrite E. apply Happ.
  - discriminate H.
Qed.

Lemma readInputFiles_counts options bamFiles : forall readCounts bamNameStore readCounts' final,
  readInputFiles bamFiles options readCounts bamNameStore = Some (Some (readCounts', final)) ->
  Forall (fun bamFile => isGood bamFile = true) bamFiles /\
  countReadsInBamFile (concat (map records bamFiles)) readCounts
    (minReadLength options) (maxReadLength options) (countMultiHits options)
  = Some (0, readCounts').
Proof.
  induction bamFiles as [|bamFile rest IH]; intros readCounts bamNameStore readCounts' final H.
  - injection H as <- _. split; [constructor|reflexivity].
  - cbn [readInputFiles] in H.
    destruct (isGood bamFile) eqn:Eg; cbn [negb] in H; [|discriminate H].
    destruct (countReadsInBamFile (records bamFile) _ _ _ _) as [[code counts]|] eqn:Ec;
      [|discriminate H].
    destruct (Z.eqb_spec code 0) as [->|Hne]; cbn [negb] in H; [|discriminate H].
    destruct (rememberNameStore bamNameStore (nameStore bamFile)) as [stored|];
      [|discriminate H].
    destruct (IH _ _ _ _ H) as [Hgood Hcounts].
    split; [constructor; assumption|].
    cbn [map concat]. rewrite (proj2 (countReadsInBamFile_0 _ _ _ _ _ _ Ec)). exact Hcounts.
Qed.

(** X19.  When the loop over the input files comes to its end, every file could be
    opened and every record could be read; the counts are those of one file
    that holds the records of all of them, in the order of the command line;
    and the files have the same @SQ lines, apart from files without any at
    the beginning. *)
Theorem input_files_are_read_as_one options bamFiles readCounts readCounts' final :
  readInputFiles bamFiles options readCounts [] = Some (Some (readCounts', final)) ->
  Forall (fun bamFile => isGood bamFile = true) bamFiles /\
  Forall (fun record => record <> None) (concat (map records bamFiles)) /\
  countReadsInBamFile (concat (map records bamFiles)) readCounts
    (minReadLength options) (maxReadLength options) (countMultiHits options)
  = Some (0, readCounts') /\
  exists k, (k <= length bamFiles)%nat /\
            map nameStore bamFiles = repeat [] k ++ repeat final (length bamFiles - k).
Proof.
  intros H. destruct (readInputFiles_counts _ _ _ _ _ _ H) as [Hgood Hcounts].
  split; [exact Hgood|]. split; [|split; [exact Hcounts|]].
  - exact (proj1 (countReadsInBamFile_0 _ _ _ _ _ _ Hcounts)).
  - destruct (readInputFiles_nameStores _ _ _ _ _ _ H) as (k & Hk & _ & Hmap).
    exists k. split; assumption.
Qed.

Lemma input_files_are_read_as_one_witness :
  countReadsInBamFile (map Some pairFile) emptyGenome 1 1000 multiHitsWeighted
  = Some (0, countsOfFile pairFile).
Proof.
  assert (H : readInputFiles twoStreams
                (snd (parseCommandLine PARSE_OK pairParser defaultOptions)) emptyGenome []
              = Some (Some (countsOfFile pairFile, ["chr1"%string])))
    by (vm_compute; reflexivity).
  exact (proj1 (proj2 (proj2 (input_files_are_read_as_one _ _ _ _ _ H)))).
Defined.

(** ** [main]: the exit code 0 *)

(** X20.  [main] returns 0 only when the command line was accepted, every input
    file could be opened and read to its end, and the output directory, if
    one was given, could be entered.  The histogram it is left with then has
    21 overlaps of the same number of bins, between 1 and 1000, and there are
    four plots exactly when plots were asked for. *)
Theorem main_returns_0 log10f parserResult parser options0 openFile chdir result :
  main log10f parserResult parser options0 openFile chdir = Some (0, result) ->
  exists options counts bars,
    parseCommandLine parserResult parser options0 = (PARSE_OK, options) /\
    Forall (fun name => isGood (openFile name) = true /\
                        Forall (fun record => record <> None) (records (openFile name)))
           (inputFiles options) /\
    (output options = ""%string \/ chdir (output options) = 0) /\
    result = Some (counts, bars) /\
    rectangular (binCount counts) counts /\
    (1 <= binCount counts <= HEIGHT_SCORE_BINS)%nat /\
    length bars = (if plot options then 4 else 0)%nat.
Proof.
  unfold main. intros H.
  destruct (parseCommandLine parserResult parser options0) as [r options] eqn:Ep.
  destruct r; try discriminate H.
  destruct (readInputFiles (map openFile (inputFiles options)) options emptyGenome [])
    as [[[readCounts final]|]|] eqn:Er; try discriminate H.
  destruct ((0 <? String.length (output options))%nat && negb (chdir (output options) =? 0))
    eqn:Ed; [discriminate H|].
  destruct (mapHeightsToScores readCounts []) as [heightScoreMap|]; [|discriminate H].
  destruct (snd (countStacksByGroup log10f readCounts heightScoreMap)) as [grouped|] eqn:Eg;
    [|discriminate H].
  pose proof (proj1 (countStacksByGroup_raw _ _ _ _ Eg)) as R.
  destruct (collapseBins_slices _ _ R) as [Rc Hs].
  assert (Hbins : (1 <= binCount (collapseBins grouped) <= HEIGHT_SCORE_BINS)%nat).
  { pose proof (length_slicesOf (collapseBins grouped)) as L. rewrite Hs in L.
    pose proof (length_slicesOf grouped) as L0. rewrite (rectangular_binCount _ _ R) in L0.
    destruct (length_collapseSlices (slicesOf grouped) None) as [H1 H2].
    rewrite L, L0 in *. split; [|lia].
    apply H2. intros E. rewrite E in L0. discriminate L0. }
  assert (Hfiles : Forall (fun name => isGood (openFile name) = true /\
                             Forall (fun record => record <> None) (records (openFile name)))
                          (inputFiles options)).
  { clear - Er. revert Er. generalize emptyGenome. generalize (@nil CharString).
    induction (inputFiles options) as [|name names IH]; intros stored readCounts0 Er;
      [constructor|].
    cbn [map readInputFiles] in Er.
    destruct (isGood (openFile name)) eqn:Eg; cbn [negb] in Er; [|discriminate Er].
    destruct (countReadsInBamFile (records (openFile name)) _ _ _ _) as [[code counts]|] eqn:Ec;
      [|discriminate Er].
    destruct (Z.eqb_spec code 0) as [->|Hne]; cbn [negb] in Er; [|discriminate Er].
    destruct (rememberNameStore stored (nameStore (openFile name))) as [stored'|];
      [|discriminate Er].
    constructor; [|exact (IH _ _ Er)].
    split; [exact Eg|]. exact (proj1 (countReadsInBamFile_0 _ _ _ _ _ _ Ec)). }
  assert (Hdir : output options = ""%string \/ chdir (output options) = 0).
  { apply andb_false_iff in Ed. destruct Ed as [Ed|Ed].
    - left. apply Nat.ltb_ge in Ed. destruct (output options); [reflexivity|simpl in Ed; lia].
    - right. apply negb_false_iff in Ed. now apply Z.eqb_eq. }
  destruct (plot options) eqn:Eplot.
  - destruct (plots (collapseBins grouped)) as [bars|] eqn:Eb; [|discriminate H].
    injection H as <-. exists options, (collapseBins grouped), bars.
    repeat (split; [assumption || reflexivity|]).
    unfold plots in Eb.
    destruct (histograms _ 0); [|discriminate Eb].
    destruct (histograms _ 1); [|discriminate Eb].
    destruct (histograms _ 2); [|discriminate Eb].
    destruct (histograms _ 3); [|discriminate Eb].
    rewrite Eplot. now injection Eb as <-.
  - injection H as <-. exists options, (collapseBins grouped), [].
    repeat (split; [assumption || reflexivity|]). now rewrite Eplot.
Qed.

Lemma main_returns_0_witness :
  exists counts bars,
    main log10f_coarse PARSE_OK pairParser defaultOptions exampleFiles (fun _ => 0)
    = Some (0, Some (counts, bars)) /\
    (1 <= binCount counts <= HEIGHT_SCORE_BINS)%nat.
Proof.
  assert (E : exists result,
             main log10f_coarse PARSE_OK pairParser defaultOptions exampleFiles (fun _ => 0)
             = Some (0, result)) by (vm_compute; eexists; reflexivity).
  destruct E as [result E].
  destruct (main_returns_0 _ _ _ _ _ _ _ E) as (options & counts & bars & _ & _ & _ & -> & _ & Hb & _).
  exists counts, bars. split; [exact E|exact Hb].
Defined.

(** ** Floating point: when a rounding overflows *)

Section RoundingOverflow.
Variables prec emax K : Z.
Hypothesis prec_pos : 0 < prec.
Hypothesis prec_lt_emax : prec < emax.
Hypothesis scale_ok : 0 <= emin prec emax + K.


End RoundingOverflow.

Section ExactOperations.
Variables prec emax K : Z.
Hypothesis prec_pos : 0 < prec.
Hypothesis prec_lt_emax : prec < emax.
Hypothesis scale_large : 2 * emax + 2 * prec <= K.





End ExactOperations.





(** ** Overlap Grouper: when a background increment is exact *)


(** ** Overlap Grouper: contributions at a background overlap *)









